(** * qiskit_addon_sqd.fermion: configuration codec, excitation expander,
      integral rotation and orbital optimisation.

    A shallow embedding of [src/qiskit_addon_sqd/fermion.py].  NumPy and JAX
    arrays are lists (nested for matrices and rank-4 tensors); the NumPy
    arrays that a caller shares with the code live in a store indexed by
    locations, so that aliasing, [.copy()] and in-place writes are visible; Python exceptions are the
    constructors of [exn]; the external collaborators (SciPy's [expm], JAX's
    [grad], PySCF's selected-CI solver) are the methods of a class. *)

From Stdlib Require Import ZArith QArith Qcanon Lia List Ascii String Sorted Ring.
From stdpp Require Import base list gmap.

(** ** Python exceptions and results *)

Inductive spin := Up | Dn.

(** The code raises [ValueError] both for a wrong [k_flat] length and for a
    Hamming-weight mismatch; the two are told apart by their messages, whose
    interpolated values are the constructor arguments; [SCIState] raises a
    third [ValueError] for an amplitude shape mismatch.  [IndexError] is what
    NumPy raises for [a[0]] on an empty array, [UnboundLocalError] what Python
    raises when a loop variable is read after a loop that never ran. *)
Inductive exn :=
  | ValueError_k_flat (len_k_flat expected : nat)
  | ValueError_hamming (sector : spin) (ham0 : nat) (i : nat) (ham : nat)
  | ValueError_amplitudes_shape (expected actual : nat * nat)
  | AssertionError
  | IndexError
  | UnboundLocalError.

Inductive result (A : Type) :=
  | Ok (a : A)
  | Raise (e : exn).
Arguments Ok {A} a.
Arguments Raise {A} e.

Definition rbind {A B} (r : result A) (k : A → result B) : result B :=
  match r with
  | Ok a => k a
  | Raise e => Raise e
  end.

Definition is_k_flat_error {A} (r : result A) : Prop :=
  ∃ l e, r = Raise (ValueError_k_flat l e).

Definition is_hamming_error {A} (r : result A) : Prop :=
  ∃ s h0 i h, r = Raise (ValueError_hamming s h0 i h).

(** ** ConfigurationCodec *)

Module Codec.

Local Open Scope Z_scope.

(** A 2D boolean array: [shape1] is kept apart from the rows so that a
    matrix with no rows still has a column count. *)
Record bitstring_matrix := BitstringMatrix {
  bm_rows : list (list bool);
  bm_shape1 : nat
}.

Definition bm_wf (m : bitstring_matrix) : Prop :=
  Forall (λ row, length row = bm_shape1 m) (bm_rows m).

Definition b2z (b : bool) : Z := if b then 1 else 0.

(** *** float64 on integer values

    [np.zeros(num_configs)] is a float64 array, so the column-wise
    accumulation [ci_str[:] += bits * 2 ** k] is a float64 addition.  Every
    value involved is a non-negative integer, and a float64 holds exactly the
    integers with at most 53 significant bits: the sum is rounded to the
    nearest such integer, ties to the even significand. *)
Definition f64_round (z : Z) : Z :=
  let e := Z.log2 z - 52 in
  if e <=? 0 then z
  else
    let q := Z.shiftr z e in
    let r := Z.land z (Z.ones e) in
    let half := Z.shiftl 1 (e - 1) in
    if (half <? r) || ((r =? half) && Z.odd q)
    then Z.shiftl (q + 1) e
    else Z.shiftl q e.

Definition f64_add (x y : Z) : Z := f64_round (x + y).

(** [.astype("longlong")]: the float is already integral; outside the int64
    range the C cast yields the "integer indefinite" value on x86-64.  The
    weights [2 ** (norb - 1 - i)] are taken as exact integers: the model
    covers matrices of up to 63 orbitals per half, for which they fit the
    64-bit integer type of the product. *)
Definition astype_longlong (z : Z) : Z :=
  if (- 2 ^ 63 <=? z) && (z <? 2 ^ 63) then z else - 2 ^ 63.

(** *** np.unique, np.union1d, np.sort *)

Fixpoint insert_unique (x : Z) (l : list Z) : list Z :=
  match l with
  | [] => [x]
  | y :: l' =>
      if x <? y then x :: l
      else if x =? y then l
      else y :: insert_unique x l'
  end.

Definition np_unique (l : list Z) : list Z := foldr insert_unique [] l.

Definition np_union1d (a b : list Z) : list Z := np_unique (a ++ b).

Fixpoint insert_sorted (x : Z) (l : list Z) : list Z :=
  match l with
  | [] => [x]
  | y :: l' => if x <=? y then x :: l else y :: insert_sorted x l'
  end.

Definition np_sort (l : list Z) : list Z := foldr insert_sorted [] l.

(** Strictly increasing: sorted, and free of duplicates. *)
Definition increasing (l : list Z) : Prop := StronglySorted Z.lt l.

(** *** bitstring_matrix_to_ci_strs *)

(** [bts[:, i]]: column [i] of a list of rows. *)
Definition column (rows : list (list bool)) (i : nat) : list bool :=
  map (λ row, default false (row !! i)) rows.

(** One pass of the loop body for one half:
    [ci_str[:] += bts[:, i] * 2 ** (norb - 1 - i)]. *)
Definition accumulate_column (norb i : nat) (bts : list (list bool))
    (ci_str : list Z) : list Z :=
  zip_with (λ acc bit, f64_add acc (b2z bit * 2 ^ Z.of_nat (norb - 1 - i)))
           ci_str (column bts i).

Definition accumulate (norb : nat) (bts : list (list bool)) : list Z :=
  foldl (λ ci_str i, accumulate_column norb i bts ci_str)
        (replicate (length bts) 0) (seq 0 norb).

Definition bitstring_matrix_to_ci_strs (m : bitstring_matrix) (open_shell : bool)
    : list Z * list Z :=
  let norb := (bm_shape1 m / 2)%nat in
  let bts_matrix_left := map (take norb) (bm_rows m) in
  let bts_matrix_right := map (drop norb) (bm_rows m) in
  let ci_str_left := accumulate norb bts_matrix_left in
  let ci_str_right := accumulate norb bts_matrix_right in
  let ci_strs_right := np_unique (map astype_longlong ci_str_right) in
  let ci_strs_left := np_unique (map astype_longlong ci_str_left) in
  if open_shell then (ci_strs_right, ci_strs_left)
  else
    let u := np_union1d ci_strs_left ci_strs_right in
    (u, u).

(** The two arrays before [np.unique]: [ci_str_left.astype("longlong")] and
    [ci_str_right.astype("longlong")], one entry per row. *)
Definition ci_str_left (m : bitstring_matrix) : list Z :=
  let norb := (bm_shape1 m / 2)%nat in
  map astype_longlong (accumulate norb (map (take norb) (bm_rows m))).

Definition ci_str_right (m : bitstring_matrix) : list Z :=
  let norb := (bm_shape1 m / 2)%nat in
  map astype_longlong (accumulate norb (map (drop norb) (bm_rows m))).

(** The encoding of one half-row, as the loop computes it for that row. *)
Definition encode_half (norb : nat) (half : list bool) : Z :=
  astype_longlong
    (foldl (λ acc i,
              f64_add acc (b2z (default false (half !! i))
                           * 2 ^ Z.of_nat (norb - 1 - i)))
           0 (seq 0 norb)).

(** The specification of the encoding: the big-endian bit-to-integer map,
    and its inverse on [w] bits. *)
Fixpoint big_endian (bits : list bool) : Z :=
  match bits with
  | [] => 0
  | b :: bits' => b2z b * 2 ^ Z.of_nat (length bits') + big_endian bits'
  end.

Definition decode (w : nat) (z : Z) : list bool :=
  map (λ c, Z.testbit z (Z.of_nat (w - 1 - c))) (seq 0 w).

(** *** Hamming weight: [format(addr, "b").count("1")] *)

Fixpoint bin_digits (p : positive) : string :=
  match p with
  | xH => "1"
  | xO p' => String.append (bin_digits p') "0"
  | xI p' => String.append (bin_digits p') "1"
  end.

Definition format_b (z : Z) : string :=
  match z with
  | Z0 => "0"
  | Zpos p => bin_digits p
  | Zneg p => String "-" (bin_digits p)
  end.

Fixpoint count_char (c : ascii) (s : string) : nat :=
  match s with
  | EmptyString => 0%nat
  | String c' s' => ((if Ascii.eqb c c' then 1 else 0) + count_char c s')%nat
  end.

Definition hamming (addr : Z) : nat := count_char "1" (format_b addr).

(** The population count of the magnitude. *)
Fixpoint popcount (p : positive) : nat :=
  match p with
  | xH => 1%nat
  | xO p' => popcount p'
  | xI p' => S (popcount p')
  end.

Definition popcountZ (z : Z) : nat :=
  match z with
  | Z0 => 0%nat
  | Zpos p | Zneg p => popcount p
  end.

(** All determinants of a sector have one population count. *)
Definition uniform (addrs : list Z) : Prop :=
  ∀ a b, a ∈ addrs → b ∈ addrs → popcountZ a = popcountZ b.

Definition sector_of (s : spin) (ci_strs : list Z * list Z) : list Z :=
  match s with
  | Up => ci_strs.1
  | Dn => ci_strs.2
  end.

(** *** _check_ci_strs *)

(** [for i, addr in enumerate(addrs): if ham != ham0: raise ValueError]. *)
Fixpoint check_sector (s : spin) (ham0 : nat) (i : nat) (addrs : list Z)
    : result unit :=
  match addrs with
  | [] => Ok tt
  | addr :: addrs' =>
      let ham := hamming addr in
      if negb (Nat.eqb ham ham0) then Raise (ValueError_hamming s ham0 i ham)
      else check_sector s ham0 (S i) addrs'
  end.

Definition _check_ci_strs (ci_strs : list Z * list Z)
    : result (list Z * list Z) :=
  let '(addr_up, addr_dn) := ci_strs in
  match addr_up !! 0%nat with
  | None => Raise IndexError
  | Some up0 =>
      rbind (check_sector Up (hamming up0) 0 addr_up) (λ _,
      match addr_dn !! 0%nat with
      | None => Raise IndexError
      | Some dn0 =>
          rbind (check_sector Dn (hamming dn0) 0 addr_dn) (λ _,
          Ok (np_sort (np_unique addr_up), np_sort (np_unique addr_dn)))
      end)
  end.

End Codec.

(** ** ExcitationExpander *)

Module Expander.

(** jnp's elementwise operations on 1D boolean arrays of one shape. *)
Definition logical_and := zip_with andb.
Definition logical_or := zip_with orb.
Definition eq_elementwise := zip_with Bool.eqb.
Definition jnp_all (a : list bool) : bool := forallb id a.

Definition _apply_excitation_single
    (single_bts diag create annihilate : list bool) : list bool * bool :=
  let falses := replicate (length diag) false in
  let bts_ret := eq_elementwise single_bts diag in
  let create_crit :=
    jnp_all (logical_or diag
               (eq_elementwise falses (logical_and single_bts create))) in
  let annihilate_crit :=
    jnp_all (eq_elementwise falses
               (logical_and (eq_elementwise falses single_bts) annihilate)) in
  let include_crit := create_crit && annihilate_crit in
  (bts_ret, include_crit).

(** [vmap(_apply_excitation_single, (0, None, None, None), 0)]: batched over
    the configurations; a pair of batched outputs. *)
Definition _apply_excitation (bitstring_matrix : list (list bool))
    (diag create annihilate : list bool) : list (list bool) * list bool :=
  let outs :=
    map (λ bts, _apply_excitation_single bts diag create annihilate)
        bitstring_matrix in
  (map fst outs, map snd outs).

(** [vmap(_apply_excitation, (None, 0, 0, 0), 0)]: batched over the rows of
    the three masks, i.e. over the operators. *)
Definition apply_excitations (bitstring_matrix : list (list bool))
    (diag create annihilate : list (list bool))
    : list (list (list bool)) * list (list bool) :=
  let outs :=
    zip_with (λ d ca, _apply_excitation bitstring_matrix d ca.1 ca.2)
             diag (zip create annihilate) in
  (map fst outs, map snd outs).

(** ["I"], ["+"], ["-"], ["n"] are compared as strings; any other symbol
    gives [False] in all three masks. *)
Definition _transition_str_to_bool (string_rep : list (list ascii))
    : list (list bool) * list (list bool) * list (list bool) :=
  let equals c := map (map (Ascii.eqb c)) string_rep in
  let np_logical_or := zip_with (zip_with orb) in
  let diag := np_logical_or (equals "I"%char) (equals "n"%char) in
  let create := np_logical_or (equals "+"%char) (equals "n"%char) in
  let annihilate := np_logical_or (equals "-"%char) (equals "n"%char) in
  (diag, create, annihilate).

(** [a[mask]] for a 3D array [a] and a 2D boolean [mask]: the rows [a[i][j]]
    with [mask[i][j]] set, in row-major order of [(i, j)]. *)
Definition mask_select (a : list (list (list bool))) (mask : list (list bool))
    : list (list bool) :=
  concat (zip_with (λ rows ms, (filter (λ rm, rm.2 = true) (zip rows ms)).*1)
                   a mask).

Definition enlarge_batch_from_transitions (bitstring_matrix : list (list bool))
    (transition_operators : list (list ascii)) : list (list bool) :=
  let '(diag, create, annihilate) :=
    _transition_str_to_bool transition_operators in
  let '(bitstring_matrix_augmented, mask) :=
    apply_excitations bitstring_matrix diag create annihilate in
  mask_select bitstring_matrix_augmented mask.

(** The masks of one operator row. *)
Definition op_diag (op : list ascii) : list bool :=
  map (λ ch, Ascii.eqb "I"%char ch || Ascii.eqb "n"%char ch) op.
Definition op_create (op : list ascii) : list bool :=
  map (λ ch, Ascii.eqb "+"%char ch || Ascii.eqb "n"%char ch) op.
Definition op_annihilate (op : list ascii) : list bool :=
  map (λ ch, Ascii.eqb "-"%char ch || Ascii.eqb "n"%char ch) op.

(** The surviving rows that one operator row contributes. *)
Definition expand_op (bitstring_matrix : list (list bool)) (op : list ascii)
    : list (list bool) :=
  (filter (λ rm, rm.2 = true)
     (map (λ bts, _apply_excitation_single bts (op_diag op) (op_create op)
                                           (op_annihilate op))
          bitstring_matrix)).*1.

(** The validity rule: every position marked [create] but not [diag] is
    unoccupied, and every position marked [annihilate] is occupied. *)
Definition survives (bts diag create annihilate : list bool) : Prop :=
  (∀ p, create !! p = Some true → diag !! p = Some false →
        bts !! p = Some false)
  ∧ (∀ p, annihilate !! p = Some true → bts !! p = Some true).

(** The new occupation: the original bit where [diag] is set, the flipped bit
    elsewhere. *)
Definition new_occupation (bts diag : list bool) : list bool :=
  zip_with (λ b d : bool, if d then b else negb b) bts diag.

End Expander.

(** ** Scalars

    The entries of [hcore], [eri], [k_flat] and the density matrices.  The
    development is parametric in a commutative ring, so every statement holds
    for the real numbers; rounding of float64 arithmetic on non-integral
    values is not modelled.  [lit_0_9] is the literal [0.9] that
    [optimize_orbitals] passes as the momentum. *)

Class Scalar (R : Type) := {
  s0 : R;
  s1 : R;
  sadd : R → R → R;
  smul : R → R → R;
  ssub : R → R → R;
  sopp : R → R;
  lit_0_9 : R;
  scalar_ring : ring_theory s0 s1 sadd smul ssub sopp eq
}.

(** ** Arrays of scalars *)

Section Arrays.
Context {R : Type} `{Scalar R}.

Definition tabulate {A} (n : nat) (f : nat → A) : list A := map f (seq 0 n).

Definition mget (M : list (list R)) (i j : nat) : R :=
  default s0 (M !! i ≫= λ row, row !! j).

Definition t4get (T : list (list (list (list R)))) (p q r s : nat) : R :=
  default s0 (T !! p ≫= λ a, a !! q ≫= λ b, b !! r ≫= λ c, c !! s).

Definition mtab (n m : nat) (f : nat → nat → R) : list (list R) :=
  tabulate n (λ i, tabulate m (f i)).

Definition t4tab (n0 n1 n2 n3 : nat) (f : nat → nat → nat → nat → R)
    : list (list (list (list R))) :=
  tabulate n0 (λ i, tabulate n1 (λ j, tabulate n2 (λ k, tabulate n3 (f i j k)))).

Definition sum_n (n : nat) (f : nat → R) : R :=
  foldr (λ i acc, sadd (f i) acc) s0 (seq 0 n).

(** [M.shape[1]], read off the first row. *)
Definition shape1 {A} (M : list (list A)) : nat := length (default [] (head M)).

Definition is_matrix (n m : nat) (M : list (list R)) : Prop :=
  length M = n ∧ Forall (λ row, length row = m) M.

Definition is_tensor4 (n : nat) (T : list (list (list (list R)))) : Prop :=
  length T = n ∧
  Forall (λ a, length a = n ∧
    Forall (λ b, length b = n ∧ Forall (λ c, length c = n) b) a) T.

Definition zeros (n m : nat) : list (list R) := replicate n (replicate m s0).

(** The Kronecker delta. *)
Definition delta (i j : nat) : R := if decide (i = j) then s1 else s0.

Definition identity (n : nat) : list (list R) := mtab n n delta.

Definition transpose (M : list (list R)) : list (list R) :=
  mtab (shape1 M) (length M) (λ i j, mget M j i).

Definition matmul (A B : list (list R)) : list (list R) :=
  mtab (length A) (shape1 B)
       (λ i j, sum_n (length B) (λ k, smul (mget A i k) (mget B k j))).

Definition diagonal (M : list (list R)) : list R :=
  tabulate (length M) (λ i, mget M i i).

(** [np.einsum("pqrs, pi, qj, rk, sl->ijkl", eri, A, B, C, D)]. *)
Definition einsum_pqrs_pi_qj_rk_sl (eri : list (list (list (list R))))
    (A B C D : list (list R)) : list (list (list (list R))) :=
  t4tab (shape1 A) (shape1 B) (shape1 C) (shape1 D) (λ i j k l,
    sum_n (length A) (λ p, sum_n (length B) (λ q,
    sum_n (length C) (λ r, sum_n (length D) (λ s,
      smul (smul (smul (smul (t4get eri p q r s) (mget A p i)) (mget B q j))
                 (mget C r k)) (mget D s l)))))).

(** [T.transpose(0, 2, 3, 1)] and [T.transpose(0, 3, 1, 2)] of a rank-4
    tensor with all four dimensions equal: axis [i] of the result is axis
    [axes[i]] of the argument. *)
Definition transpose_0231 (T : list (list (list (list R))))
    : list (list (list (list R))) :=
  let n := length T in
  t4tab n n n n (λ a b c d, t4get T a d b c).

Definition transpose_0312 (T : list (list (list (list R))))
    : list (list (list (list R))) :=
  let n := length T in
  t4tab n n n n (λ a b c d, t4get T a c d b).

Definition vscale (a : R) (v : list R) : list R := map (smul a) v.
Definition vadd (u v : list R) : list R := zip_with sadd u v.
Definition vsub (u v : list R) : list R := zip_with ssub u v.

End Arrays.

(** ** External collaborators

    SciPy's matrix exponential, the JAX-compiled gradient of
    [_SCISCF_Energy_contract] with respect to [k_flat], and the PySCF
    selected-CI solver with its density matrices.  They are pure functions of
    their arguments. *)

Record sci_vector (R : Type) := SCIVector {
  sv_amplitudes : list (list R);
  sv_strs : list Z * list Z
}.
Arguments SCIVector {R} _ _.
Arguments sv_amplitudes {R} _.
Arguments sv_strs {R} _.

Class Collaborators (R : Type) := {
  expm : list (list R) → list (list R);
  _SCISCF_Energy_contract_grad :
    list (list R) → list (list (list (list R))) →
    list (list R) → list (list (list (list R))) → list R → list R;
  kernel_fixed_space :
    option R → list (list R) → list (list (list (list R))) → nat →
    nat * nat → list Z * list Z → nat → R * sci_vector R;
  make_rdm12 :
    sci_vector R → nat → nat * nat →
    list (list R) * list (list (list (list R)));
  make_rdm1s :
    sci_vector R → nat → nat * nat → list (list R) * list (list R);
  spin_square : sci_vector R → nat → nat * nat → R
}.

(** *** Rational scalars, for the worked examples

    Exact rationals are a model of [Scalar]; [qz] embeds the integers. *)

#[export] Instance Qc_scalar : Scalar Qc := {|
  s0 := Q2Qc 0;
  s1 := 1%Qc;
  sadd := Qcplus;
  smul := Qcmult;
  ssub := Qcminus;
  sopp := Qcopp;
  lit_0_9 := Q2Qc (9 # 10);
  scalar_ring := Qcrt
|}.

Definition qz (z : Z) : Qc := Q2Qc (inject_Z z).

(** Stand-ins for the collaborators in the worked examples: the first-order
    truncation [I + K] of the exponential series, the gradient of
    [|k|^2 / 2], and a solver that returns zero amplitudes. *)
Definition example_expm (K : list (list Qc)) : list (list Qc) :=
  mtab (length K) (length K) (λ i j, sadd (delta i j) (mget K i j)).

#[export] Instance Qc_collaborators : Collaborators Qc := {|
  expm := example_expm;
  _SCISCF_Energy_contract_grad := λ _ _ _ _ k_flat, k_flat;
  kernel_fixed_space := λ _ _ _ _ _ ci_strs _,
    (s0, SCIVector (zeros (length ci_strs.1) (length ci_strs.2)) ci_strs);
  make_rdm12 := λ _ norb _, (zeros norb norb, []);
  make_rdm1s := λ _ norb _, (zeros norb norb, zeros norb norb);
  spin_square := λ _ _ _, s0
|}.

(** ** IntegralRotator *)

Module Rotator.
Section Rotator.
Context {R : Type} `{Scalar R} `{Collaborators R}.

(** [jnp.triu_indices(n, k=1)] and [jnp.tril_indices(n, k=-1)]: the
    positions strictly above, respectively strictly below, the diagonal, both
    in row-major order. *)
Definition triu_indices (n : nat) : list (nat * nat) :=
  flat_map (λ i, map (λ j, (i, j)) (seq (S i) (n - S i))) (seq 0 n).

Definition tril_indices (n : nat) : list (nat * nat) :=
  flat_map (λ i, map (λ j, (i, j)) (seq 0 i)) (seq 0 n).

(** [K.at[indices].set(values)]: the [t]-th value goes to the [t]-th
    position. *)
Definition at_set (K : list (list R)) (indices : list (nat * nat))
    (values : list R) : list (list R) :=
  foldl (λ K iv, alter (λ row, <[iv.1.2 := iv.2]> row) iv.1.1 K)
        K (zip indices values).

(** Only called with [length k_flat = k_dim * (k_dim - 1) / 2]: both callers
    check the length first. *)
Definition _antisymmetric_matrix_from_upper_tri (k_flat : list R) (k_dim : nat)
    : list (list R) :=
  let K := zeros k_dim k_dim in
  let upper_indices := triu_indices k_dim in
  let lower_indices := tril_indices k_dim in
  let K := at_set K upper_indices k_flat in
  let K := at_set K lower_indices (map sopp k_flat) in
  K.

Definition rotate_integrals (hcore : list (list R))
    (eri : list (list (list (list R)))) (k_flat : list R)
    : result (list (list R) * list (list (list (list R)))) :=
  let norb := length hcore in
  let num_params := ((norb ^ 2 - norb) / 2)%nat in
  if negb (length k_flat =? num_params)%nat
  then Raise (ValueError_k_flat (length k_flat) num_params)
  else
    let K := _antisymmetric_matrix_from_upper_tri k_flat norb in
    let U := expm K in
    let hcore_rot := matmul (transpose U) (matmul hcore U) in
    let eri_rot := einsum_pqrs_pi_qj_rk_sl eri U U U U in
    Ok (hcore_rot, eri_rot).

End Rotator.
End Rotator.

(** ** GradientOptimizer

    [_optimize_orbitals_sci] receives [k_flat] as a NumPy array, a location
    of the store.  The gradient is a JAX array, and so is every
    [prev_update] computed from it.  NumPy's in-place subtraction defers to
    a JAX operand: [k_flat -= prev_update] then evaluates
    [k_flat - prev_update] in JAX and rebinds the local name [k_flat] to the
    result, without writing the NumPy array.  The model keeps, for every
    array of the loop, the library it belongs to. *)

Module Optimizer.
Section Optimizer.
Context {R : Type} `{Scalar R} `{Collaborators R}.

Inductive library := numpy | jax.

(** What the local name [k_flat] is bound to: a NumPy array, by its location
    in the store, or an immutable JAX array, by its entries. *)
Inductive array :=
  | NumPy (l : nat)
  | Jax (v : list R).

Definition contents (σ : gmap nat (list R)) (a : array) : list R :=
  match a with
  | NumPy l => σ !!! l
  | Jax v => v
  end.

(** A temporary array of the loop ([grad], [prev_update]): its library and
    its entries. *)
Record temporary := Temporary {
  library_of : library;
  entries : list R
}.

(** A Python float times an array is an array of the same library; the sum
    of two arrays is a JAX array as soon as one of them is. *)
Definition library_join (a b : library) : library :=
  match a, b with
  | numpy, numpy => numpy
  | _, _ => jax
  end.

Definition array_scale (a : R) (t : temporary) : temporary :=
  Temporary (library_of t) (vscale a (entries t)).

Definition array_add (t u : temporary) : temporary :=
  Temporary (library_join (library_of t) (library_of u))
            (vadd (entries t) (entries u)).

(** [x -= y].  Between two NumPy arrays the subtraction is done in place.
    With a JAX array on the right NumPy defers, and with a JAX array on the
    left there is no in-place operation: Python evaluates [x - y] and binds
    the name to the new JAX array; the store is not written. *)
Definition isub (σ : gmap nat (list R)) (x : array) (y : temporary)
    : gmap nat (list R) * array :=
  match x, library_of y with
  | NumPy l, numpy => (<[l := vsub (σ !!! l) (entries y)]> σ, NumPy l)
  | _, _ => (σ, Jax (vsub (contents σ x) (entries y)))
  end.

(** One pass of the loop body, on the store and the two local names
    [k_flat] and [prev_update]. *)
Definition sci_step (learning_rate momentum : R)
    (dm1 : list (list R)) (dm2 : list (list (list (list R))))
    (hcore : list (list R)) (eri : list (list (list (list R))))
    (st : gmap nat (list R) * array * temporary)
    : gmap nat (list R) * array * temporary :=
  let '(σ, k_flat, prev_update) := st in
  let grad :=
    Temporary jax (_SCISCF_Energy_contract_grad dm1 dm2 hcore eri
                     (contents σ k_flat)) in
  let prev_update :=
    array_add (array_scale learning_rate grad)
              (array_scale momentum prev_update) in
  let '(σ, k_flat) := isub σ k_flat prev_update in
  (σ, k_flat, prev_update).

(** The state in which the loop is entered:
    [prev_update = np.zeros(len(k_flat))]. *)
Definition sci_init (k_flat : nat) (σ : gmap nat (list R))
    : gmap nat (list R) * array * temporary :=
  (σ, NumPy k_flat, Temporary numpy (replicate (length (σ !!! k_flat)) s0)).

Definition sci_loop (learning_rate momentum : R) (num_steps : nat)
    (dm1 : list (list R)) (dm2 : list (list (list (list R))))
    (hcore : list (list R)) (eri : list (list (list (list R))))
    (k_flat : nat) (σ : gmap nat (list R))
    : gmap nat (list R) * array * temporary :=
  Nat.iter num_steps (sci_step learning_rate momentum dm1 dm2 hcore eri)
           (sci_init k_flat σ).

(** The function returns [None]: what it leaves is the store. *)
Definition _optimize_orbitals_sci (k_flat : nat) (learning_rate momentum : R)
    (num_steps : nat)
    (dm1 : list (list R)) (dm2 : list (list (list (list R))))
    (hcore : list (list R)) (eri : list (list (list (list R))))
    (σ : gmap nat (list R)) : gmap nat (list R) :=
  (sci_loop learning_rate momentum num_steps dm1 dm2 hcore eri k_flat σ).1.1.

(** The parameter trajectory of a run: the entries of the array that the name
    [k_flat] is bound to after each of the [num_steps] passes. *)
Definition sci_trajectory (learning_rate momentum : R) (num_steps : nat)
    (dm1 : list (list R)) (dm2 : list (list (list (list R))))
    (hcore : list (list R)) (eri : list (list (list (list R))))
    (k_flat : nat) (σ : gmap nat (list R)) : list (list R) :=
  map (λ t,
         let st := sci_loop learning_rate momentum (S t) dm1 dm2 hcore eri
                            k_flat σ in
         contents st.1.1 st.1.2)
      (seq 0 num_steps).

(** Momentum gradient descent as the specification words it, entry by entry:
    [velocity = learning_rate * grad + momentum * velocity_prev;
    k -= velocity].  The parameters after each of [N] steps from [k] and
    [velocity_prev]. *)
Fixpoint momentum_descent (learning_rate momentum : R)
    (dm1 : list (list R)) (dm2 : list (list (list (list R))))
    (hcore : list (list R)) (eri : list (list (list (list R))))
    (N : nat) (k velocity_prev : list R) : list (list R) :=
  match N with
  | O => []
  | S n =>
      let grad := _SCISCF_Energy_contract_grad dm1 dm2 hcore eri k in
      let velocity :=
        tabulate (length k) (λ i,
          sadd (smul learning_rate (nth i grad s0))
               (smul momentum (nth i velocity_prev s0))) in
      let k' :=
        tabulate (length k) (λ i, ssub (nth i k s0) (nth i velocity s0)) in
      k' :: momentum_descent learning_rate momentum dm1 dm2 hcore eri
                             n k' velocity
  end.

End Optimizer.
End Optimizer.

(** ** OrbitalOptimizationLoop and solve_fermion *)

Module Loop.
Import Codec Rotator Optimizer.

(** The configurations argument: a bitstring matrix, or (deprecated) a
    length-2 tuple of determinant arrays. *)
Inductive configurations :=
  | Bitstrings (m : bitstring_matrix)
  | Determinants (up dn : list Z).

(** The common prologue of [solve_fermion] and [optimize_orbitals]: the
    determinants, validated, and the electron counts read off the first
    determinant of each sector. *)
Definition validated_ci_strs (bitstring_matrix : configurations)
    (open_shell : bool) : result (list Z * list Z * (nat * nat)) :=
  let ci_strs :=
    match bitstring_matrix with
    | Determinants up dn => (up, dn)
    | Bitstrings m => bitstring_matrix_to_ci_strs m open_shell
    end in
  rbind (_check_ci_strs ci_strs) (λ ci_strs,
  match ci_strs.1 !! 0%nat, ci_strs.2 !! 0%nat with
  | Some up0, Some dn0 => Ok (ci_strs, (hamming up0, hamming dn0))
  | _, _ => Raise IndexError
  end).

Section Loop.
Context {R : Type} `{Scalar R} `{Collaborators R}.

Record SCIState := MkSCIState {
  amplitudes : list (list R);
  ci_strs_a : list Z;
  ci_strs_b : list Z
}.

(** [SCIState.__post_init__]. *)
Definition new_SCIState (amplitudes : list (list R)) (ci_strs_a ci_strs_b : list Z)
    : result SCIState :=
  let shape := (length amplitudes, shape1 amplitudes) in
  if decide (shape = (length ci_strs_a, length ci_strs_b))
  then Ok (MkSCIState amplitudes ci_strs_a ci_strs_b)
  else Raise (ValueError_amplitudes_shape
                (length ci_strs_a, length ci_strs_b) shape).

(** [solve_fermion] with the default [subspace=False]; the [subspace] branch
    runs after the validation and the electron counts. *)
Definition solve_fermion (bitstring_matrix : configurations)
    (hcore : list (list R)) (eri : list (list (list (list R))))
    (open_shell : bool) (spin_sq : option R) (max_davidson : nat)
    : result (R * SCIState * list (list R) * R) :=
  rbind (validated_ci_strs bitstring_matrix open_shell) (λ v,
  let '(ci_strs, nelec) := v in
  let norb := length hcore in
  let '(e_sci, sci_vec) :=
    kernel_fixed_space spin_sq hcore eri norb nelec ci_strs max_davidson in
  let dm1 := make_rdm1s sci_vec norb nelec in
  let avg_occupancy := [diagonal dm1.1; diagonal dm1.2] in
  let spin_squared := spin_square sci_vec norb nelec in
  let shape := (length (sv_amplitudes sci_vec), shape1 (sv_amplitudes sci_vec)) in
  if decide (shape = (length (sv_strs sci_vec).1, length (sv_strs sci_vec).2))
  then
    rbind (new_SCIState (sv_amplitudes sci_vec)
                        (sv_strs sci_vec).1 (sv_strs sci_vec).2) (λ sci_state,
    Ok (e_sci, sci_state, avg_occupancy, spin_squared))
  else Raise AssertionError).

(** What the last pass of the outer loop leaves in [e_qsci], [dm1a], [dm1b]. *)
Record iteration := Iteration {
  e_qsci : R;
  dm1a : list (list R);
  dm1b : list (list R)
}.

(** [for _ in range(num_iters)] of [optimize_orbitals]; [k_flat] is the
    location of the copy. *)
Fixpoint orbital_loop (num_iters : nat) (last : option iteration)
    (hcore : list (list R)) (eri_phys : list (list (list (list R))))
    (k_flat : nat) (norb : nat) (nelec : nat * nat) (ci_strs : list Z * list Z)
    (spin_sq : R) (num_steps_grad : nat) (learning_rate : R)
    (max_davidson : nat) (σ : gmap nat (list R))
    : result (option iteration) * gmap nat (list R) :=
  match num_iters with
  | O => (Ok last, σ)
  | S n =>
      match rotate_integrals hcore eri_phys (σ !!! k_flat) with
      | Raise e => (Raise e, σ)
      | Ok (hcore_rot, eri_rot) =>
          let eri_rot_chem := transpose_0312 eri_rot in
          let '(e_qsci, amplitudes) :=
            kernel_fixed_space (Some spin_sq) hcore_rot eri_rot_chem norb
                               nelec ci_strs max_davidson in
          let '(dm1, dm2_chem) := make_rdm12 amplitudes norb nelec in
          let dm2 := transpose_0231 dm2_chem in
          let '(dm1a, dm1b) := make_rdm1s amplitudes norb nelec in
          let σ :=
            _optimize_orbitals_sci k_flat learning_rate lit_0_9 num_steps_grad
                                   dm1 dm2 hcore eri_phys σ in
          orbital_loop n (Some (Iteration e_qsci dm1a dm1b)) hcore eri_phys
                       k_flat norb nelec ci_strs spin_sq num_steps_grad
                       learning_rate max_davidson σ
      end
  end.

(** [optimize_orbitals]: [k_flat] is the caller's array, a location of the
    store; the result carries the location of the returned array. *)
Definition optimize_orbitals (bitstring_matrix : configurations)
    (hcore : list (list R)) (eri : list (list (list (list R))))
    (k_flat : nat) (open_shell : bool) (spin_sq : R)
    (num_iters num_steps_grad : nat) (learning_rate : R) (max_davidson : nat)
    (σ : gmap nat (list R))
    : result (R * nat * list (list R)) * gmap nat (list R) :=
  let norb := length hcore in
  let num_params := ((norb ^ 2 - norb) / 2)%nat in
  if negb (length (σ !!! k_flat) =? num_params)%nat
  then (Raise (ValueError_k_flat (length (σ !!! k_flat)) num_params), σ)
  else
    match validated_ci_strs bitstring_matrix open_shell with
    | Raise e => (Raise e, σ)
    | Ok (ci_strs, nelec) =>
        (* k_flat = k_flat.copy() *)
        let k_flat_copy := fresh (dom σ) in
        let σ := <[k_flat_copy := σ !!! k_flat]> σ in
        let eri_phys := transpose_0231 eri in
        match orbital_loop num_iters None hcore eri_phys k_flat_copy norb
                           nelec ci_strs spin_sq num_steps_grad learning_rate
                           max_davidson σ with
        | (Raise e, σ) => (Raise e, σ)
        | (Ok None, σ) => (Raise UnboundLocalError, σ)
        | (Ok (Some it), σ) =>
            (Ok (e_qsci it, k_flat_copy, [diagonal (dm1a it); diagonal (dm1b it)]),
             σ)
        end
    end.

End Loop.
End Loop.

(** ** Further exceptions

    The operations below raise, besides the exceptions of [exn], NumPy's
    [ValueError] for an assignment whose source cannot be broadcast into the
    target slice, and its [ValueError] for a sequence of arrays of different
    lengths that is asked to become one array. *)

Inductive np_exn :=
  | CoreError (e : exn)
  | ValueError_broadcast (from_shape into_shape : nat)
  | ValueError_inhomogeneous (len0 len1 : nat).

Inductive outcome (A : Type) :=
  | Return (a : A)
  | Throw (e : np_exn).
Arguments Return {A} a.
Arguments Throw {A} e.

Definition obind {A B} (o : outcome A) (k : A → outcome B) : outcome B :=
  match o with
  | Return a => k a
  | Throw e => Throw e
  end.

Definition lift_result {A} (r : result A) : outcome A :=
  match r with
  | Ok a => Return a
  | Raise e => Throw (CoreError e)
  end.

(** ** flip_orbital_occupancies *)

Module Occupancies.
Section Occupancies.
Context {R : Type} `{Scalar R}.

(** [out[lo:hi] = src] for [lo <= hi <= len(out)]: the source has the
    length of the slice, or it has length one and is repeated over the slice
    (also over an empty one); otherwise NumPy raises. *)
Definition assign_slice (out : list R) (lo hi : nat) (src : list R)
    : outcome (list R) :=
  if decide (length src = hi - lo)
  then Return (take lo out ++ src ++ drop hi out)
  else
    match src with
    | [x] => Return (take lo out ++ replicate (hi - lo) x ++ drop hi out)
    | _ => Throw (ValueError_broadcast (length src) (hi - lo))
    end.

Definition flip_orbital_occupancies (occupancies : list R)
    : outcome (list R) :=
  let norb := length occupancies / 2 in
  let occ_up := take norb occupancies in
  let occ_dn := drop norb occupancies in
  let occ_out := replicate (2 * norb) s0 in
  obind (assign_slice occ_out 0 norb (reverse occ_up)) (λ occ_out,
  obind (assign_slice occ_out norb (2 * norb) (reverse occ_dn)) (λ occ_out,
  Return occ_out)).

End Occupancies.
End Occupancies.

(** ** bitstring_matrix_to_sorted_addresses (deprecated) *)

Module Addresses.
Import Codec.

(** The loop and the reductions are those of [bitstring_matrix_to_ci_strs];
    the pair is returned left half first. *)
Definition bitstring_matrix_to_sorted_addresses (m : bitstring_matrix)
    (open_shell : bool) : list Z * list Z :=
  let norb := (bm_shape1 m / 2)%nat in
  let bts_matrix_left := map (take norb) (bm_rows m) in
  let bts_matrix_right := map (drop norb) (bm_rows m) in
  let address_left := accumulate norb bts_matrix_left in
  let address_right := accumulate norb bts_matrix_right in
  let addresses_right := np_unique (map astype_longlong address_right) in
  let addresses_left := np_unique (map astype_longlong address_left) in
  if open_shell then (addresses_left, addresses_right)
  else
    let u := np_union1d addresses_left addresses_right in
    (u, u).

End Addresses.

(** ** Occupation counts *)

Module Counting.

(** The number of occupied positions of a configuration. *)
Definition occupation (bts : list bool) : nat :=
  length (filter (λ b, b = true) bts).

(** The number of occurrences of a symbol in an operator row. *)
Definition count_symbol (ch : ascii) (op : list ascii) : nat :=
  length (filter (λ c, c = ch) op).

(** The symbols that [_transition_str_to_bool] recognises. *)
Definition recognised (ch : ascii) : Prop :=
  ch = "I"%char ∨ ch = "+"%char ∨ ch = "-"%char ∨ ch = "n"%char.

(** Every orbital that the row marks ["n"] is occupied. *)
Definition number_occupied (op : list ascii) (bts : list bool) : bool :=
  forallb id (zip_with (λ (ch : ascii) (b : bool),
                          negb (Ascii.eqb ch "n"%char) || b) op bts).

(** What one position of an operator row does to one occupation bit: the
    new bit, and whether the position allows the pair to be kept. *)
Definition new_bit (ch : ascii) (b : bool) : bool :=
  Bool.eqb b (Ascii.eqb "I"%char ch || Ascii.eqb "n"%char ch).

Definition valid_at (ch : ascii) (b : bool) : bool :=
  ((Ascii.eqb "I"%char ch || Ascii.eqb "n"%char ch)
   || negb (b && (Ascii.eqb "+"%char ch || Ascii.eqb "n"%char ch)))
  && negb (negb b && (Ascii.eqb "-"%char ch || Ascii.eqb "n"%char ch)).

End Counting.

(** ** _generate_bitstrings and the subspace branch of solve_fermion *)

Module Subspace.
Import Codec Loop.

(** [itertools.combinations(pool, k)]: the subsequences of [k] elements of
    [pool], in the lexicographic order of their positions. *)
Fixpoint combinations {A} (pool : list A) (k : nat) : list (list A) :=
  match k, pool with
  | O, _ => [[]]
  | S _, [] => []
  | S k', x :: pool' =>
      map (cons x) (combinations pool' k') ++ combinations pool' k
  end.

(** The inner function [_get_strings(n, k)]. *)
Definition _get_strings (n k : nat) : list (list ascii) :=
  map (λ comb,
         map (λ i, if bool_decide (i ∈ comb) then "1"%char else "0"%char)
             (seq 0 n))
      (combinations (seq 0 n) k).

(** The same strings over the positions [s, ..., s + n - 1]:
    [_get_strings n k] is [strings_from 0 n k]. *)
Definition strings_from (s n k : nat) : list (list ascii) :=
  map (λ comb,
         map (λ i, if bool_decide (i ∈ comb) then "1"%char else "0"%char)
             (seq s n))
      (combinations (seq s n) k).

(** [[bit == "1" for bit in bs]]. *)
Definition to_bool (bs : list ascii) : list bool :=
  map (λ bit, Ascii.eqb bit "1"%char) bs.

(** [np.array(rows, dtype=bool)] for rows of one length: a list with no row
    gives a one-dimensional array of shape [(0,)], any other a matrix. *)
Inductive bool_array :=
  | Array1D_empty
  | Array2D (m : bitstring_matrix).

Definition np_array (rows : list (list bool)) : bool_array :=
  match rows with
  | [] => Array1D_empty
  | row :: _ => Array2D (BitstringMatrix rows (length row))
  end.

(** The six counts are natural numbers; [d_orb] is a Python integer and may
    be negative.  [d_orb / 2] is a float, exact for the counts at hand, and
    [int] truncates towards zero: [int(d_orb / 2)] is [Z.quot d_orb 2] and
    [int(norb - n_orb - d_orb / 2)] is
    [Z.quot (2 * (norb - n_orb) - d_orb) 2].  A string repeated a negative
    number of times is empty. *)
Definition num_doubly_occ (neleca nelecb n_alpha n_beta : nat) : nat :=
  let d_orb := (Z.of_nat neleca + Z.of_nat nelecb
                - Z.of_nat n_alpha - Z.of_nat n_beta)%Z in
  Z.to_nat (Z.quot d_orb 2).

Definition num_virtual (norb neleca nelecb n_orb n_alpha n_beta : nat) : nat :=
  let d_orb := (Z.of_nat neleca + Z.of_nat nelecb
                - Z.of_nat n_alpha - Z.of_nat n_beta)%Z in
  Z.to_nat (Z.quot (2 * (Z.of_nat norb - Z.of_nat n_orb) - d_orb) 2).

Definition _generate_bitstrings (norb neleca nelecb n_orb n_alpha n_beta : nat)
    : bool_array :=
  let alpha_strings := _get_strings n_orb n_alpha in
  let beta_strings := _get_strings n_orb n_beta in
  let doubly_occ :=
    [replicate (num_doubly_occ neleca nelecb n_alpha n_beta) "1"%char] in
  let virtual_occ :=
    [replicate (num_virtual norb neleca nelecb n_orb n_alpha n_beta)
               "0"%char] in
  let bitstrings :=
    a ← alpha_strings; b ← beta_strings; d ← doubly_occ; v ← virtual_occ;
    [v ++ b ++ d ++ v ++ a ++ d] in
  let bitstrings_bool := map to_bool bitstrings in
  np_array bitstrings_bool.

(** [bitstring_matrix_to_ci_strs(subspace_m, open_shell=open_shell)]:
    [shape[1]] of a one-dimensional array is an [IndexError]. *)
Definition subspace_ci_strs (subspace_m : bool_array) (open_shell : bool)
    : outcome (list Z * list Z) :=
  match subspace_m with
  | Array1D_empty => Throw (CoreError IndexError)
  | Array2D m => Return (bitstring_matrix_to_ci_strs m open_shell)
  end.

(** [np.append(a, x) if x not in a else a]. *)
Definition append_if_absent (x : Z) (a : list Z) : list Z :=
  if bool_decide (x ∈ a) then a else a ++ [x].

(** [for ind in range(len(subspace_ci[0]))].  [np.sort] of a pair of arrays
    makes one two-dimensional array of them and sorts each row; for two
    arrays of different lengths NumPy (from 1.24) raises [ValueError].  The
    determinants are arrays of one integer type. *)
Fixpoint subspace_loop (inds : list nat) (subspace_ci ci_strs : list Z * list Z)
    : outcome (list Z * list Z) :=
  match inds with
  | [] => Return ci_strs
  | ind :: inds' =>
      match subspace_ci.1 !! ind with
      | None => Throw (CoreError IndexError)
      | Some a =>
          let ci_0 := append_if_absent a ci_strs.1 in
          match subspace_ci.2 !! ind with
          | None => Throw (CoreError IndexError)
          | Some b =>
              let ci_1 := append_if_absent b ci_strs.2 in
              if decide (length ci_0 = length ci_1)
              then subspace_loop inds' subspace_ci (np_sort ci_0, np_sort ci_1)
              else Throw (ValueError_inhomogeneous (length ci_0) (length ci_1))
          end
      end
  end.

(** The block [if subspace: ...] of [solve_fermion]. *)
Definition subspace_branch (norb : nat) (nelec : nat * nat)
    (ci_strs : list Z * list Z) (open_shell : bool)
    (subspace_orb subspace_alpha subspace_beta : nat)
    : outcome (list Z * list Z) :=
  let subspace_m :=
    _generate_bitstrings norb nelec.1 nelec.2
                         subspace_orb subspace_alpha subspace_beta in
  obind (subspace_ci_strs subspace_m open_shell) (λ subspace_ci,
  subspace_loop (seq 0 (length subspace_ci.1)) subspace_ci ci_strs).

Section Subspace.
Context {R : Type} `{Scalar R} `{Collaborators R}.

(** [solve_fermion] with its [subspace] arguments. *)
Definition solve_fermion (bitstring_matrix : configurations)
    (hcore : list (list R)) (eri : list (list (list (list R))))
    (open_shell : bool) (spin_sq : option R) (max_davidson : nat)
    (subspace : bool) (subspace_orb subspace_alpha subspace_beta : nat)
    : outcome (R * SCIState * list (list R) * R) :=
  obind (lift_result (validated_ci_strs bitstring_matrix open_shell)) (λ v,
  let '(ci_strs, nelec) := v in
  let norb := length hcore in
  obind (if subspace
         then subspace_branch norb nelec ci_strs open_shell
                              subspace_orb subspace_alpha subspace_beta
         else Return ci_strs) (λ ci_strs,
  let '(e_sci, sci_vec) :=
    kernel_fixed_space spin_sq hcore eri norb nelec ci_strs max_davidson in
  let dm1 := make_rdm1s sci_vec norb nelec in
  let avg_occupancy := [diagonal dm1.1; diagonal dm1.2] in
  let spin_squared := spin_square sci_vec norb nelec in
  let shape := (length (sv_amplitudes sci_vec), shape1 (sv_amplitudes sci_vec)) in
  if decide (shape = (length (sv_strs sci_vec).1, length (sv_strs sci_vec).2))
  then
    obind (lift_result (new_SCIState (sv_amplitudes sci_vec)
                          (sv_strs sci_vec).1 (sv_strs sci_vec).2))
          (λ sci_state,
    Return (e_sci, sci_state, avg_occupancy, spin_squared))
  else Throw (CoreError AssertionError))).

End Subspace.

(** The binomial coefficient, by Pascal's rule. *)
Fixpoint binomial (n k : nat) : nat :=
  match n, k with
  | _, O => 1
  | O, S _ => 0
  | S n', S k' => binomial n' k' + binomial n' k
  end.

End Subspace.

(** * Properties *)

(** ** np.unique, np.union1d and np.sort *)

Module CodecFacts.
Import Codec.
Local Open Scope Z_scope.

Lemma elem_of_insert_unique x y l :
  y ∈ insert_unique x l ↔ y = x ∨ y ∈ l.
Proof.
  induction l as [|z l IH]; simpl.
  - rewrite list_elem_of_singleton, elem_of_nil. tauto.
  - destruct (Z.ltb_spec x z); [by rewrite elem_of_cons|].
    destruct (Z.eqb_spec x z) as [->|Hne].
    + rewrite elem_of_cons. tauto.
    + rewrite !elem_of_cons, IH. tauto.
Qed.

Lemma insert_unique_increasing x l :
  increasing l → increasing (insert_unique x l).
Proof.
  unfold increasing. induction 1 as [|z l Hl IH Hz]; simpl.
  - repeat constructor.
  - destruct (Z.ltb_spec x z) as [Hlt|Hge].
    + constructor; [by constructor|].
      constructor; [done|]. eapply Forall_impl; [exact Hz|]. simpl. lia.
    + destruct (Z.eqb_spec x z) as [->|Hne]; [by constructor|].
      constructor; [done|].
      apply Forall_forall. intros y Hy.
      apply elem_of_insert_unique in Hy as [->|Hy]; [lia|].
      by eapply Forall_forall in Hz.
Qed.

Lemma elem_of_np_unique x l : x ∈ np_unique l ↔ x ∈ l.
Proof.
  induction l as [|y l IH]; simpl; [done|].
  by rewrite elem_of_insert_unique, IH, elem_of_cons.
Qed.

Lemma np_unique_increasing l : increasing (np_unique l).
Proof.
  induction l as [|y l IH]; simpl.
  - constructor.
  - by apply insert_unique_increasing.
Qed.

Lemma elem_of_np_union1d x a b : x ∈ np_union1d a b ↔ x ∈ a ∨ x ∈ b.
Proof. unfold np_union1d. by rewrite elem_of_np_unique, elem_of_app. Qed.

Lemma insert_sorted_increasing x l :
  increasing (x :: l) → insert_sorted x l = x :: l.
Proof.
  destruct l as [|y l]; simpl; [done|].
  intros Hs. inversion Hs as [|?? _ Hx]; subst.
  inversion Hx; subst. destruct (Z.leb_spec x y); [done|lia].
Qed.

(** Sorting what [np.unique] returned changes nothing. *)
Lemma np_sort_increasing l : increasing l → np_sort l = l.
Proof.
  induction 1 as [|x l Hl IH Hx]; simpl; [done|].
  rewrite IH. apply insert_sorted_increasing. by constructor.
Qed.

Lemma np_sort_np_unique l : np_sort (np_unique l) = np_unique l.
Proof. apply np_sort_increasing, np_unique_increasing. Qed.

(** An increasing list is determined by its elements. *)
Lemma increasing_ext (l1 l2 : list Z) :
  increasing l1 → increasing l2 → (∀ x, x ∈ l1 ↔ x ∈ l2) → l1 = l2.
Proof.
  intros H1. revert l2. induction H1 as [|x l1 Hl1 IH Hx]; intros l2 H2 Heq.
  - destruct l2 as [|y l2]; [done|].
    pose proof (proj2 (Heq y) ltac:(left)) as Hy. by apply elem_of_nil in Hy.
  - destruct H2 as [|y l2 Hl2 Hy].
    + pose proof (proj1 (Heq x) ltac:(left)) as Hx'. by apply elem_of_nil in Hx'.
    + assert (x = y) as ->.
      { pose proof (proj1 (Heq x) ltac:(left)) as Hxy.
        pose proof (proj2 (Heq y) ltac:(left)) as Hyx.
        apply elem_of_cons in Hxy as [?|Hxy]; [done|].
        apply elem_of_cons in Hyx as [?|Hyx]; [done|].
        rewrite Forall_forall in Hx, Hy.
        specialize (Hx _ Hyx). specialize (Hy _ Hxy). lia. }
      f_equal. apply IH; [done|]. intros z. split; intros Hz.
      * pose proof (proj1 (Heq z) ltac:(by right)) as Hz'.
        apply elem_of_cons in Hz' as [->|]; [|done].
        rewrite Forall_forall in Hx. specialize (Hx _ Hz). lia.
      * pose proof (proj2 (Heq z) ltac:(by right)) as Hz'.
        apply elem_of_cons in Hz' as [->|]; [|done].
        rewrite Forall_forall in Hy. specialize (Hy _ Hz). lia.
Qed.

(** ** bitstring_matrix_to_ci_strs: the two sectors *)

(** C8: with [open_shell] false both sectors are one array, the sorted union
    of the unique left-half and the unique right-half determinants; with
    [open_shell] true the sorted unique arrays of the right and of the left
    half are returned separately. *)
Theorem bitstring_matrix_to_ci_strs_sectors (m : bitstring_matrix) :
  (∃ u,
      bitstring_matrix_to_ci_strs m false = (u, u)
      ∧ u = np_union1d (np_unique (ci_str_left m)) (np_unique (ci_str_right m))
      ∧ increasing u
      ∧ ∀ x, x ∈ u ↔ x ∈ ci_str_left m ∨ x ∈ ci_str_right m)
  ∧ (∃ r l,
      bitstring_matrix_to_ci_strs m true = (r, l)
      ∧ r = np_unique (ci_str_right m) ∧ l = np_unique (ci_str_left m)
      ∧ increasing r ∧ increasing l
      ∧ (∀ x, x ∈ r ↔ x ∈ ci_str_right m)
      ∧ (∀ x, x ∈ l ↔ x ∈ ci_str_left m)).
Proof.
  split.
  - eexists. split; [reflexivity|]. split; [reflexivity|]. split.
    + apply np_unique_increasing.
    + intros x. by rewrite elem_of_np_union1d, !elem_of_np_unique.
  - do 2 eexists. split; [reflexivity|]. do 2 (split; [reflexivity|]).
    split; [apply np_unique_increasing|]. split; [apply np_unique_increasing|].
    split; intros x; apply elem_of_np_unique.
Qed.

(** ** Hamming weight *)

Lemma count_char_append c s1 s2 :
  count_char c (String.append s1 s2) = (count_char c s1 + count_char c s2)%nat.
Proof. induction s1 as [|c' s1 IH]; simpl; [done|]. rewrite IH. lia. Qed.

Lemma count_bin_digits p : count_char "1" (bin_digits p) = popcount p.
Proof.
  induction p as [p IH|p IH|]; simpl; [| |done];
    rewrite count_char_append, IH; simpl; lia.
Qed.

(** [format(addr, "b").count("1")] is the population count of [|addr|]. *)
Lemma hamming_popcountZ addr : hamming addr = popcountZ addr.
Proof. destruct addr; [done| |]; apply count_bin_digits. Qed.

(** ** _check_ci_strs *)

Example check_ci_strs_examples :
  _check_ci_strs ([4; 1; 2; 1], [3; 5]) = Ok ([1; 2; 4], [3; 5])
  ∧ _check_ci_strs ([1; 2; 3], [3; 5]) = Raise (ValueError_hamming Up 1 2 2)
  ∧ _check_ci_strs ([1; 2], [3; 5; 7]) = Raise (ValueError_hamming Dn 2 2 3)
  ∧ _check_ci_strs ([], [3; 5]) = Raise IndexError.
Proof. by vm_compute. Qed.

Lemma check_sector_spec s ham0 i addrs :
  (check_sector s ham0 i addrs = Ok tt
   ∧ Forall (λ a, popcountZ a = ham0) addrs)
  ∨ (∃ j a, addrs !! j = Some a ∧ popcountZ a ≠ ham0
       ∧ check_sector s ham0 i addrs
         = Raise (ValueError_hamming s ham0 (i + j) (popcountZ a))).
Proof.
  revert i. induction addrs as [|a addrs IH]; intros i; simpl.
  - left. by split.
  - rewrite hamming_popcountZ.
    destruct (Nat.eqb_spec (popcountZ a) ham0) as [Heq|Hne]; simpl.
    + destruct (IH (S i)) as [[-> Hall]|(j & b & Hj & Hb & ->)].
      * left. split; [done|]. by constructor.
      * right. exists (S j), b. repeat split; [done..|].
        do 2 f_equal. lia.
    + right. exists 0%nat, a. repeat split; [done..|].
      do 2 f_equal. lia.
Qed.

Lemma uniform_Forall a addrs :
  uniform (a :: addrs) ↔ Forall (λ b, popcountZ b = popcountZ a) (a :: addrs).
Proof.
  rewrite Forall_forall. split.
  - intros Hu b Hb. apply Hu; [done|]. by left.
  - intros Hall b c Hb Hc. by rewrite (Hall b), (Hall c).
Qed.

(** C3: on two non-empty determinant arrays, [_check_ci_strs] raises its
    Hamming-weight [ValueError] exactly when some sector holds two
    determinants of different population counts; the error names the
    population count of the sector's first element and that of the offending
    element; and when both sectors are uniform the pair is returned, sorted
    and free of duplicates. *)
Theorem check_ci_strs_uniform (up dn : list Z) :
  up ≠ [] → dn ≠ [] →
  (is_hamming_error (_check_ci_strs (up, dn))
   ↔ ∃ s a b, a ∈ sector_of s (up, dn) ∧ b ∈ sector_of s (up, dn)
              ∧ popcountZ a ≠ popcountZ b)
  ∧ (∀ s ham0 i ham,
       _check_ci_strs (up, dn) = Raise (ValueError_hamming s ham0 i ham) →
       popcountZ <$> sector_of s (up, dn) !! 0%nat = Some ham0
       ∧ popcountZ <$> sector_of s (up, dn) !! i = Some ham
       ∧ ham ≠ ham0)
  ∧ (uniform up → uniform dn →
     _check_ci_strs (up, dn) = Ok (np_unique up, np_unique dn)
     ∧ increasing (np_unique up) ∧ increasing (np_unique dn)).
Proof.
  intros Hup Hdn.
  destruct up as [|u0 up]; [done|]. destruct dn as [|d0 dn]; [done|].
  unfold _check_ci_strs. cbn [lookup list_lookup].
  rewrite !hamming_popcountZ.
  destruct (check_sector_spec Up (popcountZ u0) 0 (u0 :: up))
    as [[-> Hu]|(j & a & Hj & Ha & ->)]; cbn [rbind].
  - destruct (check_sector_spec Dn (popcountZ d0) 0 (d0 :: dn))
      as [[-> Hd]|(j & a & Hj & Ha & ->)]; cbn [rbind].
    + apply uniform_Forall in Hu, Hd. rewrite !np_sort_np_unique.
      split; [|split].
      * split; [by intros (? & ? & ? & ? & ?)|].
        intros (s & a & b & Ha & Hb & Hab). destruct s; simpl in *.
        -- by specialize (Hu _ _ Ha Hb).
        -- by specialize (Hd _ _ Ha Hb).
      * intros ???? [=].
      * intros _ _. split; [done|]. split; apply np_unique_increasing.
    + split; [|split].
      * split; [|intros _; by repeat eexists].
        intros _. exists Dn, a, d0. simpl. split; [|split; [by left|done]].
        by eapply list_elem_of_lookup_2.
      * intros ???? [= <- <- <- <-]. simpl. by rewrite Hj.
      * intros _ Hd. apply uniform_Forall in Hd.
        rewrite Forall_forall in Hd. destruct Ha. apply Hd.
        by eapply list_elem_of_lookup_2.
  - split; [|split].
    + split; [|intros _; by repeat eexists].
      intros _. exists Up, a, u0. simpl. split; [|split; [by left|done]].
      by eapply list_elem_of_lookup_2.
    + intros ???? [= <- <- <- <-]. simpl. by rewrite Hj.
    + intros Hu _. apply uniform_Forall in Hu.
      rewrite Forall_forall in Hu. destruct Ha. apply Hu.
      by eapply list_elem_of_lookup_2.
Qed.

(** ** The float64 accumulator *)

(** Rounding to 53 significant bits, ties to even. *)
Example f64_round_examples :
  f64_round (2 ^ 53 - 1) = 2 ^ 53 - 1
  ∧ f64_round (2 ^ 53 + 1) = 2 ^ 53
  ∧ f64_round (2 ^ 53 + 2) = 2 ^ 53 + 2
  ∧ f64_round (2 ^ 53 + 3) = 2 ^ 53 + 4
  ∧ f64_round (2 ^ 54 + 2) = 2 ^ 54
  ∧ f64_round (2 ^ 54 + 3) = 2 ^ 54 + 4
  ∧ f64_round (2 ^ 54 + 6) = 2 ^ 54 + 8
  ∧ f64_round (2 ^ 54 - 1) = 2 ^ 54.
Proof. by vm_compute. Qed.

Lemma f64_round_exact z : 0 ≤ z < 2 ^ 53 → f64_round z = z.
Proof.
  intros [Hz0 Hz]. unfold f64_round.
  destruct (Z.leb_spec (Z.log2 z - 52) 0) as [|Hlog]; [done|].
  exfalso. assert (0 < z) as Hpos.
  { destruct (Z.eq_dec z 0) as [->|]; [|lia]. by compute in Hlog. }
  pose proof (Z.log2_spec z Hpos) as [Hlo _].
  assert (2 ^ 53 ≤ 2 ^ Z.log2 z) by (apply Z.pow_le_mono_r; lia). lia.
Qed.

Lemma astype_longlong_exact z : 0 ≤ z < 2 ^ 53 → astype_longlong z = z.
Proof.
  intros [Hz0 Hz]. unfold astype_longlong.
  assert (2 ^ 53 < 2 ^ 63) by (by compute).
  destruct (Z.leb_spec (- 2 ^ 63) z); [|lia].
  destruct (Z.ltb_spec z (2 ^ 63)); [done|lia].
Qed.

Lemma big_endian_bound bits : 0 ≤ big_endian bits < 2 ^ Z.of_nat (length bits).
Proof.
  induction bits as [|b bits IH]; simpl length; [by compute|].
  cbn [big_endian]. rewrite Nat2Z.inj_succ, Z.pow_succ_r by lia.
  assert (0 < 2 ^ Z.of_nat (length bits)) by (apply Z.pow_pos_nonneg; lia).
  destruct b; simpl b2z; lia.
Qed.

Lemma big_endian_snoc bits b :
  big_endian (bits ++ [b]) = 2 * big_endian bits + b2z b.
Proof.
  induction bits as [|a bits IH]; simpl app; cbn [big_endian].
  - simpl. lia.
  - rewrite IH, length_app. simpl length.
    replace (Z.of_nat (length bits + 1)) with (Z.succ (Z.of_nat (length bits)))
      by lia.
    rewrite Z.pow_succ_r by lia. lia.
Qed.

(** After [k] columns the accumulator holds the big-endian value of the first
    [k] bits, shifted to the top of the [norb]-bit word: no rounding occurs
    as long as the word fits the 53-bit significand. *)
Lemma accumulator_prefix (norb : nat) (half : list bool) (k : nat) :
  (norb ≤ 53)%nat → (k ≤ norb)%nat → (k ≤ length half)%nat →
  foldl (λ acc i,
           f64_add acc (b2z (default false (half !! i))
                        * 2 ^ Z.of_nat (norb - 1 - i)))
        0 (seq 0 k)
  = big_endian (take k half) * 2 ^ Z.of_nat (norb - k).
Proof.
  intros Hnorb. induction k as [|k IH]; intros Hk Hlen.
  - by rewrite take_0.
  - rewrite seq_S, foldl_app, IH by lia. cbn [foldl Nat.add].
    destruct (lookup_lt_is_Some_2 half k ltac:(lia)) as [b Hb].
    rewrite (take_S_r _ _ _ Hb), big_endian_snoc, Hb. simpl default.
    replace (norb - k)%nat with (S (norb - S k)) by lia.
    replace (norb - 1 - k)%nat with (norb - S k)%nat by lia.
    rewrite Nat2Z.inj_succ, Z.pow_succ_r by lia.
    unfold f64_add.
    replace (big_endian (take k half) * (2 * 2 ^ Z.of_nat (norb - S k))
             + b2z b * 2 ^ Z.of_nat (norb - S k))
      with ((2 * big_endian (take k half) + b2z b) * 2 ^ Z.of_nat (norb - S k))
      by lia.
    apply f64_round_exact.
    pose proof (big_endian_bound (take k half ++ [b])) as Hbound.
    rewrite big_endian_snoc, length_app, length_take in Hbound.
    simpl length in Hbound.
    replace (k `min` length half + 1)%nat with (S k) in Hbound by lia.
    assert (0 < 2 ^ Z.of_nat (norb - S k)) by (apply Z.pow_pos_nonneg; lia).
    split; [apply Z.mul_nonneg_nonneg; lia|].
    apply Z.lt_le_trans with (2 ^ Z.of_nat (S k) * 2 ^ Z.of_nat (norb - S k)).
    + apply Z.mul_lt_mono_pos_r; lia.
    + rewrite <- Z.pow_add_r by lia. apply Z.pow_le_mono_r; lia.
Qed.

(** Up to 53 orbitals the code computes the big-endian weighted sum. *)
Lemma encode_half_big_endian (norb : nat) (half : list bool) :
  (norb ≤ 53)%nat → (norb ≤ length half)%nat →
  encode_half norb half = big_endian (take norb half).
Proof.
  intros Hnorb Hlen. unfold encode_half.
  rewrite accumulator_prefix, Nat.sub_diag, Z.mul_1_r by lia.
  apply astype_longlong_exact.
  pose proof (big_endian_bound (take norb half)) as Hb.
  rewrite length_take in Hb.
  assert (2 ^ Z.of_nat (norb `min` length half) ≤ 2 ^ 53)
    by (apply Z.pow_le_mono_r; lia).
  lia.
Qed.

(** ** Decoding *)

Lemma testbit_top (b : bool) (n : nat) (r : Z) :
  0 ≤ r < 2 ^ Z.of_nat n →
  Z.testbit (b2z b * 2 ^ Z.of_nat n + r) (Z.of_nat n) = b.
Proof.
  intros Hr. rewrite Z.testbit_odd, Z.shiftr_div_pow2 by lia.
  rewrite Z.div_add_l by lia. rewrite Z.div_small by done.
  by destruct b.
Qed.

Lemma testbit_below (b : bool) (n i : nat) (r : Z) :
  (i < n)%nat →
  Z.testbit (b2z b * 2 ^ Z.of_nat n + r) (Z.of_nat i) = Z.testbit r (Z.of_nat i).
Proof.
  intros Hi. destruct b; simpl b2z; [|by rewrite Z.add_0_l].
  rewrite Z.mul_1_l.
  replace (Z.of_nat n) with (Z.of_nat i + Z.of_nat (n - i)) by lia.
  rewrite Z.pow_add_r, Z.mul_comm, Z.add_comm by lia.
  rewrite !Z.testbit_odd, !Z.shiftr_div_pow2 by lia.
  rewrite Z.div_add by lia.
  replace (Z.of_nat (n - i)) with (Z.succ (Z.of_nat (n - i - 1))) by lia.
  rewrite Z.pow_succ_r, Z.odd_add_mul_2 by lia. done.
Qed.

(** The round trip of the big-endian map on [w] bits. *)
Lemma decode_big_endian (bits : list bool) :
  decode (length bits) (big_endian bits) = bits.
Proof.
  induction bits as [|b bits IH]; [done|].
  unfold decode. cbn [length]. rewrite <- cons_seq. cbn [map big_endian].
  f_equal.
  - replace (S (length bits) - 1 - 0)%nat with (length bits) by lia.
    apply testbit_top, big_endian_bound.
  - rewrite <- IH at 2. unfold decode. rewrite <- seq_shift, map_map.
    apply map_ext_in. intros c Hc%in_seq.
    replace (S (length bits) - 1 - S c)%nat with (length bits - 1 - c)%nat
      by lia.
    apply testbit_below. lia.
Qed.

(** ** The column-wise loop, row by row *)

Lemma zip_with_zip_with_l {A B C} (h : C → B → C) (k : A → B → C)
    (l1 : list A) (l2 : list B) :
  zip_with h (zip_with k l1 l2) l2 = zip_with (λ a b, h (k a b) b) l1 l2.
Proof.
  revert l2. induction l1 as [|a l1 IH]; intros [|b l2]; simpl; [done..|].
  by rewrite IH.
Qed.

Lemma accumulate_columns (norb : nat) (bts : list (list bool))
    (cols : list nat) (init : list Z) :
  foldl (λ ci_str i, accumulate_column norb i bts ci_str) init cols
  = zip_with
      (λ acc row,
         foldl (λ acc i,
                  f64_add acc (b2z (default false (row !! i))
                               * 2 ^ Z.of_nat (norb - 1 - i))) acc cols)
      init bts
    ∨ length init ≠ length bts.
Proof.
  destruct (decide (length init = length bts)) as [Hlen|]; [left|by right].
  revert init Hlen. induction cols as [|c cols IH]; intros init Hlen.
  - simpl. revert bts Hlen.
    induction init as [|a init IHi]; intros [|row bts] [=]; simpl; [done|].
    f_equal. by apply IHi.
  - cbn [foldl]. rewrite IH.
    + unfold accumulate_column, column. rewrite zip_with_fmap_r.
      by rewrite zip_with_zip_with_l.
    + unfold accumulate_column, column.
      rewrite length_zip_with, length_map. lia.
Qed.

Lemma accumulate_rows (norb : nat) (bts : list (list bool)) :
  map astype_longlong (accumulate norb bts) = map (encode_half norb) bts.
Proof.
  unfold accumulate.
  destruct (accumulate_columns norb bts (seq 0 norb)
              (replicate (length bts) 0)) as [->|Hlen].
  - unfold encode_half. induction bts as [|row bts IH]; [done|].
    simpl. by rewrite IH.
  - by rewrite length_replicate in Hlen.
Qed.

(** X1: the determinants of a matrix with at most 53 orbitals per half: each
    is the big-endian value of its half-row, and decodes back to it. *)
Lemma ci_str_big_endian (m : bitstring_matrix) :
  bm_wf m → (bm_shape1 m / 2 ≤ 53)%nat →
  let norb := (bm_shape1 m / 2)%nat in
  ci_str_left m = map (λ row, big_endian (take norb row)) (bm_rows m)
  ∧ ci_str_right m
    = map (λ row, big_endian (take norb (drop norb row))) (bm_rows m)
  ∧ Forall (λ row,
        decode norb (big_endian (take norb row)) = take norb row
        ∧ decode norb (big_endian (take norb (drop norb row)))
          = take norb (drop norb row))
      (bm_rows m).
Proof.
  intros Hwf Hnorb norb.
  pose proof (Nat.div_mod_eq (bm_shape1 m) 2) as Hdiv. fold norb in Hdiv.
  unfold ci_str_left, ci_str_right. fold norb. rewrite !accumulate_rows.
  rewrite !map_map. unfold bm_wf in Hwf. rewrite Forall_forall in Hwf.
  split; [|split].
  - apply map_ext_in. intros row Hrow%list_elem_of_In%Hwf.
    rewrite encode_half_big_endian; [|done|rewrite length_take; lia].
    by rewrite take_take, Nat.min_id.
  - apply map_ext_in. intros row Hrow%list_elem_of_In%Hwf.
    apply encode_half_big_endian; [done|rewrite length_drop; lia].
  - apply Forall_forall. intros row Hrow%Hwf. split.
    + rewrite <- (decode_big_endian (take norb row)) at 2.
      f_equal. rewrite length_take. lia.
    + rewrite <- (decode_big_endian (take norb (drop norb row))) at 2.
      f_equal. rewrite length_take, length_drop. lia.
Qed.

(** C2: at 54 orbitals the float64 accumulator rounds.  The half-row
    [1 0 ... 0 1] has the big-endian value [2^53 + 1]; the code returns
    [2^53], which decodes to [1 0 ... 0 0], the determinant of another row. *)
Theorem encode_half_rounds_at_54 :
  let half := [true] ++ replicate 52 false ++ [true] in
  let other := [true] ++ replicate 53 false in
  let m := BitstringMatrix [half ++ replicate 54 false] 108 in
  bm_wf m
  ∧ big_endian half = 2 ^ 53 + 1
  ∧ ci_str_left m = [2 ^ 53]
  ∧ bitstring_matrix_to_ci_strs m true = ([0], [2 ^ 53])
  ∧ decode 54 (2 ^ 53) = other
  ∧ other ≠ half
  ∧ encode_half 54 other = encode_half 54 half.
Proof.
  cbv zeta. split; [by repeat constructor|].
  split; [by vm_compute|]. split; [by vm_compute|]. split; [by vm_compute|].
  split; [by vm_compute|]. split; [|by vm_compute].
  intros Heq. apply (f_equal (λ l, l !! 53%nat)) in Heq.
  vm_compute in Heq. discriminate.
Qed.

(** Witness of [ci_str_big_endian]: the rows [1001] and [0110]. *)
Lemma ci_str_big_endian_witness :
  let m := BitstringMatrix [[true; false; false; true];
                            [false; true; true; false]] 4 in
  (bm_wf m ∧ (bm_shape1 m / 2 ≤ 53)%nat)
  ∧ ci_str_left m = [2; 1] ∧ ci_str_right m = [1; 2]
  ∧ bitstring_matrix_to_ci_strs m false = ([1; 2], [1; 2]).
Proof.
  cbv zeta.
  assert (bm_wf (BitstringMatrix [[true; false; false; true];
                                  [false; true; true; false]] 4)) as Hwf
    by (by repeat constructor).
  split; [split; [exact Hwf|simpl; lia]|].
  destruct (ci_str_big_endian _ Hwf) as (-> & -> & _); [simpl; lia|].
  unfold bitstring_matrix_to_ci_strs.
  destruct (ci_str_big_endian _ Hwf) as (Hl & Hr & _); [simpl; lia|].
  unfold ci_str_left, ci_str_right in Hl, Hr. cbv zeta in Hl, Hr.
  rewrite Hl, Hr. by vm_compute.
Defined.

(** Witness of [check_ci_strs_uniform]: sectors of weight one and two. *)
Lemma check_ci_strs_uniform_witness :
  ([1; 2; 4] ≠ [] ∧ [3; 5] ≠ [])
  ∧ _check_ci_strs ([1; 2; 4], [3; 5]) = Ok ([1; 2; 4], [3; 5])
  ∧ is_hamming_error (_check_ci_strs ([1; 2; 4], [3; 7])).
Proof.
  split; [by split|]. split.
  - destruct (check_ci_strs_uniform [1; 2; 4] [3; 5]) as (_ & _ & Hok);
      [done..|].
    apply Hok; apply uniform_Forall; by repeat constructor.
  - destruct (check_ci_strs_uniform [1; 2; 4] [3; 7]) as (Herr & _);
      [done..|].
    apply Herr. exists Dn, 3, 7. simpl.
    split; [by left|]. split; [by right; left|done].
Defined.

End CodecFacts.

(** ** ExcitationExpander *)

Module ExpanderFacts.
Import Expander.

Lemma bts_ret_new_occupation bts diag create annihilate :
  (_apply_excitation_single bts diag create annihilate).1
  = new_occupation bts diag.
Proof.
  unfold _apply_excitation_single, new_occupation, eq_elementwise. simpl.
  apply zip_with_ext; [|done..]. by intros [] [].
Qed.

Lemma create_crit_spec bts diag create :
  length diag = length bts → length create = length bts →
  jnp_all (logical_or diag
             (eq_elementwise (replicate (length diag) false)
                             (logical_and bts create))) = true
  ↔ ∀ p, create !! p = Some true → diag !! p = Some false →
         bts !! p = Some false.
Proof.
  revert diag create.
  induction bts as [|b bts IH]; intros [|d diag] [|c create] [=] [=];
    [by split|].
  unfold jnp_all, logical_or, eq_elementwise, logical_and in *.
  cbn [length replicate zip_with forallb id].
  rewrite andb_true_iff, IH by done. split.
  - intros [Hhd Htl] [|p]; simpl; [|by apply Htl].
    intros [= ->] [= ->]. by destruct b.
  - intros Hall. split.
    + specialize (Hall 0%nat). simpl in Hall.
      destruct d; [done|]. destruct c; [|by destruct b].
      by injection (Hall eq_refl eq_refl) as ->.
    + intros p. apply (Hall (S p)).
Qed.

Lemma annihilate_crit_spec bts (n : nat) annihilate :
  n = length bts → length annihilate = length bts →
  jnp_all (eq_elementwise (replicate n false)
             (logical_and (eq_elementwise (replicate n false) bts)
                          annihilate)) = true
  ↔ ∀ p, annihilate !! p = Some true → bts !! p = Some true.
Proof.
  revert n annihilate.
  induction bts as [|b bts IH]; intros [|n] [|a annihilate] [=] [=];
    [by split|].
  unfold jnp_all, eq_elementwise, logical_and in *.
  cbn [length replicate zip_with forallb id].
  rewrite andb_true_iff, IH by done. split.
  - intros [Hhd Htl] [|p]; simpl; [|by apply Htl].
    intros [= ->]. by destruct b.
  - intros Hall. split.
    + specialize (Hall 0%nat). simpl in Hall.
      destruct a; [|by destruct b]. by injection (Hall eq_refl) as ->.
    + intros p. apply (Hall (S p)).
Qed.

Lemma include_crit_survives bts diag create annihilate :
  length diag = length bts → length create = length bts →
  length annihilate = length bts →
  (_apply_excitation_single bts diag create annihilate).2 = true
  ↔ survives bts diag create annihilate.
Proof.
  intros Hd Hc Ha. unfold _apply_excitation_single, survives. cbn [snd].
  rewrite andb_true_iff, create_crit_spec by done.
  by rewrite annihilate_crit_spec by done.
Qed.

(** Two configurations against three operators: the rows come out
    operator by operator. *)
Example enlarge_batch_example :
  enlarge_batch_from_transitions
    [[true; false]; [false; true]]
    [["I"; "I"]; ["-"; "+"]; ["n"; "+"]]%char
  = [[true; false]; [false; true]; [false; true]; [true; true]].
Proof. by vm_compute. Qed.

(** *** The cross product *)

Lemma zip_with_map_map {A B C D} (h : B → C → D) (f : A → B) (g : A → C)
    (l : list A) :
  zip_with h (map f l) (map g l) = map (λ x, h (f x) (g x)) l.
Proof. induction l as [|x l IH]; simpl; [done|]. by rewrite IH. Qed.

Lemma transition_masks (ops : list (list ascii)) :
  _transition_str_to_bool ops
  = (map op_diag ops, map op_create ops, map op_annihilate ops).
Proof.
  unfold _transition_str_to_bool, op_diag, op_create, op_annihilate.
  rewrite !zip_with_map_map.
  f_equal; [f_equal|]; apply map_ext; intros op; apply zip_with_map_map.
Qed.

Lemma enlarge_batch_expand_op (bm : list (list bool)) (ops : list (list ascii)) :
  enlarge_batch_from_transitions bm ops = concat (map (expand_op bm) ops).
Proof.
  unfold enlarge_batch_from_transitions. rewrite transition_masks.
  unfold apply_excitations, mask_select.
  change (zip ?a ?b) with (zip_with pair a b).
  rewrite (zip_with_map_map pair), (zip_with_map_map _ op_diag).
  cbn [fst snd].
  change (?f <$> ?l) with (map f l). rewrite zip_with_map_map, map_map.
  f_equal. apply map_ext. intros op.
  unfold expand_op, _apply_excitation. cbn [fst snd].
  change (?f <$> ?l) with (map f l). do 2 f_equal.
  rewrite (zip_with_map_map pair). rewrite <- (map_id (map _ bm)) at 2.
  apply map_ext. by intros [].
Qed.

Lemma elem_of_concat_map {A B} (f : A → list B) (l : list A) (y : B) :
  y ∈ concat (map f l) ↔ ∃ x, x ∈ l ∧ y ∈ f x.
Proof.
  induction l as [|x l IH]; simpl.
  - split; [by intros ?%elem_of_nil|]. by intros (? & ?%elem_of_nil & _).
  - rewrite elem_of_app, IH. split.
    + intros [Hy|(x' & Hx' & Hy)]; [exists x|exists x'];
        (split; [|done]); [by left|by right].
    + intros (x' & [->|Hx']%elem_of_cons & Hy); [by left|].
      right. by exists x'.
Qed.

Lemma elem_of_expand_op (bm : list (list bool)) (op : list ascii)
    (row : list bool) :
  row ∈ expand_op bm op
  ↔ ∃ bts, bts ∈ bm
      ∧ _apply_excitation_single bts (op_diag op) (op_create op)
                                 (op_annihilate op) = (row, true).
Proof.
  unfold expand_op. rewrite list_elem_of_fmap. split.
  - intros ([row' keep] & -> & [Hkeep Hin]%list_elem_of_filter).
    apply list_elem_of_fmap in Hin as (bts & Heq & Hbts).
    simpl in Hkeep. subst keep. by exists bts.
  - intros (bts & Hbts & Heq). exists (row, true). split; [done|].
    apply list_elem_of_filter. split; [done|].
    apply list_elem_of_fmap. by exists bts.
Qed.

(** C4: an (operator, configuration) pair of the cross product is kept
    exactly when every position marked [create] but not [diag] is unoccupied
    and every position marked [annihilate] is occupied; its output row is the
    original bit where [diag] is set and the flipped bit elsewhere; and the
    rows of the expander's output are the output rows of the kept pairs. *)
Theorem excitation_pair_survives (w : nat) (bm : list (list bool))
    (ops : list (list ascii)) :
  Forall (λ bts, length bts = w) bm →
  Forall (λ op, length op = w) ops →
  (∀ bts op, bts ∈ bm → op ∈ ops →
     (_apply_excitation_single bts (op_diag op) (op_create op)
                               (op_annihilate op)).1
     = new_occupation bts (op_diag op)
     ∧ ((_apply_excitation_single bts (op_diag op) (op_create op)
                                  (op_annihilate op)).2 = true
        ↔ survives bts (op_diag op) (op_create op) (op_annihilate op)))
  ∧ (∀ row, row ∈ enlarge_batch_from_transitions bm ops
       ↔ ∃ bts op, bts ∈ bm ∧ op ∈ ops
           ∧ survives bts (op_diag op) (op_create op) (op_annihilate op)
           ∧ row = new_occupation bts (op_diag op)).
Proof.
  intros Hbm Hops. rewrite Forall_forall in Hbm. rewrite Forall_forall in Hops.
  assert (∀ bts op, bts ∈ bm → op ∈ ops →
     (_apply_excitation_single bts (op_diag op) (op_create op)
                               (op_annihilate op)).1
     = new_occupation bts (op_diag op)
     ∧ ((_apply_excitation_single bts (op_diag op) (op_create op)
                                  (op_annihilate op)).2 = true
        ↔ survives bts (op_diag op) (op_create op) (op_annihilate op)))
    as Hpair.
  { intros bts op Hbts%Hbm Hop%Hops. split.
    - apply bts_ret_new_occupation.
    - apply include_crit_survives;
        unfold op_diag, op_create, op_annihilate; rewrite length_map; lia. }
  split; [exact Hpair|].
  intros row. rewrite enlarge_batch_expand_op, elem_of_concat_map. split.
  - intros (op & Hop & (bts & Hbts & Heq)%elem_of_expand_op).
    destruct (Hpair bts op Hbts Hop) as [Hrow Hkeep].
    rewrite Heq in Hrow, Hkeep. exists bts, op.
    repeat split; [done..|by apply Hkeep|by apply Hkeep|done].
  - intros (bts & op & Hbts & Hop & Hsurv & ->). exists op. split; [done|].
    apply elem_of_expand_op. exists bts. split; [done|].
    destruct (Hpair bts op Hbts Hop) as [Hrow Hkeep].
    apply Hkeep in Hsurv.
    destruct (_apply_excitation_single _ _ _ _) as [r k]. simpl in *.
    by subst.
Qed.

(** Witness of [excitation_pair_survives]: ["-+"] moves the electron of
    [10] to give [01]. *)
Lemma excitation_pair_survives_witness :
  (Forall (λ bts, length bts = 2) [[true; false]]
   ∧ Forall (λ op : list ascii, length op = 2) [["-"; "+"]%char])
  ∧ [false; true]
    ∈ enlarge_batch_from_transitions [[true; false]] [["-"; "+"]%char].
Proof.
  assert (Forall (λ bts : list bool, length bts = 2) [[true; false]]) as Hbm
    by (by repeat constructor).
  assert (Forall (λ op : list ascii, length op = 2) [["-"; "+"]%char]) as Hops
    by (by repeat constructor).
  split; [by split|].
  apply (proj2 (excitation_pair_survives 2 _ _ Hbm Hops)).
  exists [true; false], ["-"; "+"]%char.
  split; [by left|]. split; [by left|]. split; [|reflexivity].
  split; intros [|[|p]]; simpl; done.
Defined.

End ExpanderFacts.

(** ** Arrays of scalars *)

Module ArrayFacts.
Section ArrayFacts.
Context {R : Type} `{Scalar R}.

Add Ring scalar_ring_inst : scalar_ring.

Lemma length_tabulate {A} n (f : nat → A) : length (tabulate n f) = n.
Proof. unfold tabulate. by rewrite length_map, length_seq. Qed.

Lemma lookup_tabulate {A} n (f : nat → A) i :
  i < n → tabulate n f !! i = Some (f i).
Proof.
  intros Hi. unfold tabulate.
  change (map f (seq 0 n)) with (f <$> seq 0 n).
  by rewrite list_lookup_fmap, lookup_seq_lt.
Qed.

(** A list is the table of its entries. *)
Lemma tabulate_lookup {A} n (f : nat → A) (l : list A) :
  length l = n → (∀ i x, l !! i = Some x → f i = x) → tabulate n f = l.
Proof.
  intros Hlen Hl. apply list_eq. intros i.
  destruct (decide (i < n)) as [Hi|Hi].
  - rewrite lookup_tabulate by done.
    destruct (lookup_lt_is_Some_2 l i ltac:(lia)) as [x Hx].
    rewrite Hx. f_equal. by apply Hl.
  - rewrite !lookup_ge_None_2; [done|lia|rewrite length_tabulate; lia].
Qed.

Lemma mget_mtab n m (f : nat → nat → R) i j :
  i < n → j < m → mget (mtab n m f) i j = f i j.
Proof.
  intros Hi Hj. unfold mget, mtab.
  rewrite lookup_tabulate by done. simpl.
  by rewrite lookup_tabulate by done.
Qed.

Lemma mtab_mget n m (M : list (list R)) :
  is_matrix n m M → mtab n m (mget M) = M.
Proof.
  intros [Hn Hm]. unfold mtab. apply tabulate_lookup; [done|].
  intros i row Hrow. apply tabulate_lookup.
  - rewrite Forall_forall in Hm. apply Hm. by eapply list_elem_of_lookup_2.
  - intros j x Hx. unfold mget. rewrite Hrow. simpl. by rewrite Hx.
Qed.

Lemma t4tab_t4get n (T : list (list (list (list R)))) :
  is_tensor4 n T → t4tab n n n n (t4get T) = T.
Proof.
  intros [Hn HT]. rewrite Forall_forall in HT.
  unfold t4tab. apply tabulate_lookup; [done|].
  intros p a Ha. destruct (HT a) as [Hla HTa];
    [by eapply list_elem_of_lookup_2|].
  rewrite Forall_forall in HTa. apply tabulate_lookup; [done|].
  intros q b Hb. destruct (HTa b) as [Hlb HTb];
    [by eapply list_elem_of_lookup_2|].
  rewrite Forall_forall in HTb. apply tabulate_lookup; [done|].
  intros r c Hc. apply tabulate_lookup.
  - apply HTb. by eapply list_elem_of_lookup_2.
  - intros s x Hx. unfold t4get. rewrite Ha. simpl. rewrite Hb. simpl.
    rewrite Hc. simpl. by rewrite Hx.
Qed.

(** *** Sums against the Kronecker delta *)

Lemma mget_identity n i j : i < n → j < n → mget (identity n) i j = delta i j.
Proof. intros. unfold identity. by rewrite mget_mtab. Qed.

Lemma length_identity n : length (identity n) = n.
Proof. apply length_tabulate. Qed.

Lemma shape1_identity n : shape1 (identity n) = n.
Proof.
  destruct n as [|n]; [done|]. unfold shape1, identity, mtab, tabulate.
  simpl. by rewrite length_map, length_seq.
Qed.

Lemma sum_list_ext (f g : nat → R) (l : list nat) :
  (∀ k, k ∈ l → f k = g k) →
  foldr (λ i acc, sadd (f i) acc) s0 l = foldr (λ i acc, sadd (g i) acc) s0 l.
Proof.
  induction l as [|k l IH]; intros Hfg; simpl; [done|].
  rewrite Hfg by left. rewrite IH; [done|]. intros k' Hk'. apply Hfg. by right.
Qed.

Lemma sum_list_delta (f : nat → R) (i : nat) (l : list nat) :
  NoDup l →
  foldr (λ k acc, sadd (smul (f k) (delta k i)) acc) s0 l
  = if decide (i ∈ l) then f i else s0.
Proof.
  induction 1 as [|k l Hk Hl IH]; cbn [foldr].
  - by rewrite decide_False by apply not_elem_of_nil.
  - rewrite IH. unfold delta. destruct (decide (k = i)) as [->|Hne].
    + rewrite (decide_True (P := i ∈ i :: l)) by left.
      rewrite decide_False by done. ring.
    + destruct (decide (i ∈ l)) as [Hi|Hi].
      * rewrite decide_True by (by right). ring.
      * rewrite decide_False; [ring|].
        intros [?|?]%elem_of_cons; [by subst|done].
Qed.

Lemma sum_n_ext n (f g : nat → R) :
  (∀ k, k < n → f k = g k) → sum_n n f = sum_n n g.
Proof.
  intros Hfg. apply sum_list_ext. intros k Hk%elem_of_seq. apply Hfg. lia.
Qed.

Lemma sum_n_delta_r n (f : nat → R) i :
  i < n → sum_n n (λ k, smul (f k) (delta k i)) = f i.
Proof.
  intros Hi. unfold sum_n. rewrite sum_list_delta by apply NoDup_seq.
  rewrite decide_True; [done|]. apply elem_of_seq. lia.
Qed.

Lemma sum_n_delta_l n (f : nat → R) i :
  i < n → sum_n n (λ k, smul (delta i k) (f k)) = f i.
Proof.
  intros Hi. rewrite <- (sum_n_delta_r n f i Hi). apply sum_n_ext.
  intros k _. unfold delta.
  destruct (decide (i = k)) as [->|Hne].
  - rewrite decide_True by done. ring.
  - rewrite decide_False by done. ring.
Qed.

(** *** Products with the identity *)

Lemma transpose_identity n : transpose (identity n) = identity n.
Proof.
  unfold transpose. rewrite shape1_identity, length_identity.
  transitivity (mtab n n delta); [|done]. unfold mtab, tabulate.
  apply map_ext_in. intros i Hi%in_seq. apply map_ext_in. intros j Hj%in_seq.
  rewrite mget_identity by lia. unfold delta.
  destruct (decide (j = i)), (decide (i = j)); done || lia.
Qed.

Lemma matmul_identity_r n (M : list (list R)) :
  is_matrix n n M → matmul M (identity n) = M.
Proof.
  intros HM. unfold matmul.
  rewrite shape1_identity, length_identity, (proj1 HM).
  transitivity (mtab n n (mget M)); [|by apply mtab_mget].
  unfold mtab, tabulate.
  apply map_ext_in. intros i Hi%in_seq. apply map_ext_in. intros j Hj%in_seq.
  rewrite <- (sum_n_delta_r n (λ k, mget M i k) j) by lia.
  apply sum_n_ext. intros k Hk. by rewrite mget_identity by lia.
Qed.

Lemma matmul_identity_l n (M : list (list R)) :
  is_matrix n n M → matmul (identity n) M = M.
Proof.
  intros HM. unfold matmul. rewrite length_identity, (proj1 HM).
  assert (n = 0 ∨ shape1 M = n) as [-> | ->].
  { destruct HM as [Hn Hm]. destruct M as [|row M]; [by left|right].
    unfold shape1. simpl. by inversion Hm. }
  { destruct HM as [Hn _]. by destruct M. }
  transitivity (mtab n n (mget M)); [|by apply mtab_mget].
  unfold mtab, tabulate.
  apply map_ext_in. intros i Hi%in_seq. apply map_ext_in. intros j Hj%in_seq.
  rewrite <- (sum_n_delta_l n (λ k, mget M k j) i) by lia.
  apply sum_n_ext. intros k Hk. by rewrite mget_identity by lia.
Qed.

Lemma einsum_identity n (T : list (list (list (list R)))) :
  is_tensor4 n T →
  einsum_pqrs_pi_qj_rk_sl T (identity n) (identity n) (identity n) (identity n)
  = T.
Proof.
  intros HT. unfold einsum_pqrs_pi_qj_rk_sl.
  rewrite shape1_identity, length_identity.
  transitivity (t4tab n n n n (t4get T)); [|by apply t4tab_t4get].
  unfold t4tab, tabulate.
  apply map_ext_in. intros i Hi%in_seq. apply map_ext_in. intros j Hj%in_seq.
  apply map_ext_in. intros k Hk%in_seq. apply map_ext_in. intros l Hl%in_seq.
  rewrite <- (sum_n_delta_r n (λ p, t4get T p j k l) i) by lia.
  apply sum_n_ext. intros p Hp.
  rewrite <- (sum_n_delta_r n (λ q, smul (t4get T p q k l) (delta p i)) j)
    by lia.
  apply sum_n_ext. intros q Hq.
  rewrite <- (sum_n_delta_r n
    (λ r, smul (smul (t4get T p q r l) (delta p i)) (delta q j)) k) by lia.
  apply sum_n_ext. intros r Hr.
  rewrite <- (sum_n_delta_r n
    (λ s, smul (smul (smul (t4get T p q r s) (delta p i)) (delta q j))
               (delta r k)) l) by lia.
  apply sum_n_ext. intros s Hs. by rewrite !mget_identity by lia.
Qed.

End ArrayFacts.
End ArrayFacts.

(** ** IntegralRotator *)

Module RotatorFacts.
Import Rotator ArrayFacts.

Section RotatorFacts.
Context {R : Type} `{Scalar R}.

Add Ring scalar_ring_rot : scalar_ring.

Lemma num_params_eq n : (n ^ 2 - n) / 2 = n * (n - 1) / 2.
Proof. f_equal. rewrite Nat.pow_2_r. destruct n; simpl; lia. Qed.

(** *** The generator of the zero vector *)

Lemma alter_replicate {A} (f : A → A) (x : A) n i :
  f x = x → alter f i (replicate n x) = replicate n x.
Proof.
  intros Hf. revert i. induction n as [|n IH]; intros [|i]; simpl; [done..| |].
  - by rewrite Hf.
  - f_equal. apply IH.
Qed.

Lemma insert_replicate_same {A} (x : A) n j :
  <[j:=x]> (replicate n x) = replicate n x.
Proof.
  revert j. induction n as [|n IH]; intros [|j]; simpl; [done..|].
  f_equal. apply IH.
Qed.

Lemma at_set_zeros n m (indices : list (nat * nat)) (values : list R) :
  Forall (λ v, v = s0) values → at_set (zeros n m) indices values = zeros n m.
Proof.
  unfold at_set. intros Hv. revert indices.
  induction Hv as [|v values -> _ IH]; intros [|ij indices]; simpl; [done..|].
  unfold zeros at 1. rewrite alter_replicate by apply insert_replicate_same.
  apply IH.
Qed.

Lemma antisymmetric_matrix_of_zeros (len n : nat) :
  _antisymmetric_matrix_from_upper_tri (replicate len s0) n = zeros n n.
Proof.
  unfold _antisymmetric_matrix_from_upper_tri.
  rewrite at_set_zeros by (by apply Forall_replicate).
  apply at_set_zeros. apply Forall_forall.
  intros v Hv%list_elem_of_In%in_map_iff. destruct Hv as (x & <- & Hx).
  apply list_elem_of_In, elem_of_replicate in Hx as [-> _]. ring.
Qed.

(** *** The diagonal of the generator *)

Lemma mget_alter_insert (K : list (list R)) a b v i j :
  (a, b) ≠ (i, j) →
  mget (alter (λ row, <[b:=v]> row) a K) i j = mget K i j.
Proof.
  intros Hne. unfold mget.
  destruct (decide (a = i)) as [->|Hai].
  - rewrite list_lookup_alter_eq. destruct (K !! i) as [row|]; simpl; [|done].
    rewrite list_lookup_insert_ne; [done|]. congruence.
  - by rewrite list_lookup_alter_ne.
Qed.

Lemma mget_at_set_other (K : list (list R)) indices values i j :
  (i, j) ∉ indices → mget (at_set K indices values) i j = mget K i j.
Proof.
  unfold at_set. revert K values.
  induction indices as [|[a b] indices IH]; intros K [|v values] Hnot;
    simpl; [done..|].
  apply not_elem_of_cons in Hnot as [Hne Hnot].
  rewrite IH by done. apply mget_alter_insert. congruence.
Qed.

Lemma elem_of_triu_indices n i j : (i, j) ∈ triu_indices n → i < j.
Proof.
  unfold triu_indices. intros Hin%list_elem_of_In%in_flat_map.
  destruct Hin as (a & _ & Hin). apply in_map_iff in Hin as (b & [= <- <-] & Hb).
  apply in_seq in Hb. lia.
Qed.

Lemma elem_of_tril_indices n i j : (i, j) ∈ tril_indices n → j < i.
Proof.
  unfold tril_indices. intros Hin%list_elem_of_In%in_flat_map.
  destruct Hin as (a & _ & Hin). apply in_map_iff in Hin as (b & [= <- <-] & Hb).
  apply in_seq in Hb. lia.
Qed.

Lemma mget_zeros n m i j : mget (zeros n m) i j = s0.
Proof.
  unfold mget, zeros.
  destruct (decide (i < n)) as [Hi|Hi].
  - rewrite lookup_replicate_2 by done. simpl.
    destruct (decide (j < m)) as [Hj|Hj].
    + by rewrite lookup_replicate_2.
    + by rewrite lookup_ge_None_2 by (rewrite length_replicate; lia).
  - by rewrite lookup_ge_None_2 by (rewrite length_replicate; lia).
Qed.

(** X2: whatever [k_flat] is, the diagonal of the generator is zero. *)
Lemma antisymmetric_matrix_diagonal (k_flat : list R) (n i : nat) :
  mget (_antisymmetric_matrix_from_upper_tri k_flat n) i i = s0.
Proof.
  unfold _antisymmetric_matrix_from_upper_tri.
  rewrite !mget_at_set_other.
  - apply mget_zeros.
  - intros Hin%elem_of_triu_indices. lia.
  - intros Hin%elem_of_tril_indices. lia.
Qed.

(** For two and three orbitals the generator is antisymmetric. *)
Lemma antisymmetric_matrix_dim2 (a : R) :
  _antisymmetric_matrix_from_upper_tri [a] 2 = [[s0; a]; [sopp a; s0]].
Proof. reflexivity. Qed.

Lemma antisymmetric_matrix_dim3 (a b c : R) :
  _antisymmetric_matrix_from_upper_tri [a; b; c] 3
  = [[s0; a; b]; [sopp a; s0; c]; [sopp b; sopp c; s0]].
Proof. reflexivity. Qed.

(** For four orbitals the lower triangle is filled in the row-major order of
    the lower triangle, not in the order of the transposed upper triangle:
    [k_flat[2]] sits at [(0, 3)] and its negation at [(2, 1)]. *)
Lemma antisymmetric_matrix_dim4 (a b c d e f : R) :
  _antisymmetric_matrix_from_upper_tri [a; b; c; d; e; f] 4
  = [[s0; a; b; c];
     [sopp a; s0; d; e];
     [sopp b; sopp c; s0; f];
     [sopp d; sopp e; sopp f; s0]].
Proof. reflexivity. Qed.

End RotatorFacts.

Section RotateIntegrals.
Context {R : Type} `{Scalar R} `{Collaborators R}.

(** C5: when the matrix exponential of the zero matrix is the identity,
    rotating by the all-zero parameter vector returns [hcore] and [eri]
    themselves. *)
Theorem rotate_integrals_zeros (n : nat) (hcore : list (list R))
    (eri : list (list (list (list R)))) :
  is_matrix n n hcore → is_tensor4 n eri →
  expm (zeros n n) = identity n →
  rotate_integrals hcore eri (replicate (n * (n - 1) / 2) s0)
  = Ok (hcore, eri).
Proof.
  intros Hhcore Heri Hexpm. unfold rotate_integrals.
  rewrite (proj1 Hhcore), length_replicate, num_params_eq, Nat.eqb_refl.
  cbn [negb]. rewrite antisymmetric_matrix_of_zeros, Hexpm.
  rewrite transpose_identity, matmul_identity_r by done.
  by rewrite matmul_identity_l, einsum_identity.
Qed.

End RotateIntegrals.

(** C1: at four orbitals and [k_flat = (1, 2, 3, 4, 5, 6)] the generator has
    a zero diagonal but is not antisymmetric: [K[0, 3] = 3] and
    [K[3, 0] = -4]. *)
Theorem antisymmetric_matrix_dim4_example :
  let K := _antisymmetric_matrix_from_upper_tri (map qz [1; 2; 3; 4; 5; 6]%Z) 4 in
  K = map (map qz) [[0; 1; 2; 3]; [-1; 0; 4; 5]; [-2; -3; 0; 6]; [-4; -5; -6; 0]]%Z
  ∧ diagonal K = map qz [0; 0; 0; 0]%Z
  ∧ mget K 0 3 = qz 3 ∧ mget K 3 0 = qz (-4)
  ∧ mget K 0 3 ≠ sopp (mget K 3 0).
Proof.
  assert (_antisymmetric_matrix_from_upper_tri (map qz [1; 2; 3; 4; 5; 6]%Z) 4
          = map (map qz)
              [[0; 1; 2; 3]; [-1; 0; 4; 5]; [-2; -3; 0; 6]; [-4; -5; -6; 0]]%Z)
    as HK by reflexivity.
  cbv zeta. rewrite HK. repeat split; try reflexivity.
  intros Heq. apply (f_equal this) in Heq. vm_compute in Heq. discriminate.
Qed.

Lemma rotate_integrals_zeros_witness :
  rotate_integrals (map (map qz) [[1; 0]; [0; 2]]%Z)
                   (t4tab 2 2 2 2 (λ p q r s, qz (Z.of_nat (p + 2 * q + 4 * r + 8 * s))))
                   (replicate 1 s0)
  = Ok (map (map qz) [[1; 0]; [0; 2]]%Z,
        t4tab 2 2 2 2 (λ p q r s, qz (Z.of_nat (p + 2 * q + 4 * r + 8 * s)))).
Proof.
  apply (rotate_integrals_zeros 2).
  - split; [reflexivity|]. repeat constructor.
  - split; [reflexivity|]. repeat constructor.
  - reflexivity.
Defined.

End RotatorFacts.

(** ** GradientOptimizer *)

Module OptimizerFacts.
Import Optimizer.

Lemma zip_with_tabulate {A B C} (f : A → B → C) (l1 : list A) (l2 : list B)
    (d1 : A) (d2 : B) :
  length l1 = length l2 →
  zip_with f l1 l2
  = tabulate (length l1) (λ i, f (nth i l1 d1) (nth i l2 d2)).
Proof.
  revert l2. induction l1 as [|x l1 IH]; intros [|y l2] Hlen; try done.
  cbn [zip_with length]. unfold tabulate in *. cbn [seq map nth]. f_equal.
  rewrite <- seq_shift, map_map. apply IH. simpl in Hlen. lia.
Qed.

Section OptimizerFacts.
Context {R : Type} `{Scalar R} `{Collaborators R}.

Variables (learning_rate momentum : R).
Variables (dm1 hcore : list (list R)) (dm2 eri : list (list (list (list R)))).

Local Abbreviation step :=
  (sci_step learning_rate momentum dm1 dm2 hcore eri).
Local Abbreviation loop n :=
  (sci_loop learning_rate momentum n dm1 dm2 hcore eri).
Local Abbreviation grad_at k :=
  (_SCISCF_Energy_contract_grad dm1 dm2 hcore eri k).

(** *** The store

    A pass computes a JAX [prev_update], rebinds [k_flat] to a JAX array and
    leaves the store alone. *)
Lemma sci_step_spec σ k_flat prev_update :
  let prev_update' :=
    vadd (vscale learning_rate (grad_at (contents σ k_flat)))
         (vscale momentum (entries prev_update)) in
  step (σ, k_flat, prev_update)
  = (σ, Jax (vsub (contents σ k_flat) prev_update'),
     Temporary jax prev_update').
Proof. by destruct k_flat. Qed.

Lemma sci_loop_S n k_flat σ : loop (S n) k_flat σ = step (loop n k_flat σ).
Proof. unfold sci_loop. apply Nat.iter_succ. Qed.

Lemma sci_loop_store n k_flat σ : (loop n k_flat σ).1.1 = σ.
Proof.
  induction n as [|n IH]; [done|]. rewrite sci_loop_S.
  destruct (loop n k_flat σ) as [[σ' k] p]. by rewrite sci_step_spec.
Qed.

Lemma sci_loop_jax n k_flat σ :
  ∃ v, (loop (S n) k_flat σ).1.2 = Jax v
       ∧ library_of (loop (S n) k_flat σ).2 = jax.
Proof.
  rewrite sci_loop_S. destruct (loop n k_flat σ) as [[σ' k] p].
  rewrite sci_step_spec. by eexists.
Qed.

Lemma optimize_orbitals_sci_store k_flat num_steps σ :
  _optimize_orbitals_sci k_flat learning_rate momentum num_steps
                         dm1 dm2 hcore eri σ
  = σ.
Proof. apply sci_loop_store. Qed.

Lemma optimize_orbitals_sci_length k_flat num_steps σ :
  length (_optimize_orbitals_sci k_flat learning_rate momentum num_steps
                                 dm1 dm2 hcore eri σ !!! k_flat)
  = length (σ !!! k_flat).
Proof. by rewrite optimize_orbitals_sci_store. Qed.

(** *** The trajectory *)

(** The trajectory from any state of the loop. *)
Local Abbreviation trajectory_from n st :=
  (map (λ t, let st' := Nat.iter (S t) step st in contents st'.1.1 st'.1.2)
       (seq 0 n)).

Lemma sci_trajectory_from n k_flat σ :
  sci_trajectory learning_rate momentum n dm1 dm2 hcore eri k_flat σ
  = trajectory_from n (sci_init k_flat σ).
Proof. done. Qed.

Lemma trajectory_from_S n st :
  trajectory_from (S n) st
  = contents (step st).1.1 (step st).1.2 :: trajectory_from n (step st).
Proof.
  cbn [seq map]. f_equal. rewrite <- seq_shift, map_map.
  apply map_ext. intros t. cbv zeta. by rewrite (Nat.iter_succ_r (S t)).
Qed.

Lemma velocity_tabulate (k grad velocity_prev : list R) :
  length grad = length k → length velocity_prev = length k →
  vadd (vscale learning_rate grad) (vscale momentum velocity_prev)
  = tabulate (length k) (λ i,
      sadd (smul learning_rate (nth i grad s0))
           (smul momentum (nth i velocity_prev s0))).
Proof.
  intros Hg Hv. unfold vadd, vscale. change (map ?f ?l) with (f <$> l).
  rewrite zip_with_fmap_l, zip_with_fmap_r.
  rewrite (zip_with_tabulate _ grad velocity_prev s0 s0) by lia.
  by rewrite Hg.
Qed.

Lemma trajectory_from_momentum_descent n σ k_flat prev_update :
  (∀ k, length (grad_at k) = length k) →
  length (entries prev_update) = length (contents σ k_flat) →
  trajectory_from n (σ, k_flat, prev_update)
  = momentum_descent learning_rate momentum dm1 dm2 hcore eri n
                     (contents σ k_flat) (entries prev_update).
Proof.
  intros Hgrad. revert σ k_flat prev_update.
  induction n as [|n IH]; intros σ k_flat prev_update Hlen; [done|].
  rewrite trajectory_from_S, sci_step_spec. cbn [fst snd contents].
  cbn [momentum_descent].
  rewrite (velocity_tabulate (contents σ k_flat)) by (by rewrite ?Hgrad).
  set (velocity := tabulate _ _).
  assert (length velocity = length (contents σ k_flat)) as Hvel
    by (unfold velocity, tabulate; by rewrite length_map, length_seq).
  assert (vsub (contents σ k_flat) velocity
          = tabulate (length (contents σ k_flat))
              (λ i, ssub (nth i (contents σ k_flat) s0) (nth i velocity s0)))
    as Hk.
  { unfold vsub. by apply zip_with_tabulate. }
  rewrite Hk. f_equal.
  rewrite (IH σ (Jax _) (Temporary jax velocity)); [done|].
  cbn [entries contents]. unfold tabulate.
  by rewrite Hvel, length_map, length_seq.
Qed.

Lemma sci_trajectory_momentum_descent N σ k_flat k0 :
  (∀ k, length (grad_at k) = length k) →
  σ !! k_flat = Some k0 →
  sci_trajectory learning_rate momentum N dm1 dm2 hcore eri k_flat σ
  = momentum_descent learning_rate momentum dm1 dm2 hcore eri N k0
                     (replicate (length k0) s0).
Proof.
  intros Hgrad Hk. rewrite sci_trajectory_from. unfold sci_init.
  rewrite trajectory_from_momentum_descent.
  - cbn [contents entries]. by rewrite (lookup_total_correct _ _ _ Hk).
  - done.
  - cbn [contents entries]. by rewrite length_replicate.
Qed.

(** A state that a pass maps to itself, up to the library of the arrays. *)
Lemma trajectory_from_fixed n σ k_flat prev_update :
  vadd (vscale learning_rate (grad_at (contents σ k_flat)))
       (vscale momentum (entries prev_update))
  = entries prev_update →
  vsub (contents σ k_flat) (entries prev_update) = contents σ k_flat →
  trajectory_from n (σ, k_flat, prev_update)
  = replicate n (contents σ k_flat).
Proof.
  revert k_flat prev_update.
  induction n as [|n IH]; intros k_flat prev_update Hprev Hsub; [done|].
  rewrite trajectory_from_S, sci_step_spec. cbn [fst snd contents].
  rewrite Hprev, Hsub. cbn [replicate]. f_equal.
  by rewrite (IH (Jax _) (Temporary jax _)).
Qed.

Lemma sci_trajectory_fixed n σ k_flat k0 :
  σ !! k_flat = Some k0 →
  vadd (vscale learning_rate (grad_at k0))
       (vscale momentum (replicate (length k0) s0))
  = replicate (length k0) s0 →
  vsub k0 (replicate (length k0) s0) = k0 →
  sci_trajectory learning_rate momentum n dm1 dm2 hcore eri k_flat σ
  = replicate n k0.
Proof.
  intros Hk Hprev Hsub. rewrite sci_trajectory_from. unfold sci_init.
  rewrite trajectory_from_fixed; cbn [contents entries];
    by rewrite (lookup_total_correct _ _ _ Hk).
Qed.

Lemma sci_loop_1 σ k_flat k0 :
  σ !! k_flat = Some k0 →
  let prev_update :=
    vadd (vscale learning_rate (grad_at k0))
         (vscale momentum (replicate (length k0) s0)) in
  loop 1 k_flat σ
  = (σ, Jax (vsub k0 prev_update), Temporary jax prev_update).
Proof.
  intros Hk. cbv zeta. rewrite sci_loop_S. unfold sci_loop, sci_init.
  cbn [Nat.iter nat_rect]. rewrite sci_step_spec. cbn [contents entries].
  by rewrite (lookup_total_correct _ _ _ Hk).
Qed.

(** C7: for fixed inputs the inner loop has one parameter trajectory.  Two
    runs of [N] passes, from any two stores that hold the same initial
    [k_flat] at any two locations, bind [k_flat] to the same entries after
    each pass; and these are the entries of momentum gradient descent,
    [velocity = learning_rate * grad + momentum * velocity_prev;
    k -= velocity], from the initial [k_flat] and a zero velocity, for a
    gradient of the shape of its argument. *)
Theorem inner_loop_deterministic (k0 : list R) (N : nat)
    (σ1 σ2 : gmap nat (list R)) (k_flat1 k_flat2 : nat) :
  (∀ dm1 dm2 hcore eri k,
     length (_SCISCF_Energy_contract_grad dm1 dm2 hcore eri k) = length k) →
  σ1 !! k_flat1 = Some k0 → σ2 !! k_flat2 = Some k0 →
  sci_trajectory learning_rate momentum N dm1 dm2 hcore eri k_flat1 σ1
  = sci_trajectory learning_rate momentum N dm1 dm2 hcore eri k_flat2 σ2
  ∧ sci_trajectory learning_rate momentum N dm1 dm2 hcore eri k_flat1 σ1
    = momentum_descent learning_rate momentum dm1 dm2 hcore eri N k0
                       (replicate (length k0) s0)
  ∧ length (sci_trajectory learning_rate momentum N dm1 dm2 hcore eri
                           k_flat1 σ1) = N.
Proof.
  intros Hgrad Hk1 Hk2.
  rewrite (sci_trajectory_momentum_descent N σ1 k_flat1 k0) by done.
  rewrite (sci_trajectory_momentum_descent N σ2 k_flat2 k0) by done.
  split; [done|]. split; [done|].
  rewrite <- (sci_trajectory_momentum_descent N σ1 k_flat1 k0) by done.
  unfold sci_trajectory. by rewrite length_map, length_seq.
Qed.

End OptimizerFacts.

Lemma inner_loop_deterministic_witness :
  ((∀ dm1 dm2 hcore eri (k : list Qc),
      length (_SCISCF_Energy_contract_grad dm1 dm2 hcore eri k) = length k)
   ∧ ({[0 := [qz 1; qz 2]]} : gmap nat (list Qc)) !! 0 = Some [qz 1; qz 2]
   ∧ ({[3 := [qz 1; qz 2]; 5 := [qz 7]]} : gmap nat (list Qc)) !! 3
     = Some [qz 1; qz 2])
  ∧ sci_trajectory (qz 2) (qz 3) 2 (zeros 2 2) [] (zeros 2 2) [] 0
      ({[0 := [qz 1; qz 2]]} : gmap nat (list Qc))
    = sci_trajectory (qz 2) (qz 3) 2 (zeros 2 2) [] (zeros 2 2) [] 3
        ({[3 := [qz 1; qz 2]; 5 := [qz 7]]} : gmap nat (list Qc))
  ∧ sci_trajectory (qz 2) (qz 3) 2 (zeros 2 2) [] (zeros 2 2) [] 0
      ({[0 := [qz 1; qz 2]]} : gmap nat (list Qc))
    = [[qz (-1); qz (-2)]; [qz (-5); qz (-10)]].
Proof.
  assert (∀ dm1 dm2 hcore eri (k : list Qc),
            length (_SCISCF_Energy_contract_grad dm1 dm2 hcore eri k)
            = length k) as Hgrad by reflexivity.
  assert (({[0 := [qz 1; qz 2]]} : gmap nat (list Qc)) !! 0
          = Some [qz 1; qz 2]) as Hk1 by reflexivity.
  assert (({[3 := [qz 1; qz 2]; 5 := [qz 7]]} : gmap nat (list Qc)) !! 3
          = Some [qz 1; qz 2]) as Hk2 by reflexivity.
  split; [by split|].
  destruct (inner_loop_deterministic (qz 2) (qz 3) (zeros 2 2) (zeros 2 2)
              [] [] [qz 1; qz 2] 2 _ _ 0 3 Hgrad Hk1 Hk2)
    as (Hsame & Hspec & _).
  split; [exact Hsame|]. rewrite Hspec. by vm_compute.
Defined.

End OptimizerFacts.

(** ** OrbitalOptimizationLoop and solve_fermion *)

Module LoopFacts.
Import Codec Rotator Optimizer Loop CodecFacts RotatorFacts OptimizerFacts.

(** *** Empty sectors *)

Lemma accumulate_nil norb : accumulate norb [] = [].
Proof.
  unfold accumulate. simpl. induction (seq 0 norb) as [|c cols IH]; done.
Qed.

Lemma validated_ci_strs_no_rows (shape1 : nat) (open_shell : bool) :
  validated_ci_strs (Bitstrings (BitstringMatrix [] shape1)) open_shell
  = Raise IndexError.
Proof.
  unfold validated_ci_strs, bitstring_matrix_to_ci_strs. simpl.
  rewrite accumulate_nil. by destruct open_shell.
Qed.

Lemma validated_ci_strs_empty_up (dn : list Z) (open_shell : bool) :
  validated_ci_strs (Determinants [] dn) open_shell = Raise IndexError.
Proof. done. Qed.

Section LoopFacts.
Context {R : Type} `{Scalar R} `{Collaborators R}.

(** *** The store of the outer loop *)

Lemma orbital_loop_store num_iters last hcore eri_phys k_flat norb nelec
    ci_strs spin_sq num_steps_grad learning_rate max_davidson
    (σ : gmap nat (list R)) :
  (orbital_loop num_iters last hcore eri_phys k_flat norb nelec ci_strs
                spin_sq num_steps_grad learning_rate max_davidson σ).2
  = σ.
Proof.
  revert last σ.
  induction num_iters as [|n IH]; intros last σ; cbn [orbital_loop]; [done|].
  destruct (rotate_integrals _ _ _) as [[hcore_rot eri_rot]|e]; [|done].
  destruct (kernel_fixed_space _ _ _ _ _ _ _) as [e amplitudes].
  destruct (make_rdm12 _ _ _) as [dm1 dm2_chem].
  destruct (make_rdm1s _ _ _) as [dm1a dm1b].
  by rewrite IH, optimize_orbitals_sci_store.
Qed.

(** C9: the array the caller passes as [k_flat] holds its original values
    after the call, whether the call returns or raises, and so does every
    other array that existed before the call; the array that is returned is
    a new one.  But the returned array holds the original values too,
    whatever the learning rate and the numbers of iterations and steps: the
    inner loop rebinds its local name and never writes the copy, so the
    optimised parameters are not in the array that is returned. *)
Theorem optimize_orbitals_returns_unoptimised_copy bitstring_matrix hcore eri
    (k_flat : nat) open_shell spin_sq num_iters num_steps_grad learning_rate
    max_davidson (σ : gmap nat (list R)) (k0 : list R) :
  σ !! k_flat = Some k0 →
  let out := optimize_orbitals bitstring_matrix hcore eri k_flat open_shell
               spin_sq num_iters num_steps_grad learning_rate max_davidson σ in
  out.2 !! k_flat = Some k0
  ∧ (∀ l, is_Some (σ !! l) → out.2 !! l = σ !! l)
  ∧ (∀ e k_flat' occupancies,
       out.1 = Ok (e, k_flat', occupancies) →
       k_flat' ≠ k_flat ∧ σ !! k_flat' = None
       ∧ out.2 !! k_flat' = Some k0).
Proof.
  intros Hk0.
  assert (∀ l, is_Some (σ !! l) → l ≠ fresh (dom σ)) as Hfresh.
  { intros l [x Hx] ->. pose proof (is_fresh (dom σ)) as Hf.
    apply not_elem_of_dom in Hf. congruence. }
  cbv zeta. unfold optimize_orbitals.
  destruct (negb _); [by split; [|split]|].
  destruct (validated_ci_strs _ _) as [[ci_strs nelec]|e];
    [|by split; [|split]].
  match goal with
  | |- context [orbital_loop ?n ?la ?h ?ep ?k ?no ?ne ?ci ?sp ?ns ?lr ?md ?s] =>
      pose proof (orbital_loop_store n la h ep k no ne ci sp ns lr md s)
        as Hstore;
      destruct (orbital_loop n la h ep k no ne ci sp ns lr md s)
        as [[[it|]|e] σ']
  end; simpl in Hstore; subst σ'.
  all: assert (∀ l, is_Some (σ !! l) →
                 <[fresh (dom σ) := σ !!! k_flat]> σ !! l = σ !! l) as Hold
    by (intros l Hl; pose proof (Hfresh l Hl);
        rewrite lookup_insert_ne by congruence; done).
  all: split; [by rewrite Hold, Hk0|]; split; [exact Hold|]; try done.
  intros e k' occ [= <- <- <-]. split; [|split].
  - intros Heq. by apply (Hfresh k_flat).
  - apply not_elem_of_dom, is_fresh.
  - cbn [snd]. by rewrite lookup_insert_eq, (lookup_total_correct _ _ _ Hk0).
Qed.

(** *** Which errors the prologue can raise *)

Lemma check_ci_strs_not_k_flat_error (ci_strs : list Z * list Z) :
  ¬ is_k_flat_error (_check_ci_strs ci_strs).
Proof.
  destruct ci_strs as [up dn]. unfold _check_ci_strs.
  intros (len & expected & Herr).
  destruct (up !! 0) as [up0|]; [|done].
  destruct (check_sector_spec Up (hamming up0) 0 up)
    as [[Hup _]|(? & ? & _ & _ & Hup)]; rewrite Hup in Herr; [|done].
  cbn [rbind] in Herr. destruct (dn !! 0) as [dn0|]; [|done].
  by destruct (check_sector_spec Dn (hamming dn0) 0 dn)
    as [[Hdn _]|(? & ? & _ & _ & Hdn)]; rewrite Hdn in Herr.
Qed.

Lemma validated_ci_strs_not_k_flat_error bitstring_matrix open_shell :
  ¬ is_k_flat_error (validated_ci_strs bitstring_matrix open_shell).
Proof.
  unfold validated_ci_strs. intros (len & expected & Herr).
  match type of Herr with
  | rbind (_check_ci_strs ?c) _ = _ =>
      pose proof (check_ci_strs_not_k_flat_error c) as Hcheck;
      destruct (_check_ci_strs c) as [[up dn]|e]
  end; cbn [rbind] in Herr.
  - simpl in Herr. by destruct (up !! 0), (dn !! 0).
  - apply Hcheck. exists len, expected. congruence.
Qed.

Lemma validated_ci_strs_empty_dn (up : list Z) (open_shell : bool) :
  uniform up →
  validated_ci_strs (Determinants up []) open_shell = Raise IndexError.
Proof.
  intros Hu. unfold validated_ci_strs, _check_ci_strs.
  destruct up as [|up0 up]; [done|]. cbn [lookup list_lookup].
  destruct (check_sector_spec Up (hamming up0) 0 (up0 :: up))
    as [[-> _]|(j & a & Hj & Ha & _)]; [done|].
  destruct Ha. rewrite hamming_popcountZ. apply Hu; [|by left].
  by eapply list_elem_of_lookup_2.
Qed.

Lemma rotate_integrals_k_flat_error (hcore : list (list R))
    (eri : list (list (list (list R)))) (k_flat : list R) :
  is_k_flat_error (rotate_integrals hcore eri k_flat)
  ↔ length k_flat ≠ length hcore * (length hcore - 1) / 2.
Proof.
  unfold rotate_integrals. rewrite num_params_eq.
  destruct (Nat.eqb_spec (length k_flat)
              (length hcore * (length hcore - 1) / 2)) as [Heq|Hne];
    cbn [negb].
  - split; [by intros (? & ? & ?)|by intros []].
  - split; [done|]. intros _. by do 2 eexists.
Qed.

(** *** The outer loop keeps the shape of [k_flat]

    A gradient has the shape of the argument it is taken in. *)
Hypothesis grad_shape : ∀ dm1 dm2 hcore eri k_flat,
  length (_SCISCF_Energy_contract_grad dm1 dm2 hcore eri k_flat)
  = length k_flat.

Lemma orbital_loop_returns num_iters last hcore eri_phys k_flat norb nelec
    ci_strs spin_sq num_steps_grad learning_rate max_davidson
    (σ : gmap nat (list R)) :
  length (σ !!! k_flat) = length hcore * (length hcore - 1) / 2 →
  ∃ last',
    (orbital_loop num_iters last hcore eri_phys k_flat norb nelec ci_strs
                  spin_sq num_steps_grad learning_rate max_davidson σ).1
    = Ok last'.
Proof.
  revert last σ.
  induction num_iters as [|n IH]; intros last σ Hlen; cbn [orbital_loop];
    [by eexists|].
  unfold rotate_integrals.
  rewrite num_params_eq, Hlen, Nat.eqb_refl. cbn [negb].
  destruct (kernel_fixed_space _ _ _ _ _ _ _) as [e amplitudes].
  destruct (make_rdm12 _ _ _) as [dm1 dm2_chem].
  destruct (make_rdm1s _ _ _) as [dm1a dm1b].
  apply IH. by rewrite optimize_orbitals_sci_length.
Qed.

(** C6: [rotate_integrals] and [optimize_orbitals] raise the [k_flat]
    length error exactly when the length of [k_flat] is not [n (n - 1) / 2],
    [n] the number of rows of [hcore]; and when [optimize_orbitals] raises
    it, the store is the one it was called in.  [rotate_integrals] never
    writes to its arguments. *)
Theorem k_flat_length_check bitstring_matrix (hcore : list (list R))
    (eri : list (list (list (list R)))) (k_flat : nat) open_shell spin_sq
    num_iters num_steps_grad learning_rate max_davidson
    (σ : gmap nat (list R)) :
  let n := length hcore in
  let out := optimize_orbitals bitstring_matrix hcore eri k_flat open_shell
               spin_sq num_iters num_steps_grad learning_rate max_davidson σ in
  (is_k_flat_error (rotate_integrals hcore eri (σ !!! k_flat))
   ↔ length (σ !!! k_flat) ≠ n * (n - 1) / 2)
  ∧ (is_k_flat_error out.1 ↔ length (σ !!! k_flat) ≠ n * (n - 1) / 2)
  ∧ (is_k_flat_error out.1 → out.2 = σ).
Proof using All.
  cbv zeta. split; [apply rotate_integrals_k_flat_error|].
  unfold optimize_orbitals. rewrite num_params_eq.
  destruct (Nat.eqb_spec (length (σ !!! k_flat))
              (length hcore * (length hcore - 1) / 2)) as [Heq|Hne];
    cbn [negb]; [|by split; [split; [|intros _; do 2 eexists]|]].
  assert (¬ is_k_flat_error
            (optimize_orbitals bitstring_matrix hcore eri k_flat open_shell
               spin_sq num_iters num_steps_grad learning_rate max_davidson σ).1)
    as Hno.
  { unfold optimize_orbitals. rewrite num_params_eq.
    rewrite (proj2 (Nat.eqb_eq _ _) Heq). cbn [negb].
    pose proof (validated_ci_strs_not_k_flat_error bitstring_matrix open_shell)
      as Hval.
    destruct (validated_ci_strs _ _) as [[ci_strs nelec]|e];
      [|intros (len & expected & [= ->]); apply Hval; by exists len, expected].
    match goal with
    | |- context [orbital_loop ?n ?la ?h ?ep ?k ?no ?ne ?ci ?sp ?ns ?lr ?md ?s] =>
        destruct (orbital_loop_returns n la h ep k no ne ci sp ns lr md s)
          as [last' Hret];
        [by rewrite lookup_total_insert_eq|];
        destruct (orbital_loop n la h ep k no ne ci sp ns lr md s)
          as [r σ']
    end.
    simpl in Hret. subst r. destruct last'; by intros (? & ? & ?). }
  unfold optimize_orbitals in Hno. rewrite num_params_eq in Hno.
  rewrite (proj2 (Nat.eqb_eq _ _) Heq) in Hno. cbn [negb] in Hno.
  split; [by split|done].
Qed.

End LoopFacts.

(** C10: with a bitstring matrix that has no rows, [solve_fermion] and
    (once the length of [k_flat] has passed its check) [optimize_orbitals]
    raise [IndexError], not the Hamming-weight [ValueError]; the same holds
    for a pair of determinant arrays whose first is empty, or whose first is
    uniform and whose second is empty. *)
Theorem empty_sectors_index_error {R : Type} `{Scalar R} `{Collaborators R}
    (shape1 : nat) (hcore : list (list R)) (eri : list (list (list (list R))))
    (k_flat : nat) open_shell (spin : option R) spin_sq num_iters
    num_steps_grad learning_rate max_davidson (σ : gmap nat (list R)) :
  length (σ !!! k_flat) = length hcore * (length hcore - 1) / 2 →
  (∀ bitstring_matrix,
     bitstring_matrix = Bitstrings (BitstringMatrix [] shape1)
     ∨ (∃ dn, bitstring_matrix = Determinants [] dn)
     ∨ (∃ up, uniform up ∧ bitstring_matrix = Determinants up []) →
     solve_fermion bitstring_matrix hcore eri open_shell spin max_davidson
     = Raise IndexError
     ∧ optimize_orbitals bitstring_matrix hcore eri k_flat open_shell spin_sq
         num_iters num_steps_grad learning_rate max_davidson σ
       = (Raise IndexError, σ)).
Proof.
  intros Hlen bitstring_matrix Hempty.
  assert (validated_ci_strs bitstring_matrix open_shell = Raise IndexError)
    as Hval.
  { destruct Hempty as [->|[[dn ->]|(up & Hup & ->)]].
    - apply validated_ci_strs_no_rows.
    - apply validated_ci_strs_empty_up.
    - by apply validated_ci_strs_empty_dn. }
  unfold solve_fermion, optimize_orbitals.
  rewrite Hval, num_params_eq, Hlen, Nat.eqb_refl. done.
Qed.

(** *** Worked examples

    Two orbitals, one electron per spin, rational scalars. *)

(** The array returned is a new one, at the next free location; with no
    iteration the energy to return was never assigned. *)
Example optimize_orbitals_examples :
  (optimize_orbitals (Determinants [1; 2]%Z [1; 2]%Z) (zeros 2 2)
                     (t4tab 2 2 2 2 (λ _ _ _ _, s0)) 0 false s0 2 3 s1 100
                     ({[0 := [s0]]} : gmap nat (list Qc))).1
  = Ok (s0, 1, [[s0; s0]; [s0; s0]])
  ∧ (optimize_orbitals (Determinants [1; 2]%Z [1; 2]%Z) (zeros 2 2)
                       (t4tab 2 2 2 2 (λ _ _ _ _, s0)) 0 false s0 0 3 s1 100
                       ({[0 := [s0]]} : gmap nat (list Qc))).1
    = Raise UnboundLocalError
  ∧ (optimize_orbitals (Determinants [1; 2]%Z [1; 3]%Z) (zeros 2 2)
                       (t4tab 2 2 2 2 (λ _ _ _ _, s0)) 0 false s0 2 3 s1 100
                       ({[0 := [s0]]} : gmap nat (list Qc))).1
    = Raise (ValueError_hamming Dn 1 1 2)
  ∧ (optimize_orbitals (Determinants [1; 2]%Z [1; 3]%Z) (zeros 2 2)
                       (t4tab 2 2 2 2 (λ _ _ _ _, s0)) 0 false s0 2 3 s1 100
                       ({[0 := [s0; s0]]} : gmap nat (list Qc))).1
    = Raise (ValueError_k_flat 2 1).
Proof. by vm_compute. Qed.

Lemma k_flat_length_check_witness :
  (∀ dm1 dm2 hcore eri (k_flat : list Qc),
     length (_SCISCF_Energy_contract_grad dm1 dm2 hcore eri k_flat)
     = length k_flat)
  ∧ is_k_flat_error
      (optimize_orbitals (Determinants [1; 2]%Z [1; 2]%Z) (zeros 2 2) (t4tab 2 2 2 2 (λ _ _ _ _, s0))
                         0 false s0 1 1 s0 1
                         ({[0 := [s0; s0]]} : gmap nat (list Qc))).1.
Proof.
  assert (∀ dm1 dm2 hcore eri (k_flat : list Qc),
            length (_SCISCF_Energy_contract_grad dm1 dm2 hcore eri k_flat)
            = length k_flat) as Hgrad by reflexivity.
  split; [exact Hgrad|].
  apply (proj1 (proj2 (k_flat_length_check Hgrad _ _ _ _ _ _ _ _ _ _ _))).
  vm_compute. lia.
Defined.

(** One iteration of one step from [k_flat = [5]], with learning rate 1 and
    the gradient [k] of the worked examples: the name [k_flat] of the inner
    loop is bound to [[0]] after the step, and the array returned holds
    [[5]]. *)
Lemma optimize_orbitals_returns_unoptimised_copy_witness :
  ({[0 := [qz 5]]} : gmap nat (list Qc)) !! 0 = Some [qz 5]
  ∧ (optimize_orbitals (Determinants [1; 2]%Z [1; 2]%Z) (zeros 2 2)
                       (t4tab 2 2 2 2 (λ _ _ _ _, s0))
                       0 false s0 1 1 s1 1
                       ({[0 := [qz 5]]} : gmap nat (list Qc))).1
    = Ok (s0, 1, [[s0; s0]; [s0; s0]])
  ∧ (optimize_orbitals (Determinants [1; 2]%Z [1; 2]%Z) (zeros 2 2)
                       (t4tab 2 2 2 2 (λ _ _ _ _, s0))
                       0 false s0 1 1 s1 1
                       ({[0 := [qz 5]]} : gmap nat (list Qc))).2 !! 1
    = Some [qz 5]
  ∧ sci_trajectory s1 lit_0_9 1 (zeros 2 2) [] (zeros 2 2)
                   (t4tab 2 2 2 2 (λ _ _ _ _, s0)) 1
                   ({[0 := [qz 5]; 1 := [qz 5]]} : gmap nat (list Qc))
    = [[qz 0]].
Proof.
  assert (({[0 := [qz 5]]} : gmap nat (list Qc)) !! 0 = Some [qz 5]) as Hk
    by reflexivity.
  assert ((optimize_orbitals (Determinants [1; 2]%Z [1; 2]%Z) (zeros 2 2)
             (t4tab 2 2 2 2 (λ _ _ _ _, s0)) 0 false s0 1 1 s1 1
             ({[0 := [qz 5]]} : gmap nat (list Qc))).1
          = Ok (s0, 1, [[s0; s0]; [s0; s0]])) as Hout by (by vm_compute).
  split; [exact Hk|]. split; [exact Hout|]. split; [|by vm_compute].
  exact (proj2 (proj2 (proj2 (proj2
           (optimize_orbitals_returns_unoptimised_copy _ _ _ _ _ _ _ _ _ _ _
              _ Hk)) _ _ _ Hout))).
Defined.

Lemma empty_sectors_index_error_witness :
  length (({[0 := [s0]]} : gmap nat (list Qc)) !!! 0) = 2 * (2 - 1) / 2
  ∧ solve_fermion (Bitstrings (BitstringMatrix [] 4)) (zeros 2 2)
                  (t4tab 2 2 2 2 (λ _ _ _ _, s0)) false (None : option Qc) 100
    = Raise IndexError
  ∧ optimize_orbitals (Bitstrings (BitstringMatrix [] 4)) (zeros 2 2)
                      (t4tab 2 2 2 2 (λ _ _ _ _, s0)) 0 false s0 10 10 s1 100
                      ({[0 := [s0]]} : gmap nat (list Qc))
    = (Raise IndexError, {[0 := [s0]]}).
Proof.
  assert (length (({[0 := [s0]]} : gmap nat (list Qc)) !!! 0)
          = length (zeros (R:=Qc) 2 2) * (length (zeros (R:=Qc) 2 2) - 1) / 2)
    as Hlen by reflexivity.
  split; [exact Hlen|].
  apply (empty_sectors_index_error 4 (zeros 2 2)
           (t4tab 2 2 2 2 (λ _ _ _ _, s0)) 0 false None s0 10 10 s1 100
           {[0 := [s0]]} Hlen).
  by left.
Defined.

End LoopFacts.

(** ** flip_orbital_occupancies *)

Module OccupanciesFacts.
Import Occupancies.

Section OccupanciesFacts.
Context {R : Type} `{Scalar R}.

Lemma flip_even_value (n : nat) (occupancies : list R) :
  length occupancies = 2 * n →
  flip_orbital_occupancies occupancies
  = Return (reverse (take n occupancies) ++ reverse (drop n occupancies)).
Proof.
  intros Hlen. unfold flip_orbital_occupancies.
  replace (length occupancies / 2) with n
    by (rewrite Hlen, Nat.mul_comm, Nat.div_mul; lia).
  unfold assign_slice at 1.
  rewrite decide_True by (rewrite length_reverse, length_take; lia).
  rewrite take_0. cbn [obind app]. unfold assign_slice.
  rewrite decide_True by (rewrite length_reverse, length_drop; lia).
  cbn [obind]. f_equal.
  rewrite take_app_length' by (rewrite length_reverse, length_take; lia).
  rewrite (drop_ge (_ ++ _)); [by rewrite app_nil_r|].
  rewrite length_app, length_reverse, length_take, length_drop, length_replicate.
  lia.
Qed.

(** X3: on an array of even length [2 n] the function returns each half
    reversed in place: entry [i] of the first half is entry [n - 1 - i] of
    the input, entry [n + i] is entry [2 n - 1 - i]; the length is kept; and
    applying the function twice gives the input back. *)
Theorem flip_orbital_occupancies_even (n : nat) (occupancies : list R) :
  length occupancies = 2 * n →
  ∃ occ_out,
    flip_orbital_occupancies occupancies = Return occ_out
    ∧ length occ_out = 2 * n
    ∧ (∀ i, i < n →
         occ_out !! i = occupancies !! (n - 1 - i)
         ∧ occ_out !! (n + i) = occupancies !! (2 * n - 1 - i))
    ∧ flip_orbital_occupancies occ_out = Return occupancies.
Proof.
  intros Hlen. eexists. split; [by apply flip_even_value|].
  assert (length (reverse (take n occupancies)) = n) as Hup
    by (rewrite length_reverse, length_take; lia).
  assert (length (reverse (drop n occupancies)) = n) as Hdn
    by (rewrite length_reverse, length_drop; lia).
  split; [rewrite length_app; lia|]. split.
  - intros i Hi. split.
    + rewrite lookup_app_l by lia.
      rewrite reverse_lookup by (rewrite length_take; lia).
      rewrite length_take, lookup_take_lt by lia. f_equal. lia.
    + rewrite lookup_app_r by lia.
      rewrite reverse_lookup by (rewrite length_drop; lia).
      rewrite length_drop, lookup_drop. f_equal. lia.
  - rewrite (flip_even_value n) by (rewrite length_app; lia).
    f_equal. rewrite take_app_length', drop_app_length' by done.
    by rewrite !reverse_involutive, take_drop.
Qed.

(** X4: on an array of odd length [2 n + 1] the second half has one entry
    more than the slice it is assigned to: for [n >= 1] NumPy raises its
    broadcast [ValueError]; for [n = 0] the single entry is broadcast into
    the empty slice and the function returns an empty array. *)
Theorem flip_orbital_occupancies_odd (n : nat) (occupancies : list R) :
  length occupancies = 2 * n + 1 →
  flip_orbital_occupancies occupancies
  = if decide (n = 0) then Return []
    else Throw (ValueError_broadcast (n + 1) n).
Proof.
  intros Hlen. unfold flip_orbital_occupancies.
  replace (length occupancies / 2) with n.
  2: { rewrite Hlen, Nat.add_comm, Nat.mul_comm, Nat.div_add by lia.
       simpl. lia. }
  unfold assign_slice at 1.
  rewrite decide_True by (rewrite length_reverse, length_take; lia).
  rewrite take_0. cbn [obind app]. unfold assign_slice.
  assert (length (reverse (drop n occupancies)) = n + 1) as Hdn
    by (rewrite length_reverse, length_drop; lia).
  rewrite decide_False by lia. rewrite Hdn.
  replace (2 * n - n) with n by lia.
  destruct (Nat.eq_dec n 0) as [->|Hn].
  - destruct (reverse (drop 0 occupancies)) as [|x [|y l]];
      simpl in Hdn; [lia| |lia].
    by rewrite decide_True.
  - rewrite decide_False by done.
    destruct (reverse (drop n occupancies)) as [|x [|y l]];
      simpl in Hdn; [lia|lia|done].
Qed.

End OccupanciesFacts.

Lemma flip_orbital_occupancies_even_witness :
  length (map qz [1; 2; 3; 4; 5; 6]%Z) = 2 * 3
  ∧ ∃ occ_out,
      flip_orbital_occupancies (map qz [1; 2; 3; 4; 5; 6]%Z) = Return occ_out
      ∧ length occ_out = 2 * 3
      ∧ (∀ i, i < 3 →
           occ_out !! i = map qz [1; 2; 3; 4; 5; 6]%Z !! (3 - 1 - i)
           ∧ occ_out !! (3 + i)
             = map qz [1; 2; 3; 4; 5; 6]%Z !! (2 * 3 - 1 - i))
      ∧ flip_orbital_occupancies occ_out
        = Return (map qz [1; 2; 3; 4; 5; 6]%Z).
Proof.
  split; [reflexivity|].
  apply (flip_orbital_occupancies_even 3 (map qz [1; 2; 3; 4; 5; 6]%Z)).
  reflexivity.
Defined.

Example flip_orbital_occupancies_examples :
  flip_orbital_occupancies (map qz [1; 2; 3; 4; 5; 6]%Z)
  = Return (map qz [3; 2; 1; 6; 5; 4]%Z)
  ∧ flip_orbital_occupancies (map qz [1; 2; 3; 4; 5]%Z)
    = Throw (ValueError_broadcast 3 2)
  ∧ flip_orbital_occupancies (map qz [7]%Z) = Return []
  ∧ flip_orbital_occupancies ([] : list Qc) = Return [].
Proof. by vm_compute. Qed.

Lemma flip_orbital_occupancies_odd_witness :
  length (map qz [1; 2; 3]%Z) = 2 * 1 + 1
  ∧ flip_orbital_occupancies (map qz [1; 2; 3]%Z)
    = Throw (ValueError_broadcast 2 1).
Proof.
  split; [reflexivity|].
  apply (flip_orbital_occupancies_odd 1 (map qz [1; 2; 3]%Z)). reflexivity.
Defined.

End OccupanciesFacts.

(** ** ExcitationExpander: operators and occupation numbers *)

Module ExpanderMoreFacts.
Import Expander Counting ExpanderFacts.

(** One pair, position by position. *)
Lemma bts_ret_pointwise (bts : list bool) (op : list ascii) :
  (_apply_excitation_single bts (op_diag op) (op_create op)
                            (op_annihilate op)).1
  = zip_with (λ b ch, new_bit ch b) bts op.
Proof.
  unfold _apply_excitation_single, eq_elementwise, op_diag. cbn [fst].
  change (map ?f op) with (f <$> op). by rewrite zip_with_fmap_r.
Qed.

Lemma include_crit_pointwise (bts : list bool) (op : list ascii) :
  length op = length bts →
  (_apply_excitation_single bts (op_diag op) (op_create op)
                            (op_annihilate op)).2
  = forallb id (zip_with (λ b ch, valid_at ch b) bts op).
Proof.
  unfold _apply_excitation_single, op_diag, op_create, op_annihilate.
  unfold jnp_all, logical_or, logical_and, eq_elementwise. cbn [snd].
  rewrite length_map. revert bts.
  induction op as [|ch op IH]; intros [|b bts] [=]; [done|].
  cbn [length replicate map zip_with forallb id].
  rewrite <- (IH bts) by done. unfold valid_at.
  repeat match goal with |- context [forallb id ?l] =>
    generalize (forallb id l); intros ? end.
  repeat match goal with |- context [Ascii.eqb ?a ch] =>
    generalize (Ascii.eqb a ch); intros ? end.
  by repeat match goal with x : bool |- _ => destruct x end.
Qed.

Lemma apply_excitation_single_pointwise (bts : list bool) (op : list ascii) :
  length op = length bts →
  _apply_excitation_single bts (op_diag op) (op_create op) (op_annihilate op)
  = (zip_with (λ b ch, new_bit ch b) bts op,
     forallb id (zip_with (λ b ch, valid_at ch b) bts op)).
Proof.
  intros Hlen. rewrite <- bts_ret_pointwise, <- include_crit_pointwise by done.
  by destruct (_apply_excitation_single _ _ _ _).
Qed.

Lemma enlarge_batch_single_op (bm : list (list bool)) (op : list ascii) :
  enlarge_batch_from_transitions bm [op] = expand_op bm op.
Proof. rewrite enlarge_batch_expand_op. simpl. apply app_nil_r. Qed.

Lemma expand_op_pointwise (w : nat) (bm : list (list bool)) (op : list ascii) :
  Forall (λ bts, length bts = w) bm → length op = w →
  expand_op bm op
  = omap (λ bts,
            if forallb id (zip_with (λ b ch, valid_at ch b) bts op)
            then Some (zip_with (λ b ch, new_bit ch b) bts op) else None) bm.
Proof.
  intros Hbm Hop. unfold expand_op.
  induction Hbm as [|bts bm Hbts _ IH]; [done|].
  cbn [map omap list_omap]. rewrite filter_cons.
  rewrite apply_excitation_single_pointwise by lia. cbn [snd].
  destruct (forallb id _) eqn:Hvalid.
  - rewrite decide_True by done. cbn [fmap list_fmap fst].
    f_equal. exact IH.
  - rewrite decide_False by done. exact IH.
Qed.

Lemma number_occupied_identity (bts : list bool) :
  number_occupied (replicate (length bts) "I"%char) bts = true.
Proof.
  unfold number_occupied. induction bts as [|b bts IH]; [done|].
  cbn [length replicate zip_with forallb id]. by rewrite IH.
Qed.

(** X5: an operator row made of ["I"] and ["n"] only keeps exactly the
    configurations in which every orbital marked ["n"] is occupied, in their
    order and unchanged; the all-["I"] row returns the batch itself. *)
Theorem enlarge_batch_diagonal (w : nat) (bm : list (list bool))
    (op : list ascii) :
  Forall (λ bts, length bts = w) bm → length op = w →
  Forall (λ ch, ch = "I"%char ∨ ch = "n"%char) op →
  enlarge_batch_from_transitions bm [op]
  = filter (λ bts, number_occupied op bts = true) bm
  ∧ enlarge_batch_from_transitions bm [replicate w "I"%char] = bm.
Proof.
  intros Hbm Hop Hsym.
  assert (∀ op', length op' = w →
            Forall (λ ch, ch = "I"%char ∨ ch = "n"%char) op' →
            enlarge_batch_from_transitions bm [op']
            = filter (λ bts, number_occupied op' bts = true) bm) as Hgen.
  { clear op Hop Hsym. intros op Hop Hsym.
    rewrite enlarge_batch_single_op, (expand_op_pointwise w) by done.
    induction Hbm as [|bts bm Hbts _ IH]; [done|].
    cbn [omap list_omap]. rewrite filter_cons, IH.
    assert (zip_with (λ b ch, new_bit ch b) bts op = bts
            ∧ forallb id (zip_with (λ b ch, valid_at ch b) bts op)
              = number_occupied op bts) as [-> ->].
    { unfold number_occupied. clear IH. subst w. revert bts Hop.
      induction Hsym as [|ch op Hch _ IH]; intros [|b bts] [=]; [done|].
      destruct (IH bts ltac:(done)) as [IH1 IH2].
      cbn [zip_with forallb id]. rewrite IH1, IH2.
      destruct Hch as [-> | ->], b; split; reflexivity. }
    destruct (number_occupied op bts).
    - by rewrite decide_True.
    - by rewrite decide_False. }
  split; [by apply Hgen|].
  rewrite Hgen; [|apply length_replicate|by apply Forall_replicate; left].
  clear Hgen Hop Hsym. induction Hbm as [|bts bm Hbts _ IH]; [done|].
  rewrite filter_cons, IH. rewrite decide_True; [done|].
  rewrite <- Hbts. apply number_occupied_identity.
Qed.

(** X6: a symbol other than ["I"], ["+"], ["-"], ["n"] is not rejected:
    all three masks are false at its position, so it flips the occupation
    and imposes no condition.  A row made of such symbols keeps every
    configuration, with every bit flipped. *)
Theorem enlarge_batch_unrecognised (w : nat) (bm : list (list bool))
    (op : list ascii) :
  Forall (λ bts, length bts = w) bm → length op = w →
  Forall (λ ch, ¬ recognised ch) op →
  enlarge_batch_from_transitions bm [op] = map (map negb) bm.
Proof.
  intros Hbm Hop Hsym.
  rewrite enlarge_batch_single_op, (expand_op_pointwise w) by done.
  induction Hbm as [|bts bm Hbts _ IH]; [done|].
  cbn [omap list_omap map]. rewrite IH.
  assert (zip_with (λ b ch, new_bit ch b) bts op = map negb bts
          ∧ forallb id (zip_with (λ b ch, valid_at ch b) bts op) = true)
    as [-> ->]; [|done].
  clear IH. subst w. revert bts Hop.
  induction Hsym as [|ch op Hch _ IH]; intros [|b bts] [=]; [done|].
  destruct (IH bts ltac:(done)) as [IH1 IH2].
  cbn [zip_with forallb id map]. rewrite IH1, IH2.
  unfold new_bit, valid_at, recognised in *.
  destruct (Ascii.eqb_spec "I" ch); [subst; tauto|].
  destruct (Ascii.eqb_spec "n" ch); [subst; tauto|].
  destruct (Ascii.eqb_spec "+" ch); [subst; tauto|].
  destruct (Ascii.eqb_spec "-" ch); [subst; tauto|].
  by destruct b.
Qed.

Lemma expand_op_app (bm1 bm2 : list (list bool)) (op : list ascii) :
  expand_op (bm1 ++ bm2) op = expand_op bm1 op ++ expand_op bm2 op.
Proof.
  unfold expand_op. rewrite map_app, filter_app.
  change (?l.*1) with (map fst l). apply map_app.
Qed.

Lemma length_expand_op (bm : list (list bool)) (op : list ascii) :
  length (expand_op bm op) ≤ length bm.
Proof.
  unfold expand_op. rewrite length_fmap.
  etrans; [apply length_filter|]. by rewrite length_map.
Qed.

(** X7: the output is ordered operator by operator: it is the
    concatenation, over the operator rows in their order, of what each row
    gives alone; within one row the configurations keep their order, so that
    a batch split in two gives the two outputs in sequence; and there are at
    most [len(operators) * len(configurations)] output rows. *)
Theorem enlarge_batch_order (bm bm1 bm2 : list (list bool))
    (ops : list (list ascii)) (op : list ascii) :
  enlarge_batch_from_transitions bm ops
  = concat (map (λ op, enlarge_batch_from_transitions bm [op]) ops)
  ∧ enlarge_batch_from_transitions (bm1 ++ bm2) [op]
    = enlarge_batch_from_transitions bm1 [op]
      ++ enlarge_batch_from_transitions bm2 [op]
  ∧ length (enlarge_batch_from_transitions bm ops) ≤ length ops * length bm.
Proof.
  split; [|split].
  - rewrite enlarge_batch_expand_op. f_equal. apply map_ext.
    intros op'. by rewrite enlarge_batch_single_op.
  - rewrite !enlarge_batch_single_op. apply expand_op_app.
  - rewrite enlarge_batch_expand_op.
    induction ops as [|op' ops IH]; [done|].
    cbn [map concat length]. rewrite length_app.
    pose proof (length_expand_op bm op'). lia.
Qed.

(** *** Occupation numbers *)

Lemma occupation_cons (b : bool) (bts : list bool) :
  occupation (b :: bts) = (if b then 1 else 0) + occupation bts.
Proof. unfold occupation. rewrite filter_cons. by destruct b. Qed.

Lemma count_symbol_cons (ch c : ascii) (op : list ascii) :
  count_symbol ch (c :: op)
  = (if Ascii.eqb c ch then 1 else 0) + count_symbol ch op.
Proof.
  unfold count_symbol. rewrite filter_cons.
  destruct (Ascii.eqb_spec c ch) as [->|Hne].
  - by rewrite decide_True.
  - by rewrite decide_False.
Qed.

(** A kept pair gains one electron per ["+"] and loses one per ["-"]. *)
Lemma occupation_of_kept_pair (bts : list bool) (op : list ascii) :
  length op = length bts → Forall recognised op →
  forallb id (zip_with (λ b ch, valid_at ch b) bts op) = true →
  occupation (zip_with (λ b ch, new_bit ch b) bts op) + count_symbol "-" op
  = occupation bts + count_symbol "+" op.
Proof.
  intros Hlen Hsym. revert bts Hlen.
  induction Hsym as [|ch op Hch _ IH]; intros [|b bts] [=] Hvalid; [done|].
  cbn [zip_with forallb id] in *. apply andb_true_iff in Hvalid as [Hhd Htl].
  specialize (IH bts ltac:(done) Htl).
  rewrite !occupation_cons, !count_symbol_cons.
  destruct Hch as [-> | [-> | [-> | ->]]], b; simpl in *; try done; lia.
Qed.

(** X8: when the operator row is made of the four symbols and every
    configuration of the batch has [N] occupied orbitals, every output row
    has the width of the input and [N] plus the number of ["+"] minus the
    number of ["-"] occupied orbitals. *)
Theorem enlarge_batch_occupation (w N : nat) (bm : list (list bool))
    (op : list ascii) :
  Forall (λ bts, length bts = w) bm → length op = w →
  Forall recognised op →
  Forall (λ bts, occupation bts = N) bm →
  Forall (λ row, length row = w
                 ∧ occupation row + count_symbol "-" op
                   = N + count_symbol "+" op)
         (enlarge_batch_from_transitions bm [op]).
Proof.
  intros Hbm Hop Hsym HN.
  rewrite enlarge_batch_single_op, (expand_op_pointwise w) by done.
  induction Hbm as [|bts bm Hbts _ IH]; [constructor|].
  apply Forall_cons in HN as [HNbts HN]. specialize (IH HN).
  cbn [omap list_omap].
  destruct (forallb id _) eqn:Hvalid; [|exact IH].
  constructor; [|exact IH]. split.
  - rewrite length_zip_with. lia.
  - rewrite occupation_of_kept_pair by (done || lia). by rewrite HNbts.
Qed.

(** Witnesses: two orbitals per spin, one electron each. *)
Lemma enlarge_batch_diagonal_witness :
  (Forall (λ bts : list bool, length bts = 2) [[true; false]; [false; true]]
   ∧ length ["n"; "I"]%char = 2
   ∧ Forall (λ ch, ch = "I"%char ∨ ch = "n"%char) ["n"; "I"]%char)
  ∧ enlarge_batch_from_transitions [[true; false]; [false; true]]
                                   [["n"; "I"]%char]
    = [[true; false]].
Proof.
  assert (Forall (λ bts : list bool, length bts = 2)
                 [[true; false]; [false; true]]) as Hbm
    by (by repeat constructor).
  assert (Forall (λ ch, ch = "I"%char ∨ ch = "n"%char) ["n"; "I"]%char)
    as Hsym by (repeat constructor; auto).
  split; [by split|].
  rewrite (proj1 (enlarge_batch_diagonal 2 _ ["n"; "I"]%char
                    Hbm eq_refl Hsym)).
  reflexivity.
Defined.

Lemma enlarge_batch_unrecognised_witness :
  (Forall (λ bts : list bool, length bts = 2) [[true; false]; [false; true]]
   ∧ length ["x"; "i"]%char = 2
   ∧ Forall (λ ch, ¬ recognised ch) ["x"; "i"]%char)
  ∧ enlarge_batch_from_transitions [[true; false]; [false; true]]
                                   [["x"; "i"]%char]
    = [[false; true]; [true; false]].
Proof.
  assert (Forall (λ bts : list bool, length bts = 2)
                 [[true; false]; [false; true]]) as Hbm
    by (by repeat constructor).
  assert (Forall (λ ch, ¬ recognised ch) ["x"; "i"]%char) as Hsym.
  { apply Forall_forall. intros ch Hch [? | [? | [? | ?]]]; subst;
      repeat (apply elem_of_cons in Hch as [Hch|Hch]; [discriminate|]);
      by apply elem_of_nil in Hch. }
  split; [by split|].
  rewrite (enlarge_batch_unrecognised 2 _ ["x"; "i"]%char Hbm eq_refl Hsym).
  reflexivity.
Defined.

Lemma enlarge_batch_occupation_witness :
  (Forall (λ bts : list bool, length bts = 3)
          [[true; false; false]; [false; false; true]]
   ∧ length ["-"; "+"; "+"]%char = 3
   ∧ Forall recognised ["-"; "+"; "+"]%char
   ∧ Forall (λ bts, occupation bts = 1)
            [[true; false; false]; [false; false; true]])
  ∧ Forall (λ row, length row = 3
                   ∧ occupation row + count_symbol "-" ["-"; "+"; "+"]%char
                     = 1 + count_symbol "+" ["-"; "+"; "+"]%char)
           (enlarge_batch_from_transitions
              [[true; false; false]; [false; false; true]]
              [["-"; "+"; "+"]%char]).
Proof.
  assert (Forall (λ bts : list bool, length bts = 3)
                 [[true; false; false]; [false; false; true]]) as Hbm
    by (by repeat constructor).
  assert (Forall recognised ["-"; "+"; "+"]%char) as Hsym.
  { unfold recognised. apply Forall_forall. intros ch Hch.
    repeat (apply elem_of_cons in Hch as [->|Hch]; [auto|]).
    by apply elem_of_nil in Hch. }
  assert (Forall (λ bts, occupation bts = 1)
                 [[true; false; false]; [false; false; true]]) as HN
    by (by repeat constructor).
  split; [by split; [|split; [|split]]|].
  exact (enlarge_batch_occupation 3 1 _ ["-"; "+"; "+"]%char Hbm eq_refl
           Hsym HN).
Defined.

End ExpanderMoreFacts.

(** ** ConfigurationCodec: validation and occupation numbers *)

Module CodecMoreFacts.
Import Codec Addresses Counting Loop CodecFacts.
Local Open Scope Z_scope.

(** *** What decides the outcome of [_check_ci_strs] *)

Lemma check_sector_uniform s ham0 i addrs :
  Forall (λ a, popcountZ a = ham0) addrs → check_sector s ham0 i addrs = Ok tt.
Proof.
  intros Hall.
  destruct (check_sector_spec s ham0 i addrs)
    as [[Hok _]|(j & a & Hj & Ha & _)]; [done|].
  rewrite Forall_forall in Hall. destruct Ha. apply Hall.
  by eapply list_elem_of_lookup_2.
Qed.

(** The index that the error names is the first one that differs. *)
Lemma check_sector_first s ham0 i addrs s' h0 k h :
  check_sector s ham0 i addrs = Raise (ValueError_hamming s' h0 k h) →
  s' = s ∧ h0 = ham0 ∧ (i ≤ k)%nat
  ∧ popcountZ <$> addrs !! (k - i)%nat = Some h ∧ h ≠ ham0
  ∧ ∀ j a, (j < k - i)%nat → addrs !! j = Some a → popcountZ a = ham0.
Proof.
  revert i. induction addrs as [|a addrs IH]; intros i; cbn [check_sector];
    [done|].
  rewrite hamming_popcountZ.
  destruct (Nat.eqb_spec (popcountZ a) ham0) as [Heq|Hne]; cbn [negb].
  - intros Herr. destruct (IH _ Herr) as (-> & -> & Hle & Hk & Hh & Hfirst).
    replace (k - i)%nat with (S (k - S i)) by lia.
    repeat split; [lia|done..|].
    intros [|j] b Hj; simpl; [by intros [= <-]|].
    apply Hfirst. lia.
  - intros [= <- <- <- <-]. rewrite Nat.sub_diag. repeat split; [done..|].
    intros j b Hj. lia.
Qed.

Lemma np_unique_nil_inv l : np_unique l = [] → l = [].
Proof.
  destruct l as [|x l]; [done|]. intros Hnil.
  pose proof (proj2 (elem_of_np_unique x (x :: l)) ltac:(left)) as Hx.
  rewrite Hnil in Hx. by apply elem_of_nil in Hx.
Qed.

Lemma np_unique_ext l1 l2 :
  (∀ x, x ∈ l1 ↔ x ∈ l2) → np_unique l1 = np_unique l2.
Proof.
  intros Heq. apply increasing_ext; [apply np_unique_increasing..|].
  intros x. by rewrite !elem_of_np_unique.
Qed.

Lemma np_unique_idemp l : np_unique (np_unique l) = np_unique l.
Proof. apply np_unique_ext. intros x. apply elem_of_np_unique. Qed.

Lemma uniform_np_unique l : uniform l → uniform (np_unique l).
Proof.
  intros Hu a b Ha Hb.
  apply Hu; by apply (proj1 (elem_of_np_unique _ _)).
Qed.

Lemma check_ci_strs_Ok (up dn : list Z) (r : list Z * list Z) :
  _check_ci_strs (up, dn) = Ok r
  ↔ up ≠ [] ∧ dn ≠ [] ∧ uniform up ∧ uniform dn
    ∧ r = (np_unique up, np_unique dn).
Proof.
  unfold _check_ci_strs. split.
  - destruct up as [|u0 up]; [done|]. cbn [lookup list_lookup].
    destruct (check_sector_spec Up (hamming u0) 0 (u0 :: up))
      as [[-> Hu]|(? & ? & _ & _ & ->)]; [|done].
    cbn [rbind]. destruct dn as [|d0 dn]; [done|]. cbn [lookup list_lookup].
    destruct (check_sector_spec Dn (hamming d0) 0 (d0 :: dn))
      as [[-> Hd]|(? & ? & _ & _ & ->)]; [|done].
    cbn [rbind]. rewrite !np_sort_np_unique. intros [= <-].
    rewrite hamming_popcountZ in Hu, Hd.
    by repeat split; try apply uniform_Forall.
  - intros (Hup & Hdn & Hu & Hd & ->).
    destruct up as [|u0 up]; [done|]. destruct dn as [|d0 dn]; [done|].
    cbn [lookup list_lookup]. apply uniform_Forall in Hu, Hd.
    rewrite !check_sector_uniform by (by rewrite hamming_popcountZ).
    cbn [rbind]. by rewrite !np_sort_np_unique.
Qed.

(** X9: a pair that [_check_ci_strs] returns passes the check again and
    comes back unchanged; each sector of it is strictly increasing and has
    the elements of the sector that went in. *)
Theorem check_ci_strs_idempotent (ci_strs ci_strs' : list Z * list Z) :
  _check_ci_strs ci_strs = Ok ci_strs' →
  _check_ci_strs ci_strs' = Ok ci_strs'
  ∧ increasing ci_strs'.1 ∧ increasing ci_strs'.2
  ∧ (∀ x, x ∈ ci_strs'.1 ↔ x ∈ ci_strs.1)
  ∧ (∀ x, x ∈ ci_strs'.2 ↔ x ∈ ci_strs.2).
Proof.
  destruct ci_strs as [up dn].
  intros (Hup & Hdn & Hu & Hd & ->)%check_ci_strs_Ok. cbn [fst snd].
  split; [|by repeat split;
             (apply np_unique_increasing || apply elem_of_np_unique)].
  apply check_ci_strs_Ok. rewrite !np_unique_idemp.
  repeat split; try by apply uniform_np_unique.
  - by intros ?%np_unique_nil_inv.
  - by intros ?%np_unique_nil_inv.
Qed.

(** X10: the Hamming-weight error names the first index of its sector whose
    population count differs from that of index 0, and the spin-down sector
    is only reported when the spin-up sector is non-empty and uniform. *)
Theorem check_ci_strs_first_mismatch (up dn : list Z) s ham0 i ham :
  _check_ci_strs (up, dn) = Raise (ValueError_hamming s ham0 i ham) →
  popcountZ <$> sector_of s (up, dn) !! 0%nat = Some ham0
  ∧ popcountZ <$> sector_of s (up, dn) !! i = Some ham
  ∧ ham ≠ ham0
  ∧ (∀ j a, (j < i)%nat → sector_of s (up, dn) !! j = Some a →
            popcountZ a = ham0)
  ∧ (s = Dn → up ≠ [] ∧ uniform up).
Proof.
  unfold _check_ci_strs.
  destruct up as [|u0 up]; [done|]. cbn [lookup list_lookup].
  destruct (check_sector Up (hamming u0) 0 (u0 :: up)) as [[]|e] eqn:Hup;
    cbn [rbind].
  - destruct dn as [|d0 dn]; [done|]. cbn [lookup list_lookup].
    destruct (check_sector Dn (hamming d0) 0 (d0 :: dn)) as [[]|e] eqn:Hdn;
      cbn [rbind]; [done|].
    intros [= ->].
    apply check_sector_first in Hdn as (-> & -> & _ & Hi & Hne & Hfirst).
    rewrite Nat.sub_0_r in Hi, Hfirst. rewrite hamming_popcountZ in *.
    cbn [sector_of snd]. do 3 (split; [done|]). split; [exact Hfirst|].
    intros _. split; [done|].
    destruct (check_sector_spec Up (popcountZ u0) 0 (u0 :: up))
      as [[_ Hu]|(? & ? & _ & _ & Habs)]; [|congruence].
    by apply uniform_Forall.
  - intros [= ->].
    apply check_sector_first in Hup as (-> & -> & _ & Hi & Hne & Hfirst).
    rewrite Nat.sub_0_r in Hi, Hfirst. rewrite hamming_popcountZ in *.
    cbn [sector_of fst]. do 3 (split; [done|]). split; [exact Hfirst|].
    done.
Qed.

Lemma check_ci_strs_first_mismatch_witness :
  _check_ci_strs ([1; 2; 4; 3; 7], [1]) = Raise (ValueError_hamming Up 1 3 2)
  ∧ ∀ j a, (j < 3)%nat → [1; 2; 4; 3; 7] !! j = Some a → popcountZ a = 1%nat.
Proof.
  assert (_check_ci_strs ([1; 2; 4; 3; 7], [1])
          = Raise (ValueError_hamming Up 1 3 2)) as Herr by reflexivity.
  split; [exact Herr|].
  exact (proj1 (proj2 (proj2 (proj2
           (check_ci_strs_first_mismatch _ _ _ _ _ _ Herr))))).
Defined.

Lemma check_ci_strs_idempotent_witness :
  _check_ci_strs ([4; 1; 2; 1], [5; 3]) = Ok ([1; 2; 4], [3; 5])
  ∧ _check_ci_strs ([1; 2; 4], [3; 5]) = Ok ([1; 2; 4], [3; 5]).
Proof.
  assert (_check_ci_strs ([4; 1; 2; 1], [5; 3]) = Ok ([1; 2; 4], [3; 5]))
    as Hok by reflexivity.
  split; [exact Hok|].
  exact (proj1 (check_ci_strs_idempotent _ _ Hok)).
Defined.

(** *** The determinants as a function of the rows *)

Lemma ci_str_rows (m : bitstring_matrix) :
  let norb := (bm_shape1 m / 2)%nat in
  ci_str_left m = map (λ row, encode_half norb (take norb row)) (bm_rows m)
  ∧ ci_str_right m = map (λ row, encode_half norb (drop norb row)) (bm_rows m).
Proof.
  cbv zeta. unfold ci_str_left, ci_str_right.
  by rewrite !accumulate_rows, !map_map.
Qed.

Lemma ci_strs_unfold (m : bitstring_matrix) (open_shell : bool) :
  bitstring_matrix_to_ci_strs m open_shell
  = if open_shell
    then (np_unique (ci_str_right m), np_unique (ci_str_left m))
    else (np_union1d (np_unique (ci_str_left m)) (np_unique (ci_str_right m)),
          np_union1d (np_unique (ci_str_left m)) (np_unique (ci_str_right m))).
Proof. done. Qed.

Lemma elem_of_map_ext {A B} (f : A → B) (l1 l2 : list A) :
  (∀ x, x ∈ l1 ↔ x ∈ l2) → ∀ y, y ∈ map f l1 ↔ y ∈ map f l2.
Proof.
  intros Heq y. change (map f ?l) with (f <$> l).
  rewrite !list_elem_of_fmap. by setoid_rewrite Heq.
Qed.

(** X11: the result depends on the rows only as a set: neither the order of
    the rows nor repeated rows change it. *)
Theorem ci_strs_set_of_rows (m1 m2 : bitstring_matrix) (open_shell : bool) :
  bm_shape1 m1 = bm_shape1 m2 →
  (∀ row, row ∈ bm_rows m1 ↔ row ∈ bm_rows m2) →
  bitstring_matrix_to_ci_strs m1 open_shell
  = bitstring_matrix_to_ci_strs m2 open_shell.
Proof.
  intros Hshape Hrows.
  assert (np_unique (ci_str_left m1) = np_unique (ci_str_left m2)) as Hl.
  { apply np_unique_ext. rewrite (proj1 (ci_str_rows m1)),
      (proj1 (ci_str_rows m2)), Hshape. by apply elem_of_map_ext. }
  assert (np_unique (ci_str_right m1) = np_unique (ci_str_right m2)) as Hr.
  { apply np_unique_ext. rewrite (proj2 (ci_str_rows m1)),
      (proj2 (ci_str_rows m2)), Hshape. by apply elem_of_map_ext. }
  by rewrite !ci_strs_unfold, Hl, Hr.
Qed.

Lemma ci_strs_set_of_rows_witness :
  let m1 := BitstringMatrix [[true; false; false; true];
                             [false; true; true; false];
                             [true; false; false; true]] 4 in
  let m2 := BitstringMatrix [[false; true; true; false];
                             [true; false; false; true]] 4 in
  (bm_shape1 m1 = bm_shape1 m2
   ∧ ∀ row, row ∈ bm_rows m1 ↔ row ∈ bm_rows m2)
  ∧ bitstring_matrix_to_ci_strs m1 true = bitstring_matrix_to_ci_strs m2 true.
Proof.
  cbv zeta.
  assert (∀ row : list bool,
            row ∈ [[true; false; false; true]; [false; true; true; false];
                   [true; false; false; true]]
            ↔ row ∈ [[false; true; true; false]; [true; false; false; true]])
    as Hrows.
  { intros row. rewrite !elem_of_cons, elem_of_nil. tauto. }
  split; [by split|].
  by apply ci_strs_set_of_rows.
Defined.

(** X13: the deprecated [bitstring_matrix_to_sorted_addresses] returns the
    two arrays of [bitstring_matrix_to_ci_strs] in the opposite order: left
    half first. *)
Theorem sorted_addresses_swapped (m : bitstring_matrix) (open_shell : bool) :
  bitstring_matrix_to_sorted_addresses m open_shell
  = ((bitstring_matrix_to_ci_strs m open_shell).2,
     (bitstring_matrix_to_ci_strs m open_shell).1)
  ∧ (bitstring_matrix_to_sorted_addresses m open_shell).1
    = np_unique (if open_shell then ci_str_left m
                 else ci_str_left m ++ ci_str_right m).
Proof.
  split.
  - unfold bitstring_matrix_to_sorted_addresses, bitstring_matrix_to_ci_strs.
    by destruct open_shell.
  - unfold bitstring_matrix_to_sorted_addresses.
    destruct open_shell; cbn [fst]; [done|].
    unfold np_union1d. apply np_unique_ext. intros x.
    rewrite !elem_of_app, !elem_of_np_unique. done.
Qed.

(** *** Population count and occupation *)

Lemma popcountZ_double (x : Z) (b : bool) :
  0 ≤ x → popcountZ (2 * x + b2z b) = (popcountZ x + if b then 1 else 0)%nat.
Proof.
  intros Hx. destruct x as [|p|p]; [by destruct b| |lia].
  destruct b; simpl; rewrite Pos.mul_1_l; lia.
Qed.

Lemma occupation_snoc (bits : list bool) (b : bool) :
  occupation (bits ++ [b]) = (occupation bits + if b then 1 else 0)%nat.
Proof.
  unfold occupation. rewrite filter_app, length_app. f_equal.
  rewrite filter_cons. by destruct b.
Qed.

(** The population count of a determinant is the number of occupied
    orbitals of its half-row. *)
Lemma popcountZ_big_endian (bits : list bool) :
  popcountZ (big_endian bits) = occupation bits.
Proof.
  induction bits as [|b bits IH] using rev_ind; [done|].
  rewrite big_endian_snoc, occupation_snoc, <- IH.
  apply popcountZ_double, big_endian_bound.
Qed.

Lemma ci_str_halves (m : bitstring_matrix) :
  bm_wf m → (bm_shape1 m / 2 ≤ 53)%nat →
  let norb := (bm_shape1 m / 2)%nat in
  ci_str_left m = map (λ row, big_endian (take norb row)) (bm_rows m)
  ∧ ci_str_right m
    = map (λ row, big_endian (take norb (drop norb row))) (bm_rows m).
Proof.
  intros Hwf Hnorb norb.
  pose proof (Nat.div_mod_eq (bm_shape1 m) 2) as Hdiv. fold norb in Hdiv.
  destruct (ci_str_rows m) as [-> ->]. fold norb.
  unfold bm_wf in Hwf. rewrite Forall_forall in Hwf.
  split; apply map_ext_in; intros row Hrow%list_elem_of_In%Hwf.
  - rewrite encode_half_big_endian; [|done|rewrite length_take; lia].
    by rewrite take_take, Nat.min_id.
  - apply encode_half_big_endian; [done|rewrite length_drop; lia].
Qed.

Lemma check_ci_strs_outcome (up dn : list Z) :
  up ≠ [] → dn ≠ [] →
  (∃ r, _check_ci_strs (up, dn) = Ok r) ∨ is_hamming_error (_check_ci_strs (up, dn)).
Proof.
  intros Hup Hdn. unfold _check_ci_strs.
  destruct up as [|u0 up]; [done|]. destruct dn as [|d0 dn]; [done|].
  cbn [lookup list_lookup].
  destruct (check_sector_spec Up (hamming u0) 0 (u0 :: up))
    as [[-> _]|(? & ? & _ & _ & ->)]; cbn [rbind];
    [|right; by repeat eexists].
  destruct (check_sector_spec Dn (hamming d0) 0 (d0 :: dn))
    as [[-> _]|(? & ? & _ & _ & ->)]; cbn [rbind];
    [left; by eexists|right; by repeat eexists].
Qed.

Lemma np_unique_increasing_id l : increasing l → np_unique l = l.
Proof.
  intros Hl. apply increasing_ext; [apply np_unique_increasing|done|].
  intros x. apply elem_of_np_unique.
Qed.

(** The prologue on two increasing, non-empty, uniform sectors. *)
Lemma validated_of_uniform (a b : list Z) (nup ndn : nat) :
  increasing a → increasing b → a ≠ [] → b ≠ [] →
  Forall (λ x, popcountZ x = nup) a → Forall (λ x, popcountZ x = ndn) b →
  rbind (_check_ci_strs (a, b)) (λ ci_strs,
    match ci_strs.1 !! 0%nat, ci_strs.2 !! 0%nat with
    | Some up0, Some dn0 => Ok (ci_strs, (hamming up0, hamming dn0))
    | _, _ => Raise IndexError
    end)
  = Ok ((a, b), (nup, ndn)).
Proof.
  intros Ha Hb Hane Hbne Hup Hdn.
  rewrite (proj2 (check_ci_strs_Ok a b (np_unique a, np_unique b))).
  - rewrite !np_unique_increasing_id by done. cbn [rbind fst snd].
    destruct a as [|a0 a]; [done|]. destruct b as [|b0 b]; [done|].
    cbn [lookup list_lookup]. rewrite !hamming_popcountZ.
    apply Forall_cons in Hup as [-> _]. by apply Forall_cons in Hdn as [-> _].
  - rewrite Forall_forall in Hup. rewrite Forall_forall in Hdn.
    repeat split; [done..| |].
    + intros x y Hx Hy. by rewrite (Hup x), (Hup y).
    + intros x y Hx Hy. by rewrite (Hdn x), (Hdn y).
Qed.

Lemma validated_ci_strs_bitstrings (m : bitstring_matrix) (open_shell : bool) :
  validated_ci_strs (Bitstrings m) open_shell
  = rbind (_check_ci_strs (bitstring_matrix_to_ci_strs m open_shell))
      (λ ci_strs,
         match ci_strs.1 !! 0%nat, ci_strs.2 !! 0%nat with
         | Some up0, Some dn0 => Ok (ci_strs, (hamming up0, hamming dn0))
         | _, _ => Raise IndexError
         end).
Proof. done. Qed.

Lemma elem_of_ci_str_left (m : bitstring_matrix) (x : Z) :
  bm_wf m → (bm_shape1 m / 2 ≤ 53)%nat →
  x ∈ ci_str_left m
  ↔ ∃ row, row ∈ bm_rows m ∧ x = big_endian (take (bm_shape1 m / 2) row).
Proof.
  intros Hwf Hnorb. rewrite (proj1 (ci_str_halves m Hwf Hnorb)).
  change (map ?f ?l) with (f <$> l). rewrite list_elem_of_fmap.
  split; intros (row & ? & ?); by exists row.
Qed.

Lemma elem_of_ci_str_right (m : bitstring_matrix) (x : Z) :
  bm_wf m → (bm_shape1 m / 2 ≤ 53)%nat →
  x ∈ ci_str_right m
  ↔ ∃ row, row ∈ bm_rows m
      ∧ x = big_endian (take (bm_shape1 m / 2) (drop (bm_shape1 m / 2) row)).
Proof.
  intros Hwf Hnorb. rewrite (proj2 (ci_str_halves m Hwf Hnorb)).
  change (map ?f ?l) with (f <$> l). rewrite list_elem_of_fmap.
  split; intros (row & ? & ?); by exists row.
Qed.

(** The two sectors of [bitstring_matrix_to_ci_strs], by their elements. *)
Lemma elem_of_ci_strs (m : bitstring_matrix) (open_shell : bool) (x : Z) :
  (x ∈ (bitstring_matrix_to_ci_strs m open_shell).1
   ↔ x ∈ ci_str_right m ∨ (open_shell = false ∧ x ∈ ci_str_left m))
  ∧ (x ∈ (bitstring_matrix_to_ci_strs m open_shell).2
     ↔ x ∈ ci_str_left m ∨ (open_shell = false ∧ x ∈ ci_str_right m)).
Proof.
  rewrite ci_strs_unfold. destruct open_shell; cbn [fst snd].
  - rewrite !elem_of_np_unique. split; (split; [tauto|]);
      by intros [?|[? _]].
  - rewrite elem_of_np_union1d, !elem_of_np_unique. tauto.
Qed.

Lemma ci_strs_increasing (m : bitstring_matrix) (open_shell : bool) :
  increasing (bitstring_matrix_to_ci_strs m open_shell).1
  ∧ increasing (bitstring_matrix_to_ci_strs m open_shell).2.
Proof.
  rewrite ci_strs_unfold.
  destruct open_shell; split; apply np_unique_increasing.
Qed.

Lemma ci_strs_nonempty (m : bitstring_matrix) (open_shell : bool) :
  bm_rows m ≠ [] →
  (bitstring_matrix_to_ci_strs m open_shell).1 ≠ []
  ∧ (bitstring_matrix_to_ci_strs m open_shell).2 ≠ [].
Proof.
  intros Hrows.
  assert (∃ x, x ∈ ci_str_left m) as [xl Hxl].
  { rewrite (proj1 (ci_str_rows m)). destruct (bm_rows m); [done|].
    eexists. by left. }
  assert (∃ x, x ∈ ci_str_right m) as [xr Hxr].
  { rewrite (proj2 (ci_str_rows m)). destruct (bm_rows m); [done|].
    eexists. by left. }
  split; intros Hnil.
  - pose proof (proj2 (proj1 (elem_of_ci_strs m open_shell xr))
                  (or_introl Hxr)) as Hin.
    rewrite Hnil in Hin. by apply elem_of_nil in Hin.
  - pose proof (proj2 (proj2 (elem_of_ci_strs m open_shell xl))
                  (or_introl Hxl)) as Hin.
    rewrite Hnil in Hin. by apply elem_of_nil in Hin.
Qed.

(** X12: for a non-empty matrix with at most 53 orbitals per half, the
    prologue of [solve_fermion] and [optimize_orbitals] accepts the
    configurations exactly when every row has one number [nup] of occupied
    orbitals in its right half and one number [ndn] in its left half (with
    [nup = ndn] unless [open_shell]); it then passes on the determinants of
    [bitstring_matrix_to_ci_strs] unchanged, with the electron counts
    [(nup, ndn)]; otherwise it raises the Hamming-weight error. *)
Theorem validated_ci_strs_occupation (m : bitstring_matrix)
    (open_shell : bool) :
  bm_wf m → (bm_shape1 m / 2 ≤ 53)%nat → bm_rows m ≠ [] →
  let norb := (bm_shape1 m / 2)%nat in
  let uniform_rows nup ndn :=
    Forall (λ row, occupation (take norb (drop norb row)) = nup
                   ∧ occupation (take norb row) = ndn) (bm_rows m)
    ∧ (open_shell = false → nup = ndn) in
  (∀ nup ndn, uniform_rows nup ndn →
     validated_ci_strs (Bitstrings m) open_shell
     = Ok (bitstring_matrix_to_ci_strs m open_shell, (nup, ndn)))
  ∧ ((¬ ∃ nup ndn, uniform_rows nup ndn) →
     is_hamming_error (validated_ci_strs (Bitstrings m) open_shell)).
Proof.
  intros Hwf Hnorb Hrows norb uniform_rows.
  pose proof (ci_strs_increasing m open_shell) as [Hinc1 Hinc2].
  pose proof (ci_strs_nonempty m open_shell Hrows) as [Hne1 Hne2].
  rewrite validated_ci_strs_bitstrings.
  destruct (bitstring_matrix_to_ci_strs m open_shell) as [a b] eqn:Hci.
  assert (∀ x, (x ∈ a ↔ x ∈ ci_str_right m
                       ∨ (open_shell = false ∧ x ∈ ci_str_left m))
               ∧ (x ∈ b ↔ x ∈ ci_str_left m
                         ∨ (open_shell = false ∧ x ∈ ci_str_right m)))
    as Helem.
  { intros x. pose proof (elem_of_ci_strs m open_shell x) as Hx.
    by rewrite Hci in Hx. }
  cbn [fst snd] in *. split.
  - intros nup ndn [Hall Hos]. rewrite Forall_forall in Hall.
    apply validated_of_uniform; try done.
    + apply Forall_forall. intros x [Hx|[Hos' Hx]]%Helem.
      * apply elem_of_ci_str_right in Hx as (row & Hrow & ->); [|done..].
        rewrite popcountZ_big_endian. by apply Hall.
      * apply elem_of_ci_str_left in Hx as (row & Hrow & ->); [|done..].
        rewrite popcountZ_big_endian, (Hos Hos'). by apply Hall.
    + apply Forall_forall. intros x [Hx|[Hos' Hx]]%Helem.
      * apply elem_of_ci_str_left in Hx as (row & Hrow & ->); [|done..].
        rewrite popcountZ_big_endian. by apply Hall.
      * apply elem_of_ci_str_right in Hx as (row & Hrow & ->); [|done..].
        rewrite popcountZ_big_endian, <- (Hos Hos'). by apply Hall.
  - intros Hnot.
    destruct (check_ci_strs_outcome a b Hne1 Hne2) as [[r Hok]|Herr].
    + destruct Hnot.
      apply check_ci_strs_Ok in Hok as (_ & _ & Hua & Hub & _).
      destruct (bm_rows m) as [|row0 rows] eqn:Hrows0; [done|].
      assert (row0 ∈ bm_rows m) as Hrow0 by (rewrite Hrows0; by left).
      assert (∀ row, row ∈ bm_rows m →
                big_endian (take norb (drop norb row)) ∈ a
                ∧ big_endian (take norb row) ∈ b) as Hin.
      { intros row Hrow. split; apply Helem; left.
        - apply elem_of_ci_str_right; eauto.
        - apply elem_of_ci_str_left; eauto. }
      exists (occupation (take norb (drop norb row0))),
             (occupation (take norb row0)).
      split.
      * apply Forall_forall. intros row Hrow. rewrite <- Hrows0 in Hrow.
        rewrite <- !popcountZ_big_endian. split.
        -- apply Hua; by apply Hin.
        -- apply Hub; by apply Hin.
      * intros ->. rewrite <- !popcountZ_big_endian.
        apply Hua; [by apply Hin|].
        apply Helem. right. split; [done|].
        apply elem_of_ci_str_left; eauto.
    + destruct Herr as (s & h0 & i & h & ->). by repeat eexists.
Qed.

Lemma validated_ci_strs_occupation_witness :
  let m := BitstringMatrix [[true; false; false; true];
                            [false; true; true; false]] 4 in
  (bm_wf m ∧ (bm_shape1 m / 2 ≤ 53)%nat ∧ bm_rows m ≠ [])
  ∧ validated_ci_strs (Bitstrings m) true = Ok (([1; 2], [1; 2]), (1%nat, 1%nat)).
Proof.
  cbv zeta.
  assert (bm_wf (BitstringMatrix [[true; false; false; true];
                                  [false; true; true; false]] 4)) as Hwf
    by (by repeat constructor).
  split; [split; [exact Hwf|split; [simpl; lia|done]]|].
  apply (proj1 (validated_ci_strs_occupation _ true Hwf
                  ltac:(simpl; lia) ltac:(done)) 1%nat 1%nat).
  split; [by repeat constructor|done].
Defined.

End CodecMoreFacts.

(** ** IntegralRotator: the entries of the generator *)

Module RotatorMoreFacts.
Import Rotator ArrayFacts RotatorFacts.

Lemma NoDup_pairs {A B} (l : list A) (f : A → list B) :
  NoDup l → (∀ x, NoDup (f x)) →
  NoDup (flat_map (λ x, map (λ y, (x, y)) (f x)) l).
Proof.
  intros Hl Hf. induction Hl as [|x l Hx Hl IH]; cbn [flat_map];
    [constructor|].
  apply NoDup_app. split; [|split; [|done]].
  - assert (Inj eq eq (λ y : B, (x, y))) by (by intros ?? [=]).
    by apply (NoDup_fmap_2 (λ y, (x, y))).
  - intros [a b] Hab%list_elem_of_In%in_map_iff Hrest%list_elem_of_In%in_flat_map.
    destruct Hab as (y & [= <- <-] & _).
    destruct Hrest as (x' & Hx'%list_elem_of_In & Hin%in_map_iff).
    destruct Hin as (y' & [= <- _] & _). done.
Qed.

Lemma NoDup_triu_indices n : NoDup (triu_indices n).
Proof. apply NoDup_pairs; [apply NoDup_seq|]. intros i. apply NoDup_seq. Qed.

Lemma NoDup_tril_indices n : NoDup (tril_indices n).
Proof. apply NoDup_pairs; [apply NoDup_seq|]. intros i. apply NoDup_seq. Qed.

Lemma triu_indices_range n i j : (i, j) ∈ triu_indices n → i < j ∧ j < n.
Proof.
  unfold triu_indices. intros Hin%list_elem_of_In%in_flat_map.
  destruct Hin as (a & Ha%in_seq & Hin).
  apply in_map_iff in Hin as (b & [= <- <-] & Hb%in_seq). lia.
Qed.

Lemma tril_indices_range n i j : (i, j) ∈ tril_indices n → j < i ∧ i < n.
Proof.
  unfold tril_indices. intros Hin%list_elem_of_In%in_flat_map.
  destruct Hin as (a & Ha%in_seq & Hin).
  apply in_map_iff in Hin as (b & [= <- <-] & Hb%in_seq). lia.
Qed.

Section RotatorMoreFacts.
Context {R : Type} `{Scalar R}.

Add Ring scalar_ring_gen : scalar_ring.

Lemma is_matrix_zeros n m : is_matrix n m (zeros (R:=R) n m).
Proof.
  split; [apply length_replicate|].
  apply Forall_replicate, length_replicate.
Qed.

Lemma is_matrix_alter_insert n m (K : list (list R)) a b v :
  is_matrix n m K → is_matrix n m (alter (λ row, <[b:=v]> row) a K).
Proof.
  intros [Hn Hm]. split; [by rewrite length_alter|].
  apply Forall_alter; [done|]. intros row _ Hrow. by rewrite length_insert.
Qed.

Lemma is_matrix_at_set n m (K : list (list R)) indices values :
  is_matrix n m K → is_matrix n m (at_set K indices values).
Proof.
  unfold at_set. revert K values.
  induction indices as [|[a b] indices IH]; intros K [|v values] HK;
    simpl; [done..|].
  apply IH. by apply is_matrix_alter_insert.
Qed.

Lemma mget_alter_insert_eq n m (K : list (list R)) i j v :
  is_matrix n m K → i < n → j < m →
  mget (alter (λ row, <[j:=v]> row) i K) i j = v.
Proof.
  intros [Hn Hm] Hi Hj. unfold mget. rewrite list_lookup_alter_eq.
  destruct (lookup_lt_is_Some_2 K i ltac:(lia)) as [row Hrow].
  rewrite Hrow. simpl. rewrite list_lookup_insert_eq; [done|].
  rewrite Forall_forall in Hm. rewrite (Hm row); [done|].
  by eapply list_elem_of_lookup_2.
Qed.

(** Scatter, then read: the [t]-th value is at the [t]-th position. *)
Lemma mget_at_set_lookup n m (K : list (list R)) indices values t i j v :
  is_matrix n m K → NoDup indices →
  indices !! t = Some (i, j) → values !! t = Some v → i < n → j < m →
  mget (at_set K indices values) i j = v.
Proof.
  intros HK Hnd. revert K values t HK.
  induction Hnd as [|[a b] indices Hnotin Hnd IH];
    intros K [|v0 values] [|t] HK Hidx Hval Hi Hj; try done.
  - injection Hidx as -> ->. injection Hval as ->.
    change (at_set K ((i, j) :: indices) (v :: values))
      with (at_set (alter (λ row, <[j:=v]> row) i K) indices values).
    rewrite mget_at_set_other by done.
    by apply (mget_alter_insert_eq n m).
  - change (at_set K ((a, b) :: indices) (v0 :: values))
      with (at_set (alter (λ row, <[b:=v0]> row) a K) indices values).
    apply (IH _ _ t); [by apply is_matrix_alter_insert|done..].
Qed.

(** X14: the generator holds [k_flat[t]] at the [t]-th position of the
    strict upper triangle and [-k_flat[t]] at the [t]-th position of the
    strict lower triangle, both triangles taken in row-major order. *)
Theorem generator_entries (k_flat : list R) (n t i j : nat) (v : R) :
  k_flat !! t = Some v →
  (triu_indices n !! t = Some (i, j) →
   mget (_antisymmetric_matrix_from_upper_tri k_flat n) i j = v)
  ∧ (tril_indices n !! t = Some (i, j) →
     mget (_antisymmetric_matrix_from_upper_tri k_flat n) i j = sopp v).
Proof.
  intros Hv. unfold _antisymmetric_matrix_from_upper_tri. split; intros Ht.
  - pose proof (list_elem_of_lookup_2 _ _ _ Ht) as [Hij Hjn]%triu_indices_range.
    rewrite mget_at_set_other.
    + apply (mget_at_set_lookup n n _ _ _ t);
        [apply is_matrix_zeros|apply NoDup_triu_indices|done..|lia|done].
    + intros Hin%tril_indices_range. lia.
  - pose proof (list_elem_of_lookup_2 _ _ _ Ht) as [Hji Hin]%tril_indices_range.
    apply (mget_at_set_lookup n n _ _ _ t);
      [apply is_matrix_at_set, is_matrix_zeros|apply NoDup_tril_indices|done
      | |done|lia].
    change (map sopp k_flat) with (sopp <$> k_flat).
    by rewrite list_lookup_fmap, Hv.
Qed.

(** X15: up to three orbitals, and for a [k_flat] of the length that the
    callers check, the generator is antisymmetric. *)
Theorem generator_antisymmetric_upto_3 (k_flat : list R) (n : nat) :
  n ≤ 3 → length k_flat = n * (n - 1) / 2 →
  ∀ i j,
    mget (_antisymmetric_matrix_from_upper_tri k_flat n) i j
    = sopp (mget (_antisymmetric_matrix_from_upper_tri k_flat n) j i).
Proof.
  intros Hn Hlen i j.
  destruct n as [|[|[|[|n]]]]; [| | | |lia]; simpl in Hlen.
  - destruct k_flat; [|done]. unfold mget; destruct i, j; simpl; ring.
  - destruct k_flat; [|done].
    destruct i as [|i], j as [|j]; unfold mget; simpl; ring.
  - destruct k_flat as [|a [|]]; try done.
    rewrite antisymmetric_matrix_dim2.
    destruct i as [|[|i]], j as [|[|j]]; unfold mget; simpl; ring.
  - destruct k_flat as [|a [|b [|c [|]]]]; try done.
    rewrite antisymmetric_matrix_dim3.
    destruct i as [|[|[|i]]], j as [|[|[|j]]]; unfold mget; simpl; ring.
Qed.

End RotatorMoreFacts.

Lemma generator_entries_witness :
  map qz [1; 2; 3; 4; 5; 6]%Z !! 2 = Some (qz 3)
  ∧ mget (_antisymmetric_matrix_from_upper_tri (map qz [1; 2; 3; 4; 5; 6]%Z) 4)
         0 3 = qz 3
  ∧ mget (_antisymmetric_matrix_from_upper_tri (map qz [1; 2; 3; 4; 5; 6]%Z) 4)
         2 1 = sopp (qz 3).
Proof.
  assert (map qz [1; 2; 3; 4; 5; 6]%Z !! 2 = Some (qz 3)) as Hv by reflexivity.
  split; [exact Hv|]. split.
  - exact (proj1 (generator_entries _ 4 2 0 3 _ Hv) eq_refl).
  - exact (proj2 (generator_entries _ 4 2 2 1 _ Hv) eq_refl).
Defined.

Lemma generator_antisymmetric_upto_3_witness :
  (3 ≤ 3 ∧ length (map qz [1; 2; 3]%Z) = 3 * (3 - 1) / 2)
  ∧ ∀ i j,
      mget (_antisymmetric_matrix_from_upper_tri (map qz [1; 2; 3]%Z) 3) i j
      = sopp (mget (_antisymmetric_matrix_from_upper_tri (map qz [1; 2; 3]%Z) 3)
                   j i).
Proof.
  split; [by split|].
  apply generator_antisymmetric_upto_3; [lia|reflexivity].
Defined.

End RotatorMoreFacts.

(** ** GradientOptimizer and the outer loop: outcomes *)

Module LoopMoreFacts.
Import Codec Rotator Optimizer Loop CodecFacts RotatorFacts OptimizerFacts
       LoopFacts.

Section LoopMoreFacts.
Context {R : Type} `{Scalar R} `{Collaborators R}.

Add Ring scalar_ring_loop : scalar_ring.

Lemma vsub_zeros (k : list R) : vsub k (replicate (length k) s0) = k.
Proof.
  unfold vsub. induction k as [|x k IH]; [done|].
  cbn [length replicate zip_with]. rewrite IH. f_equal. ring.
Qed.

Lemma vadd_vscale_zero (momentum : R) (g : list R) :
  vadd (vscale s0 g) (vscale momentum (replicate (length g) s0))
  = replicate (length g) s0.
Proof.
  unfold vadd, vscale. induction g as [|x g IH]; [done|].
  cbn [length replicate map zip_with]. rewrite IH. f_equal. ring.
Qed.

(** X16: with a learning rate of zero (and a gradient of the shape of
    [k_flat]) the inner loop leaves the store, and with it [k_flat], as it
    found it, whatever the momentum and the number of steps; and the
    parameters do not move inside the loop either. *)
Theorem zero_learning_rate_keeps_k_flat (k_flat : nat) (momentum : R)
    (num_steps : nat) dm1 dm2 hcore eri (σ : gmap nat (list R))
    (k0 : list R) :
  (∀ dm1 dm2 hcore eri k,
     length (_SCISCF_Energy_contract_grad dm1 dm2 hcore eri k) = length k) →
  σ !! k_flat = Some k0 →
  _optimize_orbitals_sci k_flat s0 momentum num_steps dm1 dm2 hcore eri σ = σ
  ∧ sci_trajectory s0 momentum num_steps dm1 dm2 hcore eri k_flat σ
    = replicate num_steps k0.
Proof.
  intros Hgrad Hk. split; [apply optimize_orbitals_sci_store|].
  apply sci_trajectory_fixed; [done| |apply vsub_zeros].
  rewrite <- (Hgrad dm1 dm2 hcore eri k0) at 1 2.
  by rewrite vadd_vscale_zero, Hgrad.
Qed.

(** X17: the inner loop writes no array, not even [k_flat]: after every
    pass [prev_update] is a JAX array and the name [k_flat] is bound to a
    JAX array, so the store after the call is the store before it. *)
Theorem inner_loop_writes_nothing (k_flat : nat) (learning_rate momentum : R)
    (num_steps : nat) dm1 dm2 hcore eri (σ : gmap nat (list R)) :
  _optimize_orbitals_sci k_flat learning_rate momentum num_steps
                         dm1 dm2 hcore eri σ
  = σ
  ∧ ∀ n, ∃ v,
      (sci_loop learning_rate momentum (S n) dm1 dm2 hcore eri k_flat σ).1.2
      = Jax v
      ∧ library_of (sci_loop learning_rate momentum (S n) dm1 dm2 hcore eri
                             k_flat σ).2
        = jax.
Proof.
  split; [apply optimize_orbitals_sci_store|].
  intros n. apply sci_loop_jax.
Qed.

(** *** optimize_orbitals *)

Lemma optimize_orbitals_unfold bitstring_matrix hcore eri (k_flat : nat)
    open_shell spin_sq num_iters num_steps_grad learning_rate max_davidson
    (σ : gmap nat (list R)) ci_strs nelec :
  length (σ !!! k_flat) = length hcore * (length hcore - 1) / 2 →
  validated_ci_strs bitstring_matrix open_shell = Ok (ci_strs, nelec) →
  optimize_orbitals bitstring_matrix hcore eri k_flat open_shell spin_sq
    num_iters num_steps_grad learning_rate max_davidson σ
  = match orbital_loop num_iters None hcore (transpose_0231 eri)
            (fresh (dom σ)) (length hcore) nelec ci_strs spin_sq
            num_steps_grad learning_rate max_davidson
            (<[fresh (dom σ) := σ !!! k_flat]> σ) with
    | (Raise e, σ') => (Raise e, σ')
    | (Ok None, σ') => (Raise UnboundLocalError, σ')
    | (Ok (Some it), σ') =>
        (Ok (e_qsci it, fresh (dom σ),
             [diagonal (dm1a it); diagonal (dm1b it)]), σ')
    end.
Proof.
  intros Hlen Hval. unfold optimize_orbitals.
  by rewrite num_params_eq, Hlen, Nat.eqb_refl, Hval.
Qed.

(** X18: with [num_iters = 0] and arguments that pass both checks,
    [optimize_orbitals] does not return: the energy it is to return was never
    assigned, and Python raises [UnboundLocalError].  The caller's store has
    then only gained the copy of [k_flat]. *)
Theorem optimize_orbitals_no_iterations bitstring_matrix hcore eri
    (k_flat : nat) open_shell spin_sq num_steps_grad learning_rate
    max_davidson (σ : gmap nat (list R)) ci_strs nelec :
  length (σ !!! k_flat) = length hcore * (length hcore - 1) / 2 →
  validated_ci_strs bitstring_matrix open_shell = Ok (ci_strs, nelec) →
  optimize_orbitals bitstring_matrix hcore eri k_flat open_shell spin_sq
    0 num_steps_grad learning_rate max_davidson σ
  = (Raise UnboundLocalError, <[fresh (dom σ) := σ !!! k_flat]> σ).
Proof.
  intros Hlen Hval. by rewrite (optimize_orbitals_unfold _ _ _ _ _ _ _ _ _ _ _
                                  ci_strs nelec).
Qed.



End LoopMoreFacts.

Lemma zero_learning_rate_keeps_k_flat_witness :
  ((∀ dm1 dm2 hcore eri (k : list Qc),
      length (_SCISCF_Energy_contract_grad dm1 dm2 hcore eri k) = length k)
   ∧ ({[0 := [qz 1; qz 2]]} : gmap nat (list Qc)) !! 0 = Some [qz 1; qz 2])
  ∧ _optimize_orbitals_sci 0 s0 lit_0_9 5 (zeros 2 2) [] (zeros 2 2) []
      ({[0 := [qz 1; qz 2]]} : gmap nat (list Qc))
    = {[0 := [qz 1; qz 2]]}
  ∧ sci_trajectory s0 lit_0_9 5 (zeros 2 2) [] (zeros 2 2) [] 0
      ({[0 := [qz 1; qz 2]]} : gmap nat (list Qc))
    = replicate 5 [qz 1; qz 2].
Proof.
  assert (∀ dm1 dm2 hcore eri (k : list Qc),
            length (_SCISCF_Energy_contract_grad dm1 dm2 hcore eri k)
            = length k) as Hgrad by reflexivity.
  assert (({[0 := [qz 1; qz 2]]} : gmap nat (list Qc)) !! 0
          = Some [qz 1; qz 2]) as Hk by reflexivity.
  split; [by split|].
  exact (zero_learning_rate_keeps_k_flat 0 lit_0_9 5 _ _ _ _ _ _ Hgrad Hk).
Defined.

Lemma optimize_orbitals_no_iterations_witness :
  (length (({[0 := [s0]]} : gmap nat (list Qc)) !!! 0)
   = length (zeros (R:=Qc) 2 2) * (length (zeros (R:=Qc) 2 2) - 1) / 2
   ∧ validated_ci_strs (Determinants [1; 2]%Z [1; 2]%Z) false
     = Ok (([1; 2]%Z, [1; 2]%Z), (1, 1)))
  ∧ (optimize_orbitals (Determinants [1; 2]%Z [1; 2]%Z) (zeros 2 2)
                       (t4tab 2 2 2 2 (λ _ _ _ _, s0)) 0 false s0 0 3 s1 100
                       ({[0 := [s0]]} : gmap nat (list Qc))).1
    = Raise UnboundLocalError.
Proof.
  assert (length (({[0 := [s0]]} : gmap nat (list Qc)) !!! 0)
          = length (zeros (R:=Qc) 2 2) * (length (zeros (R:=Qc) 2 2) - 1) / 2)
    as Hlen by reflexivity.
  assert (validated_ci_strs (Determinants [1; 2]%Z [1; 2]%Z) false
          = Ok (([1; 2]%Z, [1; 2]%Z), (1, 1))) as Hval by reflexivity.
  split; [by split|].
  by rewrite (optimize_orbitals_no_iterations _ (zeros 2 2) _ 0 false s0 3 s1
                100 {[0 := [s0]]} _ _ Hlen Hval).
Defined.


End LoopMoreFacts.

(** ** _generate_bitstrings *)

Module SubspaceFacts.
Import Codec Counting Loop Subspace CodecFacts ExpanderMoreFacts
       CodecMoreFacts.

Lemma binomial_0_r n : binomial n 0 = 1.
Proof. by destruct n. Qed.

Lemma binomial_gt n k : n < k → binomial n k = 0.
Proof.
  revert k. induction n as [|n IH]; intros [|k] Hk; simpl; try lia.
  rewrite !IH by lia. done.
Qed.

Lemma binomial_pos n k : k ≤ n → 0 < binomial n k.
Proof.
  revert k. induction n as [|n IH]; intros [|k] Hk; simpl; try lia.
  specialize (IH k). lia.
Qed.

Lemma combinations_0 {A} (pool : list A) : combinations pool 0 = [[]].
Proof. by destruct pool. Qed.

Lemma elem_of_combinations {A} (pool : list A) k comb x :
  comb ∈ combinations pool k → x ∈ comb → x ∈ pool.
Proof.
  revert k comb. induction pool as [|y pool IH]; intros [|k] comb; simpl.
  - intros ->%list_elem_of_singleton Hx. by apply elem_of_nil in Hx.
  - intros Hc. by apply elem_of_nil in Hc.
  - intros ->%list_elem_of_singleton Hx. by apply elem_of_nil in Hx.
  - rewrite elem_of_app. intros [Hc|Hc] Hx.
    + change (map ?f ?l) with (f <$> l) in Hc.
      apply list_elem_of_fmap in Hc as (c & -> & Hc).
      apply elem_of_cons in Hx as [->|Hx]; [by left|right; eauto].
    + right; eauto.
Qed.

Lemma get_strings_from n k : _get_strings n k = strings_from 0 n k.
Proof. done. Qed.

Lemma strings_from_0 s n : strings_from s n 0 = [replicate n "0"%char].
Proof.
  unfold strings_from. rewrite combinations_0. cbn [map]. f_equal.
  revert s. induction n as [|n IH]; intros s; [done|].
  cbn [seq map replicate]. by rewrite IH.
Qed.

Lemma strings_from_nil s k : strings_from s 0 (S k) = [].
Proof. done. Qed.

Lemma strings_from_S s n k :
  strings_from s (S n) (S k)
  = map (cons "1"%char) (strings_from (S s) n k)
    ++ map (cons "0"%char) (strings_from (S s) n (S k)).
Proof.
  unfold strings_from. cbn [seq combinations].
  rewrite map_app, !map_map. f_equal; apply map_ext_in; intros comb Hcomb.
  - cbn [map]. rewrite bool_decide_true by left. f_equal.
    apply map_ext_in. intros i Hi%list_elem_of_In%elem_of_seq.
    rewrite (bool_decide_ext (i ∈ s :: comb) (i ∈ comb)); [done|].
    rewrite elem_of_cons. split; [intros [?|?]; [lia|done]|by right].
  - cbn [map]. rewrite bool_decide_false; [done|].
    intros Hs. apply list_elem_of_In in Hcomb.
    apply (elem_of_combinations _ _ _ _ Hcomb), elem_of_seq in Hs. lia.
Qed.

Lemma length_strings_from s n k : length (strings_from s n k) = binomial n k.
Proof.
  revert s k. induction n as [|n IH]; intros s [|k];
    rewrite ?strings_from_0, ?strings_from_S; try done.
  rewrite length_app, !length_map, !IH. done.
Qed.

Lemma to_bool_cons c bs :
  to_bool (c :: bs) = Ascii.eqb c "1"%char :: to_bool bs.
Proof. done. Qed.

Lemma to_bool_app bs1 bs2 : to_bool (bs1 ++ bs2) = to_bool bs1 ++ to_bool bs2.
Proof. apply map_app. Qed.

Lemma to_bool_replicate n c :
  to_bool (replicate n c) = replicate n (Ascii.eqb c "1"%char).
Proof. unfold to_bool. induction n as [|n IH]; [done|]. simpl. by rewrite IH. Qed.

Lemma occupation_replicate n b :
  occupation (replicate n b) = if b then n else 0.
Proof.
  induction n as [|n IH]; [by destruct b|].
  cbn [replicate]. rewrite occupation_cons, IH. by destruct b.
Qed.

Lemma occupation_app (l1 l2 : list bool) :
  occupation (l1 ++ l2) = occupation l1 + occupation l2.
Proof. unfold occupation. by rewrite filter_app, length_app. Qed.

Lemma occupation_0 (bits : list bool) :
  occupation bits = 0 ↔ bits = replicate (length bits) false.
Proof.
  induction bits as [|b bits IH]; [done|].
  rewrite occupation_cons. cbn [length replicate]. split.
  - intros Hocc. destruct b; [lia|]. f_equal. apply IH. lia.
  - intros [= -> Hbits]. by apply IH in Hbits.
Qed.

(** The strings of [_get_strings], as bits: all lists of [n] bits of which
    [k] are set. *)
Lemma elem_of_strings_from s n k (bits : list bool) :
  bits ∈ map to_bool (strings_from s n k)
  ↔ length bits = n ∧ occupation bits = k.
Proof.
  revert s k bits. induction n as [|n IH]; intros s [|k] bits.
  - rewrite strings_from_0. cbn. rewrite list_elem_of_singleton. split.
    + by intros ->.
    + intros [Hlen _]. by destruct bits.
  - rewrite strings_from_nil. split; [intros Hb; by apply elem_of_nil in Hb|].
    intros [Hlen Hocc]. by destruct bits.
  - rewrite strings_from_0. cbn [map]. rewrite list_elem_of_singleton.
    rewrite to_bool_replicate. change (Ascii.eqb "0" "1") with false. split.
    + intros ->. by rewrite length_replicate, occupation_replicate.
    + intros [<- Hocc]. by apply occupation_0.
  - rewrite strings_from_S, map_app, !map_map, elem_of_app.
    change (map ?f ?l) with (f <$> l). rewrite !list_elem_of_fmap. split.
    + intros [(str & -> & Hstr)|(str & -> & Hstr)];
        rewrite to_bool_cons, occupation_cons; cbn [length];
        apply (list_elem_of_fmap_2 to_bool), IH in Hstr as [<- <-];
        by split.
    + destruct bits as [|b bits]; [by intros [? _]|].
      rewrite occupation_cons. cbn [length]. intros [[= Hlen] Hocc].
      destruct b.
      * assert (bits ∈ to_bool <$> strings_from (S s) n k) as Hin
          by (apply IH; split; [done|lia]).
        apply list_elem_of_fmap in Hin as (str & -> & Hstr).
        left. by exists str.
      * assert (bits ∈ to_bool <$> strings_from (S s) n (S k)) as Hin
          by (apply IH; split; [done|lia]).
        apply list_elem_of_fmap in Hin as (str & -> & Hstr).
        right. by exists str.
Qed.

Lemma NoDup_strings_from s n k : NoDup (map to_bool (strings_from s n k)).
Proof.
  revert s k. induction n as [|n IH]; intros s [|k];
    rewrite ?strings_from_0, ?strings_from_nil;
    [apply NoDup_singleton|apply NoDup_nil_2|apply NoDup_singleton|].
  rewrite strings_from_S, map_app, !map_map.
  change (map ?f ?l) with (f <$> l).
  assert (∀ (b : bool) c (l : list (list ascii)), Ascii.eqb c "1" = b →
            (λ x, to_bool (c :: x)) <$> l = (cons b) <$> (to_bool <$> l))
    as Hcons.
  { intros b c l <-. rewrite <- list_fmap_compose. done. }
  rewrite (Hcons true), (Hcons false) by done.
  assert (∀ b : bool, Inj eq eq (cons (A:=bool) b)) as Hinj
    by (intros b x y [= ->]; done).
  apply NoDup_app. split_and!.
  - apply (NoDup_fmap_2 _), IH.
  - intros bits (? & -> & _)%list_elem_of_fmap (? & [=] & _)%list_elem_of_fmap.
  - apply (NoDup_fmap_2 _), IH.
Qed.

(** *** The rows *)

(** One row, from its two halves: [v + b + d + v + a + d]. *)
Local Abbreviation row_of v d a b :=
  (replicate v false ++ b ++ replicate d true
   ++ replicate v false ++ a ++ replicate d true).

Lemma generate_bitstrings_rows_eq norb neleca nelecb n_orb n_alpha n_beta :
  _generate_bitstrings norb neleca nelecb n_orb n_alpha n_beta
  = np_array
      (a ← map to_bool (_get_strings n_orb n_alpha);
       b ← map to_bool (_get_strings n_orb n_beta);
       [row_of (num_virtual norb neleca nelecb n_orb n_alpha n_beta)
               (num_doubly_occ neleca nelecb n_alpha n_beta) a b]).
Proof.
  unfold _generate_bitstrings. f_equal.
  generalize (num_virtual norb neleca nelecb n_orb n_alpha n_beta) as v.
  generalize (num_doubly_occ neleca nelecb n_alpha n_beta) as d.
  intros d v.
  generalize (_get_strings n_orb n_beta) as lb.
  generalize (_get_strings n_orb n_alpha) as la.
  intros la lb. change (map ?f ?l) with (f <$> l).
  induction la as [|a la IHa]; [done|].
  rewrite fmap_cons, !bind_cons, fmap_app, IHa. f_equal.
  clear IHa. induction lb as [|b lb IHb]; [done|].
  rewrite fmap_cons, !bind_cons, fmap_app, IHb. f_equal.
  cbn [mbind list_bind app fmap list_fmap].
  by rewrite !to_bool_app, !to_bool_replicate.
Qed.

Lemma elem_of_rows v d la lb (row : list bool) :
  row ∈ (a ← la; b ← lb; [row_of v d a b])
  ↔ ∃ a b, a ∈ la ∧ b ∈ lb ∧ row = row_of v d a b.
Proof.
  rewrite list_elem_of_bind. split.
  - intros (a & (b & Hrow%list_elem_of_singleton & Hb)%list_elem_of_bind & Ha).
    by exists a, b.
  - intros (a & b & Ha & Hb & ->). exists a. split; [|done].
    apply list_elem_of_bind. exists b. split; [|done].
    by apply list_elem_of_singleton.
Qed.

Lemma length_rows {A B} (la lb : list A) (f : A → A → B) :
  length (a ← la; b ← lb; [f a b]) = length la * length lb.
Proof.
  assert (∀ g : A → B, length (b ← lb; [g b]) = length lb) as Hlb.
  { intros g. induction lb as [|b lb IH]; [done|].
    rewrite bind_cons, length_app, IH. done. }
  induction la as [|a la IH]; [done|].
  rewrite bind_cons, length_app, IH, Hlb. cbn [length]. lia.
Qed.

Lemma length_row_of v d (a b : list bool) :
  length (row_of v d a b)
  = (v + length b + d) + (v + length a + d).
Proof. rewrite !length_app, !length_replicate. lia. Qed.

(** X21: [_generate_bitstrings] returns the one-dimensional empty array
    exactly when the subspace has more electrons of one spin than orbitals;
    otherwise a matrix of [C(n_orb, n_alpha) * C(n_orb, n_beta)] rows, all of
    width [2 * (v + n_orb + d)], for [d] doubly occupied and [v] virtual
    orbitals as the function computes them. *)
Theorem generate_bitstrings_shape (norb neleca nelecb n_orb n_alpha n_beta : nat) :
  match _generate_bitstrings norb neleca nelecb n_orb n_alpha n_beta with
  | Array1D_empty => n_orb < n_alpha ∨ n_orb < n_beta
  | Array2D m =>
      n_alpha ≤ n_orb ∧ n_beta ≤ n_orb
      ∧ bm_wf m
      ∧ length (bm_rows m) = binomial n_orb n_alpha * binomial n_orb n_beta
      ∧ bm_shape1 m
        = 2 * (num_virtual norb neleca nelecb n_orb n_alpha n_beta + n_orb
               + num_doubly_occ neleca nelecb n_alpha n_beta)
  end.
Proof.
  rewrite generate_bitstrings_rows_eq.
  set (v := num_virtual _ _ _ _ _ _). set (d := num_doubly_occ _ _ _ _).
  set (rows := _ ≫= _).
  assert (length rows = binomial n_orb n_alpha * binomial n_orb n_beta)
    as Hlen.
  { unfold rows. rewrite length_rows, !length_map.
    rewrite (get_strings_from n_orb n_alpha), (get_strings_from n_orb n_beta).
    by rewrite !length_strings_from. }
  assert (Forall (λ row, length row = 2 * (v + n_orb + d)) rows) as Hwf.
  { apply Forall_forall. intros row (a & b & Ha & Hb & ->)%elem_of_rows.
    rewrite (get_strings_from n_orb n_alpha) in Ha.
    rewrite (get_strings_from n_orb n_beta) in Hb.
    apply elem_of_strings_from in Ha as [Ha _].
    apply elem_of_strings_from in Hb as [Hb _].
    rewrite length_row_of, Ha, Hb. lia. }
  destruct rows as [|row rows'] eqn:Hrows; cbn [np_array].
  - cbn [length] in Hlen.
    destruct (decide (n_orb < n_alpha)) as [?|Ha]; [by left|].
    destruct (decide (n_orb < n_beta)) as [?|Hb]; [by right|].
    pose proof (binomial_pos n_orb n_alpha ltac:(lia)).
    pose proof (binomial_pos n_orb n_beta ltac:(lia)). nia.
  - cbn [bm_rows bm_shape1 bm_wf]. pose proof Hwf as Hwf'.
    apply Forall_cons in Hwf' as [Hrow _]. rewrite Hrow.
    split_and!; [| |done..].
    + destruct (decide (n_alpha ≤ n_orb)); [done|].
      rewrite (binomial_gt n_orb n_alpha) in Hlen by lia. done.
    + destruct (decide (n_beta ≤ n_orb)); [done|].
      rewrite (binomial_gt n_orb n_beta) in Hlen by lia.
      cbn [length] in Hlen. lia.
Qed.

Lemma row_of_inj v d (a b a' b' : list bool) :
  length b = length b' → length a = length a' →
  row_of v d a b = row_of v d a' b' → a = a' ∧ b = b'.
Proof.
  intros Hb Ha Heq.
  apply app_inv_head in Heq. apply app_inj_1 in Heq as [-> Heq]; [|done].
  apply app_inv_head, app_inv_head in Heq.
  by apply app_inj_1 in Heq as [-> _].
Qed.

(** X22: the rows of the generated matrix are exactly the rows
    [v + b + d + v + a + d] for [a] and [b] over all arrangements of
    [n_alpha] and of [n_beta] electrons in [n_orb] orbitals, [v] empty and
    [d] occupied orbitals; no row comes twice. *)
Theorem generate_bitstrings_rows (norb neleca nelecb n_orb n_alpha n_beta : nat)
    (m : bitstring_matrix) :
  _generate_bitstrings norb neleca nelecb n_orb n_alpha n_beta = Array2D m →
  NoDup (bm_rows m)
  ∧ ∀ row,
      row ∈ bm_rows m
      ↔ ∃ a b,
          (length a = n_orb ∧ occupation a = n_alpha)
          ∧ (length b = n_orb ∧ occupation b = n_beta)
          ∧ row = row_of (num_virtual norb neleca nelecb n_orb n_alpha n_beta)
                         (num_doubly_occ neleca nelecb n_alpha n_beta) a b.
Proof.
  rewrite generate_bitstrings_rows_eq.
  set (v := num_virtual _ _ _ _ _ _). set (d := num_doubly_occ _ _ _ _).
  rewrite (get_strings_from n_orb n_alpha), (get_strings_from n_orb n_beta).
  destruct (_ ≫= _) as [|row0 rows'] eqn:Hrows; [done|].
  cbn [np_array]. intros [= <-]. cbn [bm_rows]. rewrite <- Hrows. clear Hrows.
  split.
  - apply NoDup_bind; [| |apply NoDup_strings_from].
    + intros a a' row Ha Ha'
        (b & ->%list_elem_of_singleton & Hb)%list_elem_of_bind
        (b' & Heq%list_elem_of_singleton & Hb')%list_elem_of_bind.
      apply elem_of_strings_from in Ha as [Ha _], Ha' as [Ha' _].
      apply elem_of_strings_from in Hb as [Hb _], Hb' as [Hb' _].
      apply row_of_inj in Heq as [? _]; [done|congruence..].
    + intros a Ha. apply NoDup_bind; [| |apply NoDup_strings_from].
      * intros b b' row Hb Hb' ->%list_elem_of_singleton
          Heq%list_elem_of_singleton.
        apply elem_of_strings_from in Hb as [Hb _], Hb' as [Hb' _].
        apply row_of_inj in Heq as [_ ?]; [done|congruence..].
      * intros b _. apply NoDup_singleton.
  - intros row. rewrite elem_of_rows.
    split; intros (a & b & Ha & Hb & ->); exists a, b.
    + by rewrite <- !elem_of_strings_from.
    + by rewrite !elem_of_strings_from.
Qed.

Lemma generate_bitstrings_rows_witness :
  _generate_bitstrings 4 2 2 2 1 1
  = Array2D (BitstringMatrix
               [[false; true; false; true; false; true; false; true];
                [false; false; true; true; false; true; false; true];
                [false; true; false; true; false; false; true; true];
                [false; false; true; true; false; false; true; true]] 8)
  ∧ NoDup [[false; true; false; true; false; true; false; true];
           [false; false; true; true; false; true; false; true];
           [false; true; false; true; false; false; true; true];
           [false; false; true; true; false; false; true; true]].
Proof.
  split; [reflexivity|].
  exact (proj1 (generate_bitstrings_rows 4 2 2 2 1 1 _ eq_refl)).
Defined.

Lemma generate_bitstrings_empty norb neleca nelecb n_orb n_alpha n_beta :
  n_orb < n_alpha ∨ n_orb < n_beta →
  _generate_bitstrings norb neleca nelecb n_orb n_alpha n_beta = Array1D_empty.
Proof.
  intros Hlt. rewrite generate_bitstrings_rows_eq.
  match goal with |- np_array ?rows = _ => assert (rows = []) as -> end;
    [|done].
  apply length_zero_iff_nil. rewrite length_rows, !length_map.
  rewrite (get_strings_from n_orb n_alpha), (get_strings_from n_orb n_beta).
  rewrite !length_strings_from.
  destruct Hlt as [Ha|Hb];
    [rewrite (binomial_gt n_orb n_alpha) by done
    |rewrite (binomial_gt n_orb n_beta) by done]; lia.
Qed.

Lemma np_array_rows rows m : np_array rows = Array2D m → bm_rows m = rows.
Proof. destruct rows; [done|]. by intros [= <-]. Qed.

Lemma num_doubly_occ_even (n_alpha n_beta d : nat) :
  num_doubly_occ (n_alpha + d) (n_beta + d) n_alpha n_beta = d.
Proof.
  unfold num_doubly_occ.
  replace (Z.of_nat (n_alpha + d) + Z.of_nat (n_beta + d)
           - Z.of_nat n_alpha - Z.of_nat n_beta)%Z
    with (Z.of_nat d * 2)%Z by lia.
  rewrite Z.quot_mul by done. lia.
Qed.

Lemma num_virtual_even (norb n_orb n_alpha n_beta d : nat) :
  n_orb + d ≤ norb →
  num_virtual norb (n_alpha + d) (n_beta + d) n_orb n_alpha n_beta
  = norb - n_orb - d.
Proof.
  intros Hle. unfold num_virtual.
  replace (2 * (Z.of_nat norb - Z.of_nat n_orb)
           - (Z.of_nat (n_alpha + d) + Z.of_nat (n_beta + d)
              - Z.of_nat n_alpha - Z.of_nat n_beta))%Z
    with (Z.of_nat (norb - n_orb - d) * 2)%Z by lia.
  rewrite Z.quot_mul by done. lia.
Qed.

(** X23: when the electrons outside the subspace fill [d] orbitals of each
    spin ([neleca = n_alpha + d], [nelecb = n_beta + d]) and the system has
    room for them, every generated row has the width [2 * norb] of the
    system, its left half holds [nelecb] electrons and its right half
    [neleca]; up to 53 orbitals the matrix then passes the validation of
    [solve_fermion] with the electron counts of the system (for
    [open_shell=False] when the two counts agree). *)
Theorem generate_bitstrings_consistent
    (norb n_orb n_alpha n_beta d neleca nelecb : nat) (m : bitstring_matrix)
    (open_shell : bool) :
  neleca = n_alpha + d → nelecb = n_beta + d → n_orb + d ≤ norb →
  _generate_bitstrings norb neleca nelecb n_orb n_alpha n_beta = Array2D m →
  bm_shape1 m = 2 * norb
  ∧ (∀ row, row ∈ bm_rows m →
       length row = 2 * norb
       ∧ occupation (take norb row) = nelecb
       ∧ occupation (drop norb row) = neleca)
  ∧ (norb ≤ 53 → (open_shell = false → neleca = nelecb) →
     validated_ci_strs (Bitstrings m) open_shell
     = Ok (bitstring_matrix_to_ci_strs m open_shell, (neleca, nelecb))).
Proof.
  intros -> -> Hle Hgen.
  pose proof Hgen as Hrows. rewrite generate_bitstrings_rows_eq in Hrows.
  rewrite num_doubly_occ_even, num_virtual_even in Hrows by done.
  rewrite (get_strings_from n_orb n_alpha), (get_strings_from n_orb n_beta)
    in Hrows.
  assert (∀ row, row ∈ bm_rows m →
            length row = 2 * norb
            ∧ occupation (take norb row) = n_beta + d
            ∧ occupation (drop norb row) = n_alpha + d) as Hrow.
  { intros row Hin. rewrite (np_array_rows _ _ Hrows) in Hin.
    apply elem_of_rows in Hin as (a & b & Ha & Hb & ->).
    apply elem_of_strings_from in Ha as [Ha Hoa].
    apply elem_of_strings_from in Hb as [Hb Hob].
    rewrite length_row_of, Ha, Hb. split; [lia|].
    replace (row_of (norb - n_orb - d) d a b)
      with ((replicate (norb - n_orb - d) false ++ b ++ replicate d true)
            ++ (replicate (norb - n_orb - d) false ++ a ++ replicate d true))
      by (by rewrite <- !(assoc_L (++))).
    rewrite take_app_length', drop_app_length'
      by (rewrite !length_app, !length_replicate; lia).
    rewrite !occupation_app, !occupation_replicate. lia. }
  assert (bm_shape1 m = 2 * norb) as Hshape.
  { destruct (_ ≫= _) as [|row rows] eqn:Hbind; [done|].
    cbn [np_array] in Hrows. injection Hrows as <-. cbn [bm_shape1].
    apply (Hrow row). cbn [bm_rows]. by left. }
  split; [done|]. split; [done|]. intros Hnorb Hclosed.
  assert (bm_shape1 m / 2 = norb) as Hhalf
    by (rewrite Hshape, Nat.mul_comm; by apply Nat.div_mul).
  assert (bm_wf m) as Hwf.
  { apply Forall_forall. intros row Hin. rewrite Hshape. by apply Hrow. }
  assert (bm_rows m ≠ []) as Hne.
  { rewrite (np_array_rows _ _ Hrows). intros Hnil.
    by rewrite Hnil in Hrows. }
  assert (∀ x, x ∈ ci_str_left m → popcountZ x = n_beta + d) as Hleft.
  { intros x Hx. apply elem_of_ci_str_left in Hx as (row & Hin & ->);
      [|done|lia].
    rewrite popcountZ_big_endian, Hhalf. by apply Hrow. }
  assert (∀ x, x ∈ ci_str_right m → popcountZ x = n_alpha + d) as Hright.
  { intros x Hx. apply elem_of_ci_str_right in Hx as (row & Hin & ->);
      [|done|lia].
    rewrite popcountZ_big_endian, Hhalf.
    destruct (Hrow row Hin) as (Hlen & _ & <-).
    by rewrite take_ge by (rewrite length_drop; lia). }
  rewrite validated_ci_strs_bitstrings.
  destruct (ci_strs_increasing m open_shell) as [Hinc1 Hinc2].
  destruct (ci_strs_nonempty m open_shell Hne) as [Hne1 Hne2].
  destruct (bitstring_matrix_to_ci_strs m open_shell) as [up dn] eqn:Hci.
  apply validated_of_uniform; try done.
  - apply Forall_forall. intros x Hx.
    pose proof (proj1 (elem_of_ci_strs m open_shell x)) as Hel.
    rewrite Hci in Hel. apply Hel in Hx as [Hx|[Hos Hx]]; [by apply Hright|].
    rewrite (Hclosed Hos). by apply Hleft.
  - apply Forall_forall. intros x Hx.
    pose proof (proj2 (elem_of_ci_strs m open_shell x)) as Hel.
    rewrite Hci in Hel. apply Hel in Hx as [Hx|[Hos Hx]]; [by apply Hleft|].
    rewrite <- (Hclosed Hos). by apply Hright.
Qed.

Lemma generate_bitstrings_consistent_witness :
  (2 = 1 + 1 ∧ 2 = 1 + 1 ∧ 2 + 1 ≤ 4)
  ∧ validated_ci_strs
      (Bitstrings (BitstringMatrix
                     [[false; true; false; true; false; true; false; true];
                      [false; false; true; true; false; true; false; true];
                      [false; true; false; true; false; false; true; true];
                      [false; false; true; true; false; false; true; true]] 8))
      false
    = Ok (([3; 5]%Z, [3; 5]%Z), (2, 2)).
Proof.
  split; [lia|].
  exact (proj2 (proj2 (generate_bitstrings_consistent 4 2 1 1 1 2 2 _ false
                         eq_refl eq_refl ltac:(lia) eq_refl))
           ltac:(lia) (λ _, eq_refl)).
Defined.

(** X24: the function does not reject an odd number of electrons outside the
    subspace: for [neleca + nelecb = n_alpha + n_beta + 2 d + 1] the generated
    rows have [norb - 1] orbitals per half, one fewer than the system. *)
Theorem generate_bitstrings_odd (norb n_orb n_alpha n_beta d neleca nelecb : nat)
    (m : bitstring_matrix) :
  neleca + nelecb = n_alpha + n_beta + 2 * d + 1 →
  n_orb + d + 1 ≤ norb →
  _generate_bitstrings norb neleca nelecb n_orb n_alpha n_beta = Array2D m →
  bm_shape1 m = 2 * (norb - 1)
  ∧ Forall (λ row, length row = 2 * (norb - 1)) (bm_rows m).
Proof.
  intros Hodd Hle Hgen.
  assert (num_doubly_occ neleca nelecb n_alpha n_beta = d) as Hd.
  { unfold num_doubly_occ.
    replace (Z.of_nat neleca + Z.of_nat nelecb
             - Z.of_nat n_alpha - Z.of_nat n_beta)%Z
      with (Z.of_nat d * 2 + 1)%Z by lia.
    rewrite Z.quot_div_nonneg by lia.
    rewrite Z.div_add_l by done. change (1 / 2)%Z with 0%Z. lia. }
  assert (num_virtual norb neleca nelecb n_orb n_alpha n_beta
          = norb - n_orb - d - 1) as Hv.
  { unfold num_virtual.
    replace (2 * (Z.of_nat norb - Z.of_nat n_orb)
             - (Z.of_nat neleca + Z.of_nat nelecb
                - Z.of_nat n_alpha - Z.of_nat n_beta))%Z
      with (Z.of_nat (norb - n_orb - d - 1) * 2 + 1)%Z by lia.
    rewrite Z.quot_div_nonneg by lia.
    rewrite Z.div_add_l by done. change (1 / 2)%Z with 0%Z. lia. }
  rewrite generate_bitstrings_rows_eq, Hd, Hv in Hgen.
  rewrite (get_strings_from n_orb n_alpha), (get_strings_from n_orb n_beta)
    in Hgen.
  assert (Forall (λ row, length row = 2 * (norb - 1)) (bm_rows m)) as Hall.
  { rewrite (np_array_rows _ _ Hgen). apply Forall_forall.
    intros row (a & b & Ha & Hb & ->)%elem_of_rows.
    apply elem_of_strings_from in Ha as [Ha _].
    apply elem_of_strings_from in Hb as [Hb _].
    rewrite length_row_of, Ha, Hb. lia. }
  split; [|done].
  destruct (_ ≫= _) as [|row rows] eqn:Hbind; [done|].
  cbn [np_array] in Hgen. injection Hgen as <-. cbn [bm_shape1 bm_rows] in *.
  by apply Forall_cons in Hall as [? _].
Qed.

Lemma generate_bitstrings_odd_witness :
  (2 + 1 = 1 + 1 + 2 * 0 + 1 ∧ 2 + 0 + 1 ≤ 4)
  ∧ _generate_bitstrings 4 2 1 2 1 1
    = Array2D (BitstringMatrix
                 [[false; true; false; false; true; false];
                  [false; false; true; false; true; false];
                  [false; true; false; false; false; true];
                  [false; false; true; false; false; true]] 6)
  ∧ 6 = 2 * (4 - 1).
Proof.
  split; [lia|]. split; [reflexivity|].
  exact (proj1 (generate_bitstrings_odd 4 2 1 1 0 2 1 _ ltac:(lia) ltac:(lia)
                  eq_refl)).
Defined.

(** *** The subspace branch of solve_fermion *)

Lemma elem_of_insert_sorted x y l :
  y ∈ insert_sorted x l ↔ y = x ∨ y ∈ l.
Proof.
  induction l as [|z l IH]; simpl.
  - rewrite list_elem_of_singleton, elem_of_nil. tauto.
  - destruct (x <=? z)%Z; rewrite !elem_of_cons, ?IH; tauto.
Qed.

Lemma length_insert_sorted x l : length (insert_sorted x l) = S (length l).
Proof.
  induction l as [|z l IH]; simpl; [done|].
  destruct (x <=? z)%Z; simpl; by rewrite ?IH.
Qed.

Lemma length_np_sort l : length (np_sort l) = length l.
Proof.
  induction l as [|x l IH]; simpl; [done|].
  by rewrite length_insert_sorted, IH.
Qed.

Lemma insert_sorted_fresh x l :
  x ∉ l → insert_sorted x l = insert_unique x l.
Proof.
  induction l as [|z l IH]; simpl; [done|].
  rewrite not_elem_of_cons. intros [Hne Hnin].
  destruct (Z.leb_spec x z), (Z.ltb_spec x z); try lia; [done|].
  destruct (Z.eqb_spec x z); [done|]. by rewrite IH.
Qed.

Lemma np_sort_NoDup l : NoDup l → np_sort l = np_unique l.
Proof.
  induction 1 as [|x l Hx Hl IH]; simpl; [done|].
  rewrite IH. apply insert_sorted_fresh. by rewrite elem_of_np_unique.
Qed.

Lemma increasing_NoDup l : increasing l → NoDup l.
Proof.
  induction 1 as [|x l Hl IH Hx]; constructor; [|done].
  intros Hin. rewrite Forall_forall in Hx. specialize (Hx x Hin). lia.
Qed.

(** One pass of the loop on one sector. *)
Lemma np_sort_append_if_absent x c :
  increasing c → np_sort (append_if_absent x c) = np_unique (c ++ [x]).
Proof.
  intros Hc. unfold append_if_absent. case_bool_decide as Hin.
  - rewrite np_sort_increasing by done.
    apply increasing_ext; [done|apply np_unique_increasing|].
    intros y. rewrite elem_of_np_unique, elem_of_app, list_elem_of_singleton.
    split; [tauto|]. intros [?| ->]; done.
  - apply np_sort_NoDup, NoDup_app. split_and!.
    + by apply increasing_NoDup.
    + intros y Hy ->%list_elem_of_singleton. done.
    + apply NoDup_singleton.
Qed.

Lemma np_unique_app_unique c xs ys :
  np_unique (np_unique (c ++ xs) ++ ys) = np_unique (c ++ xs ++ ys).
Proof.
  apply np_unique_ext. intros y.
  rewrite !elem_of_app, elem_of_np_unique, elem_of_app. tauto.
Qed.

Lemma subspace_loop_spec (n i : nat) (s0 s1 c0 c1 : list Z) :
  increasing c0 → increasing c1 →
  (n = 0 → length c0 = length c1) →
  i + n ≤ length s0 →
  match subspace_loop (seq i n) (s0, s1) (c0, c1) with
  | Return (u0, u1) =>
      u0 = np_unique (c0 ++ take n (drop i s0))
      ∧ u1 = np_unique (c1 ++ take n (drop i s1))
      ∧ (n = 0 ∨ i + n ≤ length s1)
      ∧ length u0 = length u1
  | Throw e =>
      (e = CoreError IndexError ∧ length s1 < i + n)
      ∨ ∃ l0 l1, l0 ≠ l1 ∧ e = ValueError_inhomogeneous l0 l1
  end.
Proof.
  revert i c0 c1. induction n as [|n IH]; intros i c0 c1 Hc0 Hc1 Hlen Hi.
  - cbn [seq subspace_loop]. rewrite !take_0, !app_nil_r.
    rewrite !np_unique_increasing_id by done. split_and!; auto.
  - cbn [seq subspace_loop fst snd].
    destruct (lookup_lt_is_Some_2 s0 i ltac:(lia)) as [a Ha]. rewrite Ha.
    destruct (s1 !! i) as [b|] eqn:Hb.
    2:{ left. split; [done|]. apply lookup_ge_None_1 in Hb. lia. }
    destruct (decide _) as [Heq|Hne]; [|right; by eauto].
    rewrite !np_sort_append_if_absent by done.
    assert (length (np_unique (c0 ++ [a])) = length (np_unique (c1 ++ [b])))
      as Heq'.
    { rewrite <- !np_sort_append_if_absent by done.
      by rewrite !length_np_sort. }
    specialize (IH (S i) (np_unique (c0 ++ [a])) (np_unique (c1 ++ [b]))
                  (np_unique_increasing _) (np_unique_increasing _)
                  (λ _, Heq') ltac:(lia)).
    destruct (subspace_loop _ _ _) as [[u0 u1]|e].
    + destruct IH as (-> & -> & Hbound & Hlen').
      rewrite !np_unique_app_unique in Hlen' |- *.
      rewrite (drop_S s0 a i Ha), (drop_S s1 b i Hb).
      cbn [take app] in Hlen' |- *.
      split_and!; [done..| |done]. right.
      apply lookup_lt_Some in Hb. destruct Hbound; lia.
    + destruct IH as [[-> Hlt]|IH]; [left; split; [done|lia]|by right].
Qed.

(** X25: the loop that adds the subspace determinants.  When it returns,
    the second subspace sector has at least as many determinants as the
    first, each sector is the sorted union of what it held and the subspace
    determinants read, and the two sectors have the same number of
    determinants; otherwise it raises [IndexError] (the second subspace
    sector is shorter than the first) or NumPy's [ValueError] for two arrays
    of different lengths. *)
Theorem subspace_loop_outcome (s0 s1 c0 c1 : list Z) :
  increasing c0 → increasing c1 → s0 ≠ [] →
  match subspace_loop (seq 0 (length s0)) (s0, s1) (c0, c1) with
  | Return (u0, u1) =>
      length s0 ≤ length s1
      ∧ u0 = np_union1d c0 s0
      ∧ u1 = np_union1d c1 (take (length s0) s1)
      ∧ length u0 = length u1
  | Throw e =>
      (e = CoreError IndexError ∧ length s1 < length s0)
      ∨ ∃ l0 l1, l0 ≠ l1 ∧ e = ValueError_inhomogeneous l0 l1
  end.
Proof.
  intros Hc0 Hc1 Hne.
  assert (0 < length s0) as Hpos by (destruct s0; [done|simpl; lia]).
  pose proof (subspace_loop_spec (length s0) 0 s0 s1 c0 c1 Hc0 Hc1
                ltac:(lia) ltac:(lia)) as Hspec.
  destruct (subspace_loop _ _ _) as [[u0 u1]|e]; [|done].
  destruct Hspec as (-> & -> & Hbound & Hlen).
  rewrite !drop_0, firstn_all in Hlen |- *. unfold np_union1d.
  split_and!; [lia|done..].
Qed.

Lemma subspace_loop_outcome_witness :
  (increasing [3; 5]%Z ∧ increasing [3; 6]%Z ∧ [5; 6; 9]%Z ≠ [])
  ∧ subspace_loop (seq 0 3) ([5; 6; 9]%Z, [6; 10; 12; 17]%Z)
                  ([3; 5]%Z, [3; 6]%Z)
    = Return ([3; 5; 6; 9]%Z, [3; 6; 10; 12]%Z).
Proof.
  assert (increasing [3; 5]%Z) as H0 by (repeat constructor; lia).
  assert (increasing [3; 6]%Z) as H1 by (repeat constructor; lia).
  assert ([5; 6; 9]%Z ≠ []) as Hne by done.
  split; [done|].
  pose proof (subspace_loop_outcome [5; 6; 9]%Z [6; 10; 12; 17]%Z
                [3; 5]%Z [3; 6]%Z H0 H1 Hne) as Hout.
  destruct (subspace_loop _ _ _) as [[u0 u1]|e] eqn:Hloop.
  - destruct Hout as (_ & -> & -> & _). reflexivity.
  - vm_compute in Hloop. discriminate Hloop.
Defined.

Lemma subspace_loop_same (n i : nat) (s c : list Z) :
  increasing c → i + n ≤ length s →
  subspace_loop (seq i n) (s, s) (c, c)
  = Return (np_unique (c ++ take n (drop i s)),
            np_unique (c ++ take n (drop i s))).
Proof.
  revert i c. induction n as [|n IH]; intros i c Hc Hi.
  - cbn [seq subspace_loop]. rewrite take_0, app_nil_r.
    by rewrite np_unique_increasing_id.
  - cbn [seq subspace_loop fst snd].
    destruct (lookup_lt_is_Some_2 s i ltac:(lia)) as [a Ha]. rewrite Ha.
    rewrite decide_True by done.
    rewrite np_sort_append_if_absent by done.
    rewrite IH by (apply np_unique_increasing || lia).
    rewrite np_unique_app_unique, (drop_S s a i Ha). done.
Qed.

Lemma validated_bitstrings_closed (m : bitstring_matrix) ci nelec :
  validated_ci_strs (Bitstrings m) false = Ok (ci, nelec) →
  ci = bitstring_matrix_to_ci_strs m false ∧ ci.1 = ci.2 ∧ increasing ci.1.
Proof.
  rewrite validated_ci_strs_bitstrings.
  destruct (ci_strs_increasing m false) as [Hinc _].
  rewrite ci_strs_unfold in *. cbn [fst snd] in *.
  set (u := np_union1d _ _) in *.
  destruct (_check_ci_strs (u, u)) as [r|e] eqn:Hcheck; [|done].
  apply check_ci_strs_Ok in Hcheck as (_ & _ & _ & _ & ->).
  rewrite !np_unique_increasing_id by done. cbn [rbind fst snd].
  destruct (u !! 0); [|done]. by intros [= <- _].
Qed.

(** X26: for a bitstring matrix and [open_shell=False] the branch cannot
    fail once the subspace is not empty: both sectors are the same array
    before, and the same array after, namely the sorted union of the
    determinants of the matrix with those of the subspace. *)
Theorem subspace_branch_closed_shell (m sm : bitstring_matrix)
    (ci : list Z * list Z) (nelec : nat * nat)
    (norb subspace_orb subspace_alpha subspace_beta : nat) :
  validated_ci_strs (Bitstrings m) false = Ok (ci, nelec) →
  _generate_bitstrings norb nelec.1 nelec.2
                       subspace_orb subspace_alpha subspace_beta
  = Array2D sm →
  let u := np_union1d ci.1 (bitstring_matrix_to_ci_strs sm false).1 in
  subspace_branch norb nelec ci false subspace_orb subspace_alpha subspace_beta
  = Return (u, u)
  ∧ increasing u
  ∧ ∀ x, x ∈ u
         ↔ x ∈ ci_str_left m ∨ x ∈ ci_str_right m
           ∨ x ∈ ci_str_left sm ∨ x ∈ ci_str_right sm.
Proof.
  intros Hval Hgen u.
  apply validated_bitstrings_closed in Hval as (Hci & Hsame & Hinc).
  split; [|split].
  - unfold subspace_branch. rewrite Hgen. cbn [subspace_ci_strs obind].
    destruct ci as [c0 c1]. cbn [fst snd] in *. subst c1.
    rewrite (ci_strs_unfold sm). cbn [fst snd].
    rewrite subspace_loop_same by (done || lia).
    by rewrite drop_0, firstn_all.
  - apply np_unique_increasing.
  - intros x. unfold u. rewrite elem_of_np_union1d, Hci.
    rewrite (proj1 (elem_of_ci_strs m false x)).
    rewrite (proj1 (elem_of_ci_strs sm false x)). tauto.
Qed.

Lemma subspace_branch_closed_shell_witness :
  (validated_ci_strs
     (Bitstrings (BitstringMatrix
                    [[false; false; true; true; false; false; true; true];
                     [false; true; true; false; false; true; true; false]] 8))
     false
   = Ok (([3; 6]%Z, [3; 6]%Z), (2, 2))
   ∧ _generate_bitstrings 4 2 2 2 1 1
     = Array2D (BitstringMatrix
                  [[false; true; false; true; false; true; false; true];
                   [false; false; true; true; false; true; false; true];
                   [false; true; false; true; false; false; true; true];
                   [false; false; true; true; false; false; true; true]] 8))
  ∧ subspace_branch 4 (2, 2) ([3; 6]%Z, [3; 6]%Z) false 2 1 1
    = Return ([3; 5; 6]%Z, [3; 5; 6]%Z).
Proof.
  split; [by split|].
  exact (proj1 (subspace_branch_closed_shell
                  (BitstringMatrix
                     [[false; false; true; true; false; false; true; true];
                      [false; true; true; false; false; true; true; false]] 8)
                  _ _ (2, 2) 4 2 1 1 eq_refl eq_refl)).
Defined.

Section SolveFermion.
Context {R : Type} `{Scalar R} `{Collaborators R}.

(** Without the subspace the function is the [solve_fermion] of the loop. *)
Lemma solve_fermion_without_subspace bitstring_matrix (hcore : list (list R))
    eri open_shell spin_sq max_davidson so sa sb :
  Subspace.solve_fermion bitstring_matrix hcore eri open_shell spin_sq
                         max_davidson false so sa sb
  = lift_result (Loop.solve_fermion bitstring_matrix hcore eri open_shell
                                    spin_sq max_davidson).
Proof.
  unfold Subspace.solve_fermion, Loop.solve_fermion.
  destruct (validated_ci_strs _ _) as [[ci_strs nelec]|e]; [|done].
  cbn [lift_result obind rbind].
  destruct (kernel_fixed_space _ _ _ _ _ _ _) as [e sci_vec].
  destruct (decide _); [|done].
  by destruct (new_SCIState _ _ _).
Qed.

(** X27: with [subspace=True] and a subspace that has more electrons of one
    spin than orbitals, [solve_fermion] raises [IndexError] whenever the
    configurations pass the validation: the generated array is
    one-dimensional and has no [shape[1]]. *)
Theorem solve_fermion_empty_subspace bitstring_matrix (hcore : list (list R))
    eri open_shell spin_sq max_davidson so sa sb v :
  validated_ci_strs bitstring_matrix open_shell = Ok v →
  so < sa ∨ so < sb →
  Subspace.solve_fermion bitstring_matrix hcore eri open_shell spin_sq
                         max_davidson true so sa sb
  = Throw (CoreError IndexError).
Proof.
  intros Hval Hlt. unfold Subspace.solve_fermion. rewrite Hval.
  destruct v as [ci_strs nelec]. cbn [lift_result obind].
  unfold subspace_branch. by rewrite generate_bitstrings_empty.
Qed.

End SolveFermion.

Lemma solve_fermion_empty_subspace_witness :
  (validated_ci_strs (Determinants [1; 2]%Z [1; 2]%Z) false
   = Ok (([1; 2]%Z, [1; 2]%Z), (1, 1))
   ∧ (1 < 2 ∨ 1 < 0))
  ∧ Subspace.solve_fermion (R:=Qc) (Determinants [1; 2]%Z [1; 2]%Z)
      (zeros 2 2) (t4tab 2 2 2 2 (λ _ _ _ _, s0)) false None 100 true 1 2 0
    = Throw (CoreError IndexError).
Proof.
  assert (validated_ci_strs (Determinants [1; 2]%Z [1; 2]%Z) false
          = Ok (([1; 2]%Z, [1; 2]%Z), (1, 1))) as Hval by reflexivity.
  split; [split; [done|lia]|].
  exact (solve_fermion_empty_subspace (R:=Qc) _ (zeros 2 2) _ false None 100
           1 2 0 _ Hval ltac:(lia)).
Defined.

End SubspaceFacts.

(** ** GradientOptimizer: stationary points and the first step *)

Module OptimizerMoreFacts.
Import Optimizer OptimizerFacts.

Section OptimizerMoreFacts.
Context {R : Type} `{Scalar R} `{Collaborators R}.

Add Ring scalar_ring_optimizer : scalar_ring.

Lemma vadd_vscale_zeros (a b : R) (n : nat) :
  vadd (vscale a (replicate n s0)) (vscale b (replicate n s0))
  = replicate n s0.
Proof.
  unfold vadd, vscale. induction n as [|n IH]; [done|].
  cbn [replicate map zip_with]. rewrite IH. f_equal. ring.
Qed.

Lemma vsub_replicate_zero (k : list R) :
  vsub k (replicate (length k) s0) = k.
Proof.
  unfold vsub. induction k as [|x k IH]; [done|].
  cbn [length replicate zip_with]. rewrite IH. f_equal. ring.
Qed.

Lemma vadd_vscale_first (learning_rate momentum : R) (g : list R) :
  vadd (vscale learning_rate g) (vscale momentum (replicate (length g) s0))
  = vscale learning_rate g.
Proof.
  unfold vadd, vscale. induction g as [|x g IH]; [done|].
  cbn [length replicate map zip_with]. rewrite IH. f_equal. ring.
Qed.

(** X28: a point where the gradient vanishes is a fixed point of the inner
    loop: the store is left as it was, for every learning rate, momentum and
    number of steps; and the parameters do not move inside the loop
    either. *)
Theorem stationary_point_fixed (k_flat : nat) (learning_rate momentum : R)
    (num_steps : nat) dm1 dm2 hcore eri (σ : gmap nat (list R))
    (k0 : list R) :
  σ !! k_flat = Some k0 →
  _SCISCF_Energy_contract_grad dm1 dm2 hcore eri k0
  = replicate (length k0) s0 →
  _optimize_orbitals_sci k_flat learning_rate momentum num_steps
                         dm1 dm2 hcore eri σ
  = σ
  ∧ sci_trajectory learning_rate momentum num_steps dm1 dm2 hcore eri
                   k_flat σ
    = replicate num_steps k0.
Proof.
  intros Hk Hgrad. split; [apply optimize_orbitals_sci_store|].
  apply sci_trajectory_fixed; [done| |apply vsub_replicate_zero].
  by rewrite Hgrad, vadd_vscale_zeros.
Qed.

(** X29: the first pass does not see the momentum: after it the name
    [k_flat] is bound to a JAX array that holds
    [k_flat - learning_rate * grad(k_flat)], entry by entry, when the
    gradient has the shape of [k_flat]; the array in the store still holds
    [k_flat]. *)
Theorem first_step_ignores_momentum (k_flat : nat)
    (learning_rate momentum : R) dm1 dm2 hcore eri (σ : gmap nat (list R))
    (k0 : list R) :
  σ !! k_flat = Some k0 →
  length (_SCISCF_Energy_contract_grad dm1 dm2 hcore eri k0) = length k0 →
  let k1 :=
    tabulate (length k0) (λ i,
      ssub (nth i k0 s0)
           (smul learning_rate
              (nth i (_SCISCF_Energy_contract_grad dm1 dm2 hcore eri k0)
                   s0))) in
  (sci_loop learning_rate momentum 1 dm1 dm2 hcore eri k_flat σ).1
  = (σ, Jax k1)
  ∧ sci_trajectory learning_rate momentum 1 dm1 dm2 hcore eri k_flat σ
    = [k1]
  ∧ _optimize_orbitals_sci k_flat learning_rate momentum 1
                           dm1 dm2 hcore eri σ !! k_flat
    = Some k0.
Proof.
  intros Hk Hlen k1.
  assert (sci_loop learning_rate momentum 1 dm1 dm2 hcore eri k_flat σ
          = (σ, Jax k1,
             Temporary jax
               (vscale learning_rate
                  (_SCISCF_Energy_contract_grad dm1 dm2 hcore eri k0))))
    as Hloop.
  { rewrite (sci_loop_1 _ _ _ _ _ _ σ k_flat k0 Hk).
    rewrite <- Hlen, vadd_vscale_first. do 2 f_equal.
    unfold vsub, vscale, k1. change (map ?f ?l) with (f <$> l).
    f_equal. rewrite zip_with_fmap_r.
    by apply (zip_with_tabulate
                (λ x z, ssub x (smul learning_rate z)) _ _ s0 s0). }
  split; [by rewrite Hloop|]. split.
  - unfold sci_trajectory. cbn [seq map]. by rewrite Hloop.
  - by rewrite optimize_orbitals_sci_store.
Qed.

End OptimizerMoreFacts.

Lemma stationary_point_fixed_witness :
  (({[0 := [s0; s0]]} : gmap nat (list Qc)) !! 0 = Some [s0; s0]
   ∧ _SCISCF_Energy_contract_grad (R:=Qc) (zeros 2 2) [] (zeros 2 2) []
       [s0; s0]
     = replicate (length [s0; s0 : Qc]) s0)
  ∧ _optimize_orbitals_sci 0 (qz 3) lit_0_9 4 (zeros 2 2) [] (zeros 2 2) []
      ({[0 := [s0; s0]]} : gmap nat (list Qc))
    = {[0 := [s0; s0]]}
  ∧ sci_trajectory (qz 3) lit_0_9 4 (zeros 2 2) [] (zeros 2 2) [] 0
      ({[0 := [s0; s0]]} : gmap nat (list Qc))
    = replicate 4 [s0; s0].
Proof.
  assert (({[0 := [s0; s0]]} : gmap nat (list Qc)) !! 0 = Some [s0; s0])
    as Hk by reflexivity.
  assert (_SCISCF_Energy_contract_grad (R:=Qc) (zeros 2 2) [] (zeros 2 2) []
            [s0; s0]
          = replicate (length [s0; s0 : Qc]) s0) as Hgrad by reflexivity.
  split; [by split|].
  exact (stationary_point_fixed 0 (qz 3) lit_0_9 4 _ _ _ _ _ _ Hk Hgrad).
Defined.

Lemma first_step_ignores_momentum_witness :
  (({[0 := [qz 1; qz 2]]} : gmap nat (list Qc)) !! 0 = Some [qz 1; qz 2]
   ∧ length (_SCISCF_Energy_contract_grad (R:=Qc) (zeros 2 2) [] (zeros 2 2)
               [] [qz 1; qz 2])
     = length [qz 1; qz 2])
  ∧ sci_trajectory (qz 3) lit_0_9 1 (zeros 2 2) [] (zeros 2 2) [] 0
      ({[0 := [qz 1; qz 2]]} : gmap nat (list Qc))
    = [[qz (-2); qz (-4)]]
  ∧ _optimize_orbitals_sci 0 (qz 3) lit_0_9 1 (zeros 2 2) [] (zeros 2 2) []
      ({[0 := [qz 1; qz 2]]} : gmap nat (list Qc)) !! 0
    = Some [qz 1; qz 2].
Proof.
  assert (({[0 := [qz 1; qz 2]]} : gmap nat (list Qc)) !! 0
          = Some [qz 1; qz 2]) as Hk by reflexivity.
  assert (length (_SCISCF_Energy_contract_grad (R:=Qc) (zeros 2 2) []
                    (zeros 2 2) [] [qz 1; qz 2])
          = length [qz 1; qz 2]) as Hlen by reflexivity.
  split; [by split|].
  destruct (first_step_ignores_momentum 0 (qz 3) lit_0_9 (zeros 2 2) []
              (zeros 2 2) [] _ _ Hk Hlen) as (_ & Htraj & Hstore).
  split; [|exact Hstore]. rewrite Htraj. by vm_compute.
Defined.

End OptimizerMoreFacts.
